(** * Settlement queue and amount codec of the coin bot (index.js)

    A shallow embedding of the parts of [index.js] that carry the
    invariants of the design: the amount codec ([formatCoinAmount],
    [toApiFormat], [truncateDollar]), the card mask ([maskCardId]), the
    durable queue table, the [PaymentQueue] class with its drain loop,
    the [withdraw] sub-command that feeds it, and the other commands
    that write the ledger, the settings of a guild or the queue. *)

From Stdlib Require Import ZArith QArith Qround Qabs Lqa List String Ascii Bool Lia.
Import ListNotations.

Local Open Scope string_scope.
Local Open Scope list_scope.
Local Open Scope Z_scope.

(** ** JavaScript numbers

    A JavaScript number is an IEEE-754 binary64 value.  A finite value is
    kept as the exact rational it denotes; every arithmetic operation
    computes the exact result and rounds it to the nearest representable
    value, ties to even, as the hardware does.  The sign of zero is not
    kept: none of the modelled functions can observe it. *)
Module JSNumber.

Inductive number : Type :=
| NaN
| Infinity (negative : bool)
| Finite (q : Q).

Definition isNaN (x : number) : bool :=
  match x with NaN => true | _ => false end.

Definition isFinite (x : number) : bool :=
  match x with Finite _ => true | _ => false end.

(** [2^k <= a / b], for positive [a] and [b]. *)
Definition ge_pow2 (a b k : Z) : bool :=
  if 0 <=? k then b * 2 ^ k <=? a else b <=? a * 2 ^ (- k).

(** Nearest integer to [n / d], ties to the even one ([0 < d]). *)
Definition div_nearest_even (n d : Z) : Z :=
  let q := n / d in
  let r := n mod d in
  match 2 * r ?= d with
  | Lt => q
  | Gt => q + 1
  | Eq => if Z.even q then q else q + 1
  end.

(** Rounding of a positive rational [a / b] to binary64: a 53-bit
    significand scaled by a power of two, the exponent of the last place
    never below -1074 (subnormal range).  The result is the pair
    (significand, exponent of the last place). *)
Definition round_pos (a b : Z) : Z * Z :=
  let e0 := Z.log2 a - Z.log2 b in
  let ex := if ge_pow2 a b e0 then e0 else e0 - 1 in
  let u := Z.max (ex - 52) (-1074) in
  let m := if 0 <=? u then div_nearest_even a (b * 2 ^ u)
           else div_nearest_even (a * 2 ^ (- u)) b in
  (m, u).

Definition scale2 (m u : Z) : Q :=
  if 0 <=? u then inject_Z (m * 2 ^ u)
  else Qred (Qmake m (Z.to_pos (2 ^ (- u)))).

(** Rounding of an exact result to a number. *)
Definition round64 (q : Q) : number :=
  match Qnum q with
  | Z0 => Finite 0
  | Zpos a =>
      let '(m, u) := round_pos (Zpos a) (Zpos (Qden q)) in
      if 2 ^ 1024 <=? m * 2 ^ u then Infinity false
      else Finite (scale2 m u)
  | Zneg a =>
      let '(m, u) := round_pos (Zpos a) (Zpos (Qden q)) in
      if 2 ^ 1024 <=? m * 2 ^ u then Infinity true
      else Finite (scale2 (- m) u)
  end.

(** A decimal literal of the source text, [n / 10^k]. *)
Definition literal (n : Z) (k : Z) : number :=
  round64 (Qmake n (Z.to_pos (10 ^ k))).

Definition sign_of (q : Q) : bool := Qnum q <? 0.

Definition mul (x y : number) : number :=
  match x, y with
  | NaN, _ | _, NaN => NaN
  | Infinity s, Infinity t => Infinity (xorb s t)
  | Infinity s, Finite q | Finite q, Infinity s =>
      if Qnum q =? 0 then NaN else Infinity (xorb s (sign_of q))
  | Finite p, Finite q => round64 (p * q)
  end.

Definition add (x y : number) : number :=
  match x, y with
  | NaN, _ | _, NaN => NaN
  | Infinity s, Infinity t => if Bool.eqb s t then Infinity s else NaN
  | Infinity s, Finite _ | Finite _, Infinity s => Infinity s
  | Finite p, Finite q => round64 (p + q)
  end.

(** [x - y] *)
Definition sub (x y : number) : number :=
  match x, y with
  | NaN, _ | _, NaN => NaN
  | Infinity s, Infinity t => if Bool.eqb s t then NaN else Infinity s
  | Infinity s, Finite _ => Infinity s
  | Finite _, Infinity t => Infinity (negb t)
  | Finite p, Finite q => round64 (p - q)
  end.

Definition div (x y : number) : number :=
  match x, y with
  | NaN, _ | _, NaN => NaN
  | Infinity _, Infinity _ => NaN
  | Infinity s, Finite q => Infinity (xorb s (sign_of q))
  | Finite _, Infinity _ => Finite 0
  | Finite p, Finite q =>
      if Qnum q =? 0
      then (if Qnum p =? 0 then NaN else Infinity (sign_of p))
      else round64 (p / q)
  end.

(** [Math.floor]: the floor of a binary64 value is a binary64 value. *)
Definition floor (x : number) : number :=
  match x with
  | Finite q => Finite (inject_Z (Qfloor q))
  | _ => x
  end.

(** [x < y]; every comparison with [NaN] is false. *)
Definition lt (x y : number) : bool :=
  match x, y with
  | NaN, _ | _, NaN => false
  | Infinity s, Infinity t => s && negb t
  | Infinity s, Finite _ => s
  | Finite _, Infinity t => negb t
  | Finite p, Finite q => negb (Qle_bool q p)
  end.

(** [x <= y]. *)
Definition le (x y : number) : bool :=
  match x, y with
  | NaN, _ | _, NaN => false
  | Infinity s, Infinity t => s || negb t
  | Infinity s, Finite _ => s
  | Finite _, Infinity t => negb t
  | Finite p, Finite q => Qle_bool p q
  end.

(** Truthiness of a number: [0] and [NaN] are falsy. *)
Definition truthy (x : number) : bool :=
  match x with
  | NaN => false
  | Infinity _ => true
  | Finite q => negb (Qnum q =? 0)
  end.

End JSNumber.
Import JSNumber.

(** ** Strings

    A JavaScript string is a sequence of code units; [string] holds one
    character per code unit. *)
Module JSString.

Local Open Scope string_scope.

(** [c.repeat(n)] for a one-character string. *)
Fixpoint repeat (c : ascii) (n : nat) : string :=
  match n with
  | O => EmptyString
  | S n' => String c (repeat c n')
  end.

(** [s.substring(0, n)] *)
Fixpoint take (n : nat) (s : string) : string :=
  match n, s with
  | S n', String c r => String c (take n' r)
  | _, _ => EmptyString
  end.

(** [s.substring(n)] *)
Fixpoint drop (n : nat) (s : string) : string :=
  match n, s with
  | S n', String _ r => drop n' r
  | _, _ => s
  end.

(** [s.includes(c)] for a one-character needle. *)
Fixpoint includes (c : ascii) (s : string) : bool :=
  match s with
  | EmptyString => false
  | String d r => Ascii.eqb c d || includes c r
  end.

(** [s.endsWith(t)] *)
Definition endsWith (t s : string) : bool :=
  (String.length t <=? String.length s)%nat &&
  String.eqb (drop (String.length s - String.length t) s) t.

Definition is_empty (s : string) : bool :=
  match s with EmptyString => true | _ => false end.

(** [s.replace(/0+$/, '')]: the run of zeros that ends the string goes. *)
Fixpoint strip_trailing_zeros (s : string) : string :=
  match s with
  | EmptyString => EmptyString
  | String c r =>
      let r' := strip_trailing_zeros r in
      if Ascii.eqb c "0" && is_empty r' then EmptyString else String c r'
  end.

(** [s.replace(/\.$/, '')]: one final point goes. *)
Fixpoint strip_trailing_point (s : string) : string :=
  match s with
  | EmptyString => EmptyString
  | String c r =>
      if Ascii.eqb c "." && is_empty r then EmptyString
      else String c (strip_trailing_point r)
  end.

(** [s.slice(0, -1)] *)
Definition drop_last (s : string) : string :=
  take (String.length s - 1) s.

Definition is_digit (c : ascii) : bool :=
  let n := nat_of_ascii c in (48 <=? n)%nat && (n <=? 57)%nat.

Fixpoint all_digits (s : string) : bool :=
  match s with
  | EmptyString => true
  | String c r => is_digit c && all_digits r
  end.

(** Value of a digit string read after the value [acc]. *)
Fixpoint digits_value (acc : Z) (s : string) : Z :=
  match s with
  | EmptyString => acc
  | String c r => digits_value (10 * acc + Z.of_nat (nat_of_ascii c - 48)) r
  end.

Definition digit_char (d : Z) : ascii := ascii_of_nat (48 + Z.to_nat d).

(** The decimal digits of [n] put before [acc], last digit first; [fuel]
    bounds the number of digits. *)
Fixpoint digits_before (fuel : nat) (n : Z) (acc : string) : string :=
  match fuel with
  | O => acc
  | S fuel' =>
      let acc' := String (digit_char (n mod 10)) acc in
      if (n <? 10)%Z then acc' else digits_before fuel' (n / 10) acc'
  end.

(** Decimal digits of a natural number, ["0"] for zero. *)
Definition decimal (n : Z) : string :=
  digits_before (S (Z.to_nat (Z.log2 n))) n EmptyString.

(** *** Reading a decimal numeral back

    [before_point] and [after_point] cut a text at its first point;
    [decimal_value] is the rational a text denotes when it is an optional
    minus sign, digits, and optionally a point and more digits. *)
Fixpoint before_point (s : string) : string :=
  match s with
  | EmptyString => EmptyString
  | String c r => if Ascii.eqb c "." then EmptyString else String c (before_point r)
  end.

Fixpoint after_point (s : string) : option string :=
  match s with
  | EmptyString => None
  | String c r => if Ascii.eqb c "." then Some r else after_point r
  end.

Definition digit_string (s : string) : bool := negb (is_empty s) && all_digits s.

Definition unsigned_value (s : string) : option Q :=
  let a := before_point s in
  match after_point s with
  | None => if digit_string a then Some (inject_Z (digits_value 0 a)) else None
  | Some b =>
      if digit_string a && digit_string b
      then Some (Qmake (digits_value 0 (a ++ b))
                       (Z.to_pos (10 ^ Z.of_nat (String.length b))))
      else None
  end.

Definition decimal_value (s : string) : option Q :=
  match s with
  | String c r =>
      if Ascii.eqb c "-" then option_map Qopp (unsigned_value r)
      else unsigned_value s
  | EmptyString => None
  end.

End JSString.

(** ** [Number.prototype.toString] and [Number.prototype.toFixed] *)
Module JSFormat.

Import JSString.
Local Open Scope string_scope.
Local Open Scope Z_scope.

(** Number of decimal digits of a positive integer. *)
Definition digit_count (n : Z) : nat :=
  String.length (decimal n).

(** The shortest digit string [s] of [k] digits and the exponent [e]
    with [s * 10^(e-k)] rounding to [q], tried for [k] from [k] upwards
    ([fuel] tries); [n] is the number of digits of [q].  The candidates
    of [k] digits are the two multiples of [10^(n-k)] around [q]; when
    the upper one is [10^n] it is written [10^(k-1)] with the exponent
    [n + 1].  Of two candidates that round to [q] the nearer is kept. *)
Fixpoint shortest_digits (fuel : nat) (q n k : Z) : Z * Z * Z :=
  let p := 10 ^ (n - k) in
  let lo := q / p in
  let hi := lo + 1 in
  let ok s := match round64 (inject_Z (s * p)) with
              | Finite v => Qeq_bool v (inject_Z q)
              | _ => false
              end in
  let up := if hi <? 10 ^ k then (hi, k, n) else (10 ^ (k - 1), k, n + 1) in
  let pick :=
    match ok lo, ok hi with
    | true, true => Some (if q - lo * p <=? hi * p - q then (lo, k, n) else up)
    | true, false => Some (lo, k, n)
    | false, true => Some up
    | false, false => None
    end in
  match pick, fuel with
  | Some r, _ => r
  | None, O => (q, n, n)
  | None, S fuel' => shortest_digits fuel' q n (k + 1)
  end.

(** [Number::toString] for a finite value of magnitude [10^21] or more:
    exponential notation, [d.ddde+n]. *)
Definition toString_large (q : Q) : string :=
  let a := Qfloor (Qabs q) in
  let n := Z.of_nat (digit_count a) in
  let '(s, k, e) := shortest_digits 20 a n 1 in
  let ds := decimal s in
  let mant := if k =? 1 then ds else take 1 ds ++ "." ++ drop 1 ds in
  (if sign_of q then "-" else "") ++ mant ++ "e+" ++ decimal (e - 1).

(** [x.toFixed(f)], ECMA-262 21.1.3.3: not finite or of magnitude
    [10^21] and more, the result of [toString]; otherwise the integer [n]
    nearest to [|x| * 10^f] (the larger of two) written with [f] fraction
    digits. *)
Definition toFixed (x : number) (f : nat) : string :=
  match x with
  | NaN => "NaN"
  | Infinity s => if s then "-Infinity" else "Infinity"
  | Finite q =>
      if Qle_bool (inject_Z (10 ^ 21)) (Qabs q) then toString_large q
      else
        let s := if sign_of q then "-" else "" in
        let n := Qfloor (Qabs q * inject_Z (10 ^ Z.of_nat f) + (1 # 2)) in
        let m := decimal n in
        let m :=
          match f with
          | O => m
          | _ =>
              let k := String.length m in
              let m := if (k <=? f)%nat then repeat "0" (f + 1 - k) ++ m else m in
              let k := String.length m in
              take (k - f) m ++ "." ++ drop (k - f) m
          end in
        s ++ m
  end.

(** The integer [toFixed(8)] writes for a finite value: the nearest to
    [|q| * 10^8], the larger of two. *)
Definition nearest8 (q : Q) : Z :=
  Qfloor (Qabs q * inject_Z (10 ^ 8) + (1 # 2)).

(** What truncation toward zero at the 8th fraction digit would write. *)
Definition truncated8 (q : Q) : Z :=
  Qfloor (Qabs q * inject_Z (10 ^ 8)).

Definition sign_text (q : Q) : string := if sign_of q then "-" else "".

(** The integer [toFixed(f)] writes for a finite value: the nearest to
    [|q| * 10^f], the larger of two. *)
Definition nearest (f : nat) (q : Q) : Z :=
  Qfloor (Qabs q * inject_Z (10 ^ Z.of_nat f) + (1 # 2)).

End JSFormat.

(** ** The amount codec and the card mask (index.js, "FUNÇÕES UTILITÁRIAS"
    and [PaymentQueue.formatCoinAmount]) *)
Module Codec.

Import JSString JSFormat.
Local Open Scope string_scope.

(** [PaymentQueue.formatCoinAmount]: [amount] is already a number, so
    [Number(amount)] is the identity. *)
Definition formatCoinAmount (amount : number) : string :=
  let num := amount in
  if isNaN num then "0.00000000"
  else
    let formatted := toFixed num 8 in
    if includes "." formatted
    then strip_trailing_point (strip_trailing_zeros formatted)
    else formatted.

(** [formatCoin], the display variant. *)
Definition formatCoin (amount : number) : string :=
  let num := amount in
  if isNaN num then "0"
  else
    let formatted := toFixed num 8 in
    if includes "." formatted
    then strip_trailing_point (strip_trailing_zeros formatted)
    else formatted.

(** [formatDollar] *)
Definition formatDollar (amount : number) : string :=
  let num := amount in
  if isNaN num then "0.00" else toFixed num 2.

(** [truncateCoin]; no command calls it. *)
Definition truncateCoin (amount : number) : string :=
  let num := amount in
  if isNaN num then "0.00000000"
  else
    let truncated :=
      div (floor (mul num (literal 100000000 0))) (literal 100000000 0) in
    let t := strip_trailing_point (strip_trailing_zeros (toFixed truncated 8)) in
    if is_empty t then "0" else t.

(** [truncateDollar] *)
Definition truncateDollar (amount : number) : number :=
  let num := amount in
  if isNaN num then Finite 0
  else div (floor (mul num (literal 100 0))) (literal 100 0).

(** [toApiFormat] *)
Definition toApiFormat (amount : number) : string :=
  let num := amount in
  if isNaN num then "0.00000000"
  else
    let formatted := toFixed num 8 in
    if endsWith ".00000000" formatted
    then take (String.length formatted - 9) formatted
    else
      let formatted := strip_trailing_zeros formatted in
      if endsWith "." formatted then drop_last formatted else formatted.

(** [maskCardId]; [None] stands for [null] and [undefined]. *)
Definition maskCardId (cardId : option string) : string :=
  match cardId with
  | None => "###"
  | Some cardId =>
      if is_empty cardId || (String.length cardId <? 3)%nat then "###"
      else
        let first3 := take 3 cardId in
        first3 ++ repeat "#" (Nat.max 0 (String.length cardId - 3))
  end.

End Codec.

(** ** Exceptions *)
Module Js.

(** [new Error(message)] *)
Inductive error : Type := Error (message : string).

(** How a call ends: it returns a value or it throws. *)
Inductive completion (A : Type) : Type :=
| Normal (a : A)
| Throw (e : error).
Arguments Normal {A} a.
Arguments Throw {A} e.

End Js.
Import Js.

(** ** The settlement client: what [transferCardToId] and
    [transferCardToCard] post, and how they read the answer *)
Module Settlement.

Import JSString.
Local Open Scope string_scope.

(** [item.payload]; a field the caller did not set is [undefined]
    ([None]). *)
Record transfer : Type := {
  fromCard : string;
  toId : option string;
  toCard : option string;
  amount : number
}.

(** The body posted, by endpoint. *)
Inductive request : Type :=
| TransferCard (cardCode : string) (toId : option string) (amount : string)
| CardPay (fromCard : string) (toCard : option string) (amount : string).

(** [response.data] *)
Record response_data : Type := {
  success : bool;
  txId : string;
  date : string;
  error_text : option string
}.

(** How [axios.post] settles: rejected (timeout, network, status outside
    2xx) or resolved with a response, whose [data] may be empty. *)
Inductive http_outcome : Type :=
| HttpRejected (e : error)
| HttpResolved (data : option response_data).

(** The object the transfer methods return. *)
Record result : Type := {
  res_success : bool;
  res_txId : string;
  res_date : string
}.

(** [transferCardToId], up to the [await]: the request posted to
    [/api/transfer/card]. *)
Definition transferCardToId (p : transfer) : request :=
  TransferCard (fromCard p) (toId p) (Codec.formatCoinAmount (amount p)).

(** [transferCardToCard], up to the [await]: the request posted to
    [/api/card/pay]. *)
Definition transferCardToCard (p : transfer) : request :=
  CardPay (fromCard p) (toCard p) (Codec.formatCoinAmount (amount p)).

Definition default_failure : string := "Falha na transferência".

(** [response.data?.error || 'Falha na transferência'] *)
Definition failure_message (d : option response_data) : string :=
  match d with
  | Some d =>
      match error_text d with
      | Some m => if is_empty m then default_failure else m
      | None => default_failure
      end
  | None => default_failure
  end.

(** Both transfer methods after the [await]: success is the flag in the
    body. *)
Definition transferResult (o : http_outcome) : completion result :=
  match o with
  | HttpRejected e => Throw e
  | HttpResolved None => Throw (Error (failure_message None))
  | HttpResolved (Some d) =>
      if success d
      then Normal {| res_success := true; res_txId := txId d; res_date := date d |}
      else Throw (Error (failure_message (Some d)))
  end.

(** The amount text a request carries. *)
Definition amount_text (rq : request) : string :=
  match rq with
  | TransferCard _ _ a | CardPay _ _ a => a
  end.

End Settlement.
Import Settlement.

(** ** The durable [queue] table *)
Module Store.

Import JSString.

Inductive job_status : Type := pending | processing | completed | failed.

(** A row of [queue]: [id INTEGER PRIMARY KEY AUTOINCREMENT], the columns
    written by the INSERT of [add], [status], and whether [processed_at]
    has been stamped. *)
Record queue_row : Type := {
  row_id : Z;
  row_guild_id : string;
  row_user_id : string;
  row_type : string;
  row_payload : transfer;
  row_status : job_status;
  row_processed : bool
}.

(** The table with its AUTOINCREMENT counter. *)
Record queue_table : Type := {
  rows : list queue_row;
  last_id : Z
}.

Definition empty_table : queue_table := {| rows := []; last_id := 0 |}.

(** [INSERT INTO queue (guild_id, user_id, type, payload, status) VALUES
    (?, ?, ?, ?, 'pending')] *)
Definition insert (t : queue_table) (g u ty : string) (p : transfer)
  : queue_table :=
  let i := last_id t + 1 in
  {| rows := rows t ++ [{| row_id := i; row_guild_id := g; row_user_id := u;
                           row_type := ty; row_payload := p;
                           row_status := pending; row_processed := false |}];
     last_id := i |}.

(** The integer a text stands for when it is a well-formed integer
    literal: an optional sign and at least one digit. *)
Definition integer_literal (s : string) : option Z :=
  match s with
  | EmptyString => None
  | String c r =>
      if Ascii.eqb c "-" then
        if negb (is_empty r) && all_digits r then Some (- digits_value 0 r)
        else None
      else if Ascii.eqb c "+" then
        if negb (is_empty r) && all_digits r then Some (digits_value 0 r)
        else None
      else if all_digits s then Some (digits_value 0 s) else None
  end.

(** [WHERE id = ?] with a text parameter.  The column is [INTEGER PRIMARY
    KEY], so SQLite first tries to read the text as a number and compares
    numbers when it can; an integer is unequal to every text that is not
    a numeral.  Integer numerals are read here.  The other texts SQLite
    takes for a number (real notation, blanks around a numeral) are not:
    the keys of the loop are the identifiers of [add], which hold four
    hyphens and are no numeral of any notation (see [uuid_not_integer]). *)
Definition id_matches (rowid : Z) (key : string) : bool :=
  match integer_literal key with
  | Some z => rowid =? z
  | None => false
  end.

(** [UPDATE queue SET status = ? WHERE id = ?], and with [stamp] also
    [processed_at = CURRENT_TIMESTAMP]. *)
Definition update_status (t : queue_table) (key : string) (st : job_status)
    (stamp : bool) : queue_table :=
  {| rows := map (fun r =>
                    if id_matches (row_id r) key
                    then {| row_id := row_id r; row_guild_id := row_guild_id r;
                            row_user_id := row_user_id r; row_type := row_type r;
                            row_payload := row_payload r; row_status := st;
                            row_processed := row_processed r || stamp |}
                    else r) (rows t);
     last_id := last_id t |}.

Definition is_hex (c : ascii) : bool :=
  let n := nat_of_ascii c in
  ((48 <=? n) && (n <=? 57) || (97 <=? n) && (n <=? 102))%nat.

(** The shape of a [crypto.randomUUID()] result: 36 characters, hex
    digits in groups of 8-4-4-4-12 joined by hyphens. *)
Fixpoint uuid_shape (i : nat) (s : string) : bool :=
  match s with
  | EmptyString => (i =? 36)%nat
  | String c r =>
      (if (i =? 8) || (i =? 13) || (i =? 18) || (i =? 23)
       then Ascii.eqb c "-" else is_hex c)%nat
      && uuid_shape (S i) r
  end.

Definition is_uuid (s : string) : bool := uuid_shape 0 s.

End Store.
Import Store.

(** ** [class PaymentQueue]

    The class runs on the single-threaded event loop: a method runs
    without interruption up to its next [await], where it is suspended
    until the awaited operation settles.  A state of the model holds the
    fields of the object, the suspended calls of [add] and of [process],
    the queue table, and whatever the continuations of the callers act
    upon (the [World]).  One step is one uninterrupted run. *)
Module Queue.

Section PaymentQueue.

(** What the continuations of the callers read and write. *)
Context {World : Type}.

(** A continuation ([onSuccess], [onError]): run on its argument, it
    changes the world and settles, fulfilled ([None]) or rejected with
    what it threw.  Its effect is taken at the call; the loop learns how
    it settled when it is resumed, and calls of [add] may come in
    between. *)
Definition continuation (A : Type) : Type :=
  A -> World -> World * option error.

(** The object handed to [add]. *)
Record job : Type := {
  guildId : string;
  userId : string;
  type : string;
  payload : transfer;
  onSuccess : option (continuation result);
  onError : option (continuation error)
}.

(** The same object once [add] has set [id], [createdAt] and [status]. *)
Record item : Type := {
  it_job : job;
  id : string;
  createdAt : Z;
  status : job_status
}.

Definition unknown_type (ty : string) : error :=
  Error ("Tipo de operação desconhecido: " ++ ty).

(** [processItem], up to the [await] inside the transfer method: the
    request it posts, or the error of the [default] case. *)
Definition processItem (it : item) : completion request :=
  let j := it_job it in
  if String.eqb (type j) "card_to_id" then Normal (transferCardToId (payload j))
  else if String.eqb (type j) "card_to_card" then Normal (transferCardToCard (payload j))
  else Throw (unknown_type (type j)).

Inductive which : Type := Success | Failure.

(** What has happened so far, newest first. *)
Inductive event : Type :=
| EvSubmit (it : item)                       (* add() pushed the item *)
| EvTake (i : string)                        (* the loop shifted the item *)
| EvMark (i : string) (st : job_status)      (* UPDATE ... WHERE id = i acknowledged *)
| EvRequest (i : string) (r : request)       (* axios.post issued for the item *)
| EvInvoke (i : string) (w : which)          (* a continuation of the item called *)
| EvSettled (i : string) (w : which) (threw : bool)  (* that call settled *)
| EvLog (i : string) (e : error).            (* console.error of the catch block *)

(** Where a call of [process] is suspended. *)
Inductive pc : Type :=
| AwaitProcessing (it : item)                (* db.run, 'processing' *)
| AwaitSettlement (it : item)                (* axios.post inside processItem *)
| AwaitCompleted (it : item) (r : result)    (* db.run, 'completed' *)
| AwaitOnSuccess (it : item) (c : option error)   (* item.onSuccess(result) *)
| AwaitFailed (it : item) (e : error)        (* db.run, 'failed' *)
| AwaitOnError (it : item) (c : option error)     (* item.onError(error) *)
| AwaitDelay                                 (* setTimeout(resolve, delayMs) *)
| Rejected (it : item) (e : error).          (* the call threw out of the loop *)

Record state : Type := {
  isProcessing : bool;
  queue : list item;
  drains : list pc;          (* calls of process(), suspended or rejected *)
  adds : list item;          (* calls of add() suspended at their INSERT *)
  table : queue_table;
  world : World;
  trace : list event
}.

(** [new PaymentQueue()] over a database and a world. *)
Definition init (t : queue_table) (w : World) : state :=
  {| isProcessing := false; queue := []; drains := []; adds := [];
     table := t; world := w; trace := [] |}.

(** What the environment does next. *)
Inductive action : Type :=
| Add (j : job) (uuid : string) (now : Z)   (* a caller runs add(j) *)
| InsertSettled (n : nat) (r : option error) (* the INSERT of the n-th add() *)
| DbSettled (n : nat) (r : option error)    (* the db.run of the n-th process() *)
| HttpSettled (n : nat) (o : http_outcome)  (* its axios.post *)
| ContinuationSettled (n : nat)             (* the continuation it awaits *)
| TimerFired (n : nat).                     (* its delay *)

(** A list without its [n]-th element, and with it replaced. *)
Fixpoint remove_nth {A} (n : nat) (l : list A) : list A :=
  match n, l with
  | _, [] => []
  | O, _ :: r => r
  | S n', x :: r => x :: remove_nth n' r
  end.

Fixpoint replace_nth {A} (n : nat) (y : A) (l : list A) : list A :=
  match n, l with
  | _, [] => []
  | O, _ :: r => y :: r
  | S n', x :: r => x :: replace_nth n' y r
  end.

(** The items pushed by [add] so far, newest first. *)
Fixpoint submitted (tr : list event) : list item :=
  match tr with
  | [] => []
  | EvSubmit it :: r => it :: submitted r
  | _ :: r => submitted r
  end.

Definition submitted_ids (tr : list event) : list string :=
  map id (submitted tr).

Definition set_trace (s : state) (tr : list event) : state :=
  {| isProcessing := isProcessing s; queue := queue s; drains := drains s;
     adds := adds s; table := table s; world := world s; trace := tr |}.

Definition set_drains (s : state) (d : list pc) : state :=
  {| isProcessing := isProcessing s; queue := queue s; drains := d;
     adds := adds s; table := table s; world := world s; trace := trace s |}.

Definition set_table (s : state) (t : queue_table) : state :=
  {| isProcessing := isProcessing s; queue := queue s; drains := drains s;
     adds := adds s; table := t; world := world s; trace := trace s |}.

Definition set_world (s : state) (w : World) : state :=
  {| isProcessing := isProcessing s; queue := queue s; drains := drains s;
     adds := adds s; table := table s; world := w; trace := trace s |}.

Definition log (e : event) (s : state) : state := set_trace s (e :: trace s).

(** The head of the [while] loop: leave with [isProcessing = false] when
    the queue is empty, else shift the head and issue the first UPDATE. *)
Definition loop_head (s : state) : option pc * state :=
  match queue s with
  | [] =>
      (None,
       {| isProcessing := false; queue := []; drains := drains s;
          adds := adds s; table := table s; world := world s;
          trace := trace s |})
  | it :: rest =>
      (Some (AwaitProcessing it),
       {| isProcessing := isProcessing s; queue := rest; drains := drains s;
          adds := adds s; table := table s; world := world s;
          trace := EvTake (id it) :: trace s |})
  end.

(** [process()] from its call to its first [await]. *)
Definition process (s : state) : state :=
  if isProcessing s || match queue s with [] => true | _ => false end then s
  else
    let s1 := {| isProcessing := true; queue := queue s; drains := drains s;
                 adds := adds s; table := table s; world := world s;
                 trace := trace s |} in
    match loop_head s1 with
    | (Some p, s2) => set_drains s2 (drains s2 ++ [p])
    | (None, s2) => s2
    end.

(** Entry of the [catch] block: log, then issue the 'failed' UPDATE. *)
Definition enter_catch (it : item) (e : error) (s : state) : option pc * state :=
  (Some (AwaitFailed it e), log (EvLog (id it) e) s).

(** The body of [add] up to its [await]. *)
Definition add (j : job) (uuid : string) (now : Z) (s : state) : state :=
  let it := {| it_job := j; id := uuid; createdAt := now;
               status := pending |} in
  {| isProcessing := isProcessing s; queue := queue s ++ [it];
     drains := drains s; adds := adds s ++ [it]; table := table s;
     world := world s; trace := EvSubmit it :: trace s |}.

(** The rest of [add] once its INSERT has settled. *)
Definition add_resume (it : item) (r : option error) (s : state) : state :=
  match r with
  | Some _ => s
  | None =>
      let j := it_job it in
      let s1 := set_table s
                  (insert (table s) (guildId j) (userId j) (type j) (payload j)) in
      if isProcessing s1 then s1 else process s1
  end.

(** A suspended [process()] resumed by a settled [db.run]. *)
Definition resume_db (r : option error) (p : pc) (s : state)
  : option (option pc * state) :=
  match p with
  | AwaitProcessing it =>
      match r with
      | Some e => Some (enter_catch it e s)
      | None =>
          let s1 := log (EvMark (id it) processing)
                      (set_table s (update_status (table s) (id it) processing false)) in
          match processItem it with
          | Normal rq => Some (Some (AwaitSettlement it), log (EvRequest (id it) rq) s1)
          | Throw e => Some (enter_catch it e s1)
          end
      end
  | AwaitCompleted it res =>
      match r with
      | Some e => Some (enter_catch it e s)
      | None =>
          let s1 := log (EvMark (id it) completed)
                      (set_table s (update_status (table s) (id it) completed true)) in
          match onSuccess (it_job it) with
          | Some f =>
              let '(w, c) := f res (world s1) in
              Some (Some (AwaitOnSuccess it c),
                    log (EvInvoke (id it) Success) (set_world s1 w))
          | None => Some (Some AwaitDelay, s1)
          end
      end
  | AwaitFailed it err =>
      match r with
      | Some e => Some (Some (Rejected it e), s)
      | None =>
          let s1 := log (EvMark (id it) failed)
                      (set_table s (update_status (table s) (id it) failed true)) in
          match onError (it_job it) with
          | Some f =>
              let '(w, c) := f err (world s1) in
              Some (Some (AwaitOnError it c),
                    log (EvInvoke (id it) Failure) (set_world s1 w))
          | None => Some (Some AwaitDelay, s1)
          end
      end
  | _ => None
  end.

(** ... by a settled [axios.post]. *)
Definition resume_http (o : http_outcome) (p : pc) (s : state)
  : option (option pc * state) :=
  match p with
  | AwaitSettlement it =>
      match transferResult o with
      | Normal res => Some (Some (AwaitCompleted it res), s)
      | Throw e => Some (enter_catch it e s)
      end
  | _ => None
  end.

(** ... by a settled continuation. *)
Definition resume_continuation (p : pc) (s : state)
  : option (option pc * state) :=
  match p with
  | AwaitOnSuccess it None =>
      Some (Some AwaitDelay, log (EvSettled (id it) Success false) s)
  | AwaitOnSuccess it (Some e) =>
      Some (enter_catch it e (log (EvSettled (id it) Success true) s))
  | AwaitOnError it None =>
      Some (Some AwaitDelay, log (EvSettled (id it) Failure false) s)
  | AwaitOnError it (Some e) =>
      Some (Some (Rejected it e), log (EvSettled (id it) Failure true) s)
  | _ => None
  end.

(** ... by the timer. *)
Definition resume_timer (p : pc) (s : state) : option (option pc * state) :=
  match p with
  | AwaitDelay => Some (loop_head s)
  | _ => None
  end.

(** Resume the [n]-th call of [process]; a call that returns leaves the
    list. *)
Definition resume (n : nat) (k : pc -> state -> option (option pc * state))
    (s : state) : option state :=
  match nth_error (drains s) n with
  | None => None
  | Some p =>
      match k p s with
      | None => None
      | Some (Some p', s') => Some (set_drains s' (replace_nth n p' (drains s')))
      | Some (None, s') => Some (set_drains s' (remove_nth n (drains s')))
      end
  end.

(** One step.  [crypto.randomUUID()] returns an identifier of the UUID
    shape that it has not returned before. *)
Definition step (s : state) (a : action) : option state :=
  match a with
  | Add j uuid now =>
      if is_uuid uuid && negb (existsb (String.eqb uuid) (submitted_ids (trace s)))
      then Some (add j uuid now s)
      else None
  | InsertSettled n r =>
      match nth_error (adds s) n with
      | None => None
      | Some it =>
          Some (add_resume it r
                  {| isProcessing := isProcessing s; queue := queue s;
                     drains := drains s; adds := remove_nth n (adds s);
                     table := table s; world := world s; trace := trace s |})
      end
  | DbSettled n r => resume n (resume_db r) s
  | HttpSettled n o => resume n (resume_http o) s
  | ContinuationSettled n => resume n resume_continuation s
  | TimerFired n => resume n resume_timer s
  end.

(** A run: the actions in order, [None] when one is not possible. *)
Fixpoint run (s : state) (acts : list action) : option state :=
  match acts with
  | [] => Some s
  | a :: rest =>
      match step s a with
      | Some s' => run s' rest
      | None => None
      end
  end.

(** The states of the executions from a fresh object. *)
Inductive reachable (t : queue_table) (w : World) : state -> Prop :=
| reach_init : reachable t w (init t w)
| reach_step s a s' :
    reachable t w s -> step s a = Some s' -> reachable t w s'.

(** The status the processor has recorded for an identifier: the newest
    acknowledged UPDATE, [pending] from submission until then. *)
Fixpoint status_of (tr : list event) (i : string) : option job_status :=
  match tr with
  | [] => None
  | EvSubmit it :: r =>
      if String.eqb (id it) i then Some pending else status_of r i
  | EvMark k st :: r => if String.eqb k i then Some st else status_of r i
  | _ :: r => status_of r i
  end.

(** Every status recorded for an identifier, oldest first. *)
Fixpoint marks (tr : list event) (i : string) : list job_status :=
  match tr with
  | [] => []
  | EvSubmit it :: r =>
      if String.eqb (id it) i then marks r i ++ [pending] else marks r i
  | EvMark k st :: r => if String.eqb k i then marks r i ++ [st] else marks r i
  | _ :: r => marks r i
  end.

(** Identifiers for which a settlement request went out, newest first. *)
Fixpoint requested (tr : list event) : list string :=
  match tr with
  | [] => []
  | EvRequest i _ :: r => i :: requested r
  | _ :: r => requested r
  end.

(** Identifiers shifted out of the queue by the loop, newest first. *)
Fixpoint taken (tr : list event) : list string :=
  match tr with
  | [] => []
  | EvTake i :: r => i :: taken r
  | _ :: r => taken r
  end.

(** The item the loop shifted last. *)
Definition owner (tr : list event) : option string := hd_error (taken tr).

(** A continuation of [i] has been called and has not settled. *)
Fixpoint awaiting (tr : list event) (i : string) : bool :=
  match tr with
  | [] => false
  | EvInvoke k _ :: r => if String.eqb k i then true else awaiting r i
  | EvSettled k _ _ :: r => if String.eqb k i then false else awaiting r i
  | _ :: r => awaiting r i
  end.

Definition terminal (st : option job_status) : bool :=
  match st with
  | Some completed | Some failed => true
  | _ => false
  end.

(** The loop is between two items: the item shifted last, if any, has a
    final status and no continuation of it is running. *)
Definition quiet (tr : list event) : Prop :=
  match owner tr with
  | None => True
  | Some i => terminal (status_of tr i) = true /\ awaiting tr i = false
  end.

(** The item an event of the loop body is about. *)
Definition body_event (e : event) : option string :=
  match e with
  | EvSubmit _ | EvTake _ => None
  | EvMark i _ | EvRequest i _ | EvInvoke i _ | EvSettled i _ _ | EvLog i _ =>
      Some i
  end.

(** The discipline of a trace: an identifier is submitted once and
    shifted once after its submission, only between two items, every event
    of the loop body is about the item shifted last, and one request at
    most goes out for it. *)
Definition event_ok (e : event) (past : list event) : Prop :=
  match e with
  | EvSubmit it => ~ In (id it) (submitted_ids past)
  | EvTake i =>
      quiet past /\ ~ In i (taken past) /\ In i (submitted_ids past)
  | EvRequest i _ => owner past = Some i /\ ~ In i (requested past)
  | EvMark i _ | EvInvoke i _ | EvSettled i _ _ | EvLog i _ =>
      owner past = Some i
  end.

Fixpoint ordered (tr : list event) : Prop :=
  match tr with
  | [] => True
  | e :: past => event_ok e past /\ ordered past
  end.

(** [l1] is [l2] with some elements left out. *)
Inductive subseq {A : Type} : list A -> list A -> Prop :=
| subseq_nil : subseq [] []
| subseq_skip x l1 l2 : subseq l1 l2 -> subseq l1 (x :: l2)
| subseq_keep x l1 l2 : subseq l1 l2 -> subseq (x :: l1) (x :: l2).

(** The item a suspended call of [process] holds. *)
Definition held (p : pc) : option item :=
  match p with
  | AwaitProcessing it | AwaitSettlement it | AwaitCompleted it _
  | AwaitOnSuccess it _ | AwaitFailed it _ | AwaitOnError it _
  | Rejected it _ => Some it
  | AwaitDelay => None
  end.

(** A job kind the processor knows. *)
Definition known_type (ty : string) : bool :=
  String.eqb ty "card_to_id" || String.eqb ty "card_to_card".

(** *** The steps as relations, and the invariant of the executions *)

(** One call of [process] at most, and [isProcessing] tells whether there is one. *)
Definition single_drain (s : state) : Prop :=
  (drains s = [] /\ isProcessing s = false) \/
  (exists p, drains s = [p] /\ isProcessing s = true).

(** What a resumed call of [process] may turn into, with what it logs. *)
Inductive resumed (s : state) : pc -> option pc -> state -> Prop :=
| res_processing_err it e :
    resumed s (AwaitProcessing it) (Some (AwaitFailed it e)) (log (EvLog (id it) e) s)
| res_processing_req it rq :
    processItem it = Normal rq ->
    resumed s (AwaitProcessing it) (Some (AwaitSettlement it))
      (log (EvRequest (id it) rq)
         (log (EvMark (id it) processing)
            (set_table s (update_status (table s) (id it) processing false))))
| res_processing_unknown it e :
    processItem it = Throw e ->
    resumed s (AwaitProcessing it) (Some (AwaitFailed it e))
      (log (EvLog (id it) e)
         (log (EvMark (id it) processing)
            (set_table s (update_status (table s) (id it) processing false))))
| res_settlement_ok it o r :
    transferResult o = Normal r ->
    resumed s (AwaitSettlement it) (Some (AwaitCompleted it r)) s
| res_settlement_err it o e :
    transferResult o = Throw e ->
    resumed s (AwaitSettlement it) (Some (AwaitFailed it e)) (log (EvLog (id it) e) s)
| res_completed_err it r e :
    resumed s (AwaitCompleted it r) (Some (AwaitFailed it e)) (log (EvLog (id it) e) s)
| res_completed_call it r f w c :
    onSuccess (it_job it) = Some f ->
    f r (world s) = (w, c) ->
    resumed s (AwaitCompleted it r) (Some (AwaitOnSuccess it c))
      (log (EvInvoke (id it) Success)
         (set_world
            (log (EvMark (id it) completed)
               (set_table s (update_status (table s) (id it) completed true))) w))
| res_completed_plain it r :
    onSuccess (it_job it) = None ->
    resumed s (AwaitCompleted it r) (Some AwaitDelay)
      (log (EvMark (id it) completed)
         (set_table s (update_status (table s) (id it) completed true)))
| res_success_ok it :
    resumed s (AwaitOnSuccess it None) (Some AwaitDelay)
      (log (EvSettled (id it) Success false) s)
| res_success_throw it e :
    resumed s (AwaitOnSuccess it (Some e)) (Some (AwaitFailed it e))
      (log (EvLog (id it) e) (log (EvSettled (id it) Success true) s))
| res_failed_err it e e' :
    resumed s (AwaitFailed it e) (Some (Rejected it e')) s
| res_failed_call it e f w c :
    onError (it_job it) = Some f ->
    f e (world s) = (w, c) ->
    resumed s (AwaitFailed it e) (Some (AwaitOnError it c))
      (log (EvInvoke (id it) Failure)
         (set_world
            (log (EvMark (id it) failed)
               (set_table s (update_status (table s) (id it) failed true))) w))
| res_failed_plain it e :
    onError (it_job it) = None ->
    resumed s (AwaitFailed it e) (Some AwaitDelay)
      (log (EvMark (id it) failed)
         (set_table s (update_status (table s) (id it) failed true)))
| res_error_ok it :
    resumed s (AwaitOnError it None) (Some AwaitDelay)
      (log (EvSettled (id it) Failure false) s)
| res_error_throw it e :
    resumed s (AwaitOnError it (Some e)) (Some (Rejected it e))
      (log (EvSettled (id it) Failure true) s)
| res_delay_next :
    resumed s AwaitDelay (fst (loop_head s)) (snd (loop_head s)).

(** One step, seen as a relation. *)
Inductive moves (s : state) : state -> Prop :=
| mv_add j uuid now :
    is_uuid uuid = true ->
    ~ In uuid (submitted_ids (trace s)) ->
    moves s (add j uuid now s)
| mv_insert n it r :
    nth_error (adds s) n = Some it ->
    moves s (add_resume it r
               {| isProcessing := isProcessing s; queue := queue s;
                  drains := drains s; adds := remove_nth n (adds s);
                  table := table s; world := world s; trace := trace s |})
| mv_resume n p o s1 :
    nth_error (drains s) n = Some p ->
    resumed s p o s1 ->
    moves s (set_drains s1
               (match o with
                | Some p' => replace_nth n p' (drains s1)
                | None => remove_nth n (drains s1)
                end)).

Definition at_item (tr : list event) (it : item) : Prop :=
  owner tr = Some (id it) /\ In it (submitted tr).

(** What the trace says when a call of [process] is suspended at [p]. *)
Definition pc_ok (tr : list event) (p : pc) : Prop :=
  match p with
  | AwaitDelay => quiet tr
  | AwaitProcessing it =>
      at_item tr it /\ awaiting tr (id it) = false /\ ~ In (id it) (requested tr)
  | AwaitSettlement it | AwaitCompleted it _ =>
      at_item tr it /\ awaiting tr (id it) = false /\ In (id it) (requested tr)
  | AwaitOnSuccess it _ => at_item tr it /\ status_of tr (id it) = Some completed
  | AwaitFailed it _ => at_item tr it /\ awaiting tr (id it) = false
  | AwaitOnError it _ => at_item tr it /\ status_of tr (id it) = Some failed
  | Rejected it _ => at_item tr it
  end.

Record core (q : list item) (ds : list pc) (tr : list event) : Prop := {
  core_ordered : ordered tr;
  core_fifo : submitted_ids tr = rev (map id q) ++ taken tr;
  core_queue : forall it, In it q -> In it (submitted tr);
  core_held : forall p, In p ds -> pc_ok tr p;
  core_idle : ds = [] -> quiet tr
}.

Definition Inv (s : state) : Prop :=
  single_drain s /\ core (queue s) (drains s) (trace s).

(** The request [rq] for [i] is what [processItem] makes of a submitted
    item. *)
Definition request_ok (tr : list event) (i : string) (rq : request) : Prop :=
  exists it, In it (submitted tr) /\ id it = i /\ processItem it = Normal rq.

(** An item recorded as [processing] had its request sent, or
    [processItem] threw and the error went to the [catch] block. *)
Definition marked_ok (tr : list event) (i : string) : Prop :=
  In i (requested tr) \/
  exists it e, In it (submitted tr) /\ id it = i /\
               processItem it = Throw e /\ In (EvLog i e) tr.

Record content (t0 : queue_table) (s : state) : Prop := {
  c_uuid : forall it, In it (submitted (trace s)) -> is_uuid (id it) = true;
  c_req : forall i rq, In (EvRequest i rq) (trace s) -> request_ok (trace s) i rq;
  c_completed : forall i, In (EvMark i completed) (trace s) ->
                In i (requested (trace s));
  c_marked : forall i, In (EvMark i processing) (trace s) -> marked_ok (trace s) i;
  c_table : exists extra,
      rows (table s) = rows t0 ++ extra /\
      Forall (fun r => row_status r = pending /\ row_processed r = false) extra
}.

(** The store rejects the statement the loop awaits. *)
Definition store_fails (a : action) : bool :=
  match a with
  | DbSettled _ (Some _) => true
  | _ => false
  end.

(** Every item shifted so far is recorded as [processing], but for the
    one whose first UPDATE is still awaited. *)
Definition all_marked (s : state) : Prop :=
  forall i, In i (taken (trace s)) ->
    In (EvMark i processing) (trace s) \/
    exists it, drains s = [AwaitProcessing it] /\ id it = i.

(** *** Measures and histories used by the properties of the loop *)

Definition which_eqb (a b : which) : bool :=
  match a, b with
  | Success, Success | Failure, Failure => true
  | _, _ => false
  end.

(** How often the continuation [w] of [i] has been called. *)
Fixpoint invocations (tr : list event) (i : string) (w : which) : nat :=
  match tr with
  | [] => O
  | EvInvoke k v :: r =>
      ((if String.eqb k i && which_eqb v w then 1 else 0) + invocations r i w)%nat
  | _ :: r => invocations r i w
  end.

(** The status histories of one job. *)
Definition histories : list (list job_status) :=
  [ []; [pending]; [pending; processing]; [pending; processing; completed];
    [pending; processing; completed; failed]; [pending; processing; failed];
    [pending; failed] ].

(** What is recorded for the item a suspended call of [process] holds. *)
Definition pc_history (tr : list event) (p : pc) : Prop :=
  match p with
  | AwaitProcessing it =>
      marks tr (id it) = [pending] /\
      invocations tr (id it) Success = O /\ invocations tr (id it) Failure = O
  | AwaitSettlement it | AwaitCompleted it _ =>
      marks tr (id it) = [pending; processing] /\
      invocations tr (id it) Success = O /\ invocations tr (id it) Failure = O
  | AwaitOnSuccess it _ =>
      marks tr (id it) = [pending; processing; completed] /\
      invocations tr (id it) Failure = O
  | AwaitFailed it _ =>
      (marks tr (id it) = [pending] \/ marks tr (id it) = [pending; processing] \/
       marks tr (id it) = [pending; processing; completed]) /\
      invocations tr (id it) Failure = O
  | AwaitOnError _ _ | Rejected _ _ | AwaitDelay => True
  end.

Record history (ds : list pc) (tr : list event) : Prop := {
  h_marks : forall i, In (marks tr i) histories;
  h_once : forall i w, (invocations tr i w <= 1)%nat;
  h_success : forall i, In (EvInvoke i Success) tr -> In (EvMark i completed) tr;
  h_failure : forall i, In (EvInvoke i Failure) tr -> In (EvMark i failed) tr;
  h_held : forall p, In p ds -> pc_history tr p
}.

(** How many resumptions a suspended call of [process] has before it
    is at the head of the loop again, at most. *)
Definition rank (p : pc) : nat :=
  match p with
  | AwaitProcessing _ => 7
  | AwaitSettlement _ => 6
  | AwaitCompleted _ _ => 5
  | AwaitOnSuccess _ _ => 4
  | AwaitFailed _ _ => 3
  | AwaitOnError _ _ => 2
  | AwaitDelay => 1
  | Rejected _ _ => 0
  end.

(** A bound on the steps a state has left when nothing more is
    submitted. *)
Definition steps_left (s : state) : nat :=
  List.length (adds s) + 8 * List.length (queue s) + list_sum (map rank (drains s)).

Definition submits (a : action) : bool :=
  match a with
  | Add _ _ _ => true
  | _ => false
  end.

(** The [catch] block is left by an exception in two ways only: the
    UPDATE to [failed] is rejected, or [onError] throws.  A call of
    [process] that is [safe] is past neither. *)
Definition safe (p : pc) : Prop :=
  match p with
  | Rejected _ _ | AwaitOnError _ _ => False
  | _ => True
  end.



(** The store rejects the INSERT a call of [add] awaits. *)
Definition insert_fails (a : action) : bool :=
  match a with
  | InsertSettled _ (Some _) => true
  | _ => false
  end.

(** While no call of [process] runs, what the queue holds was pushed by
    calls of [add] that are still suspended at their INSERT. *)
Definition waiting (s : state) : Prop :=
  isProcessing s = false -> forall it, In it (queue s) -> In it (adds s).

(** Every job submitted has been shifted by the loop and has its final
    status. *)
Definition all_processed (s : state) : Prop :=
  forall it, In it (submitted (trace s)) ->
    In (id it) (taken (trace s)) /\
    terminal (status_of (trace s) (id it)) = true.

End PaymentQueue.

Arguments job : clear implicits.
Arguments item : clear implicits.
Arguments pc : clear implicits.
Arguments state : clear implicits.
Arguments action : clear implicits.
Arguments event : clear implicits.
Arguments continuation : clear implicits.

End Queue.

(** ** The [users] table and the [money withdraw] sub-command *)
Module Ledger.

Import JSString Codec Queue.
Local Open Scope string_scope.

(** A row of [users]: the key, the linked card and the balance. *)
Record user_row : Type := {
  user_id : string;
  guild_id : string;
  card_id : option string;
  dollars : number
}.

Definition users : Type := list user_row.

Definition is_key (u g : string) (r : user_row) : bool :=
  String.eqb (user_id r) u && String.eqb (guild_id r) g.

(** [SELECT card_id, dollars FROM users WHERE user_id = ? AND guild_id = ?] *)
Definition get (db : users) (u g : string) : option user_row :=
  find (is_key u g) db.

(** [UPDATE users SET dollars = ? WHERE user_id = ? AND guild_id = ?] *)
Definition update_dollars (db : users) (u g : string) (d : number) : users :=
  map (fun r =>
         if is_key u g r
         then {| user_id := user_id r; guild_id := guild_id r;
                 card_id := card_id r; dollars := d |}
         else r) db.

(** The balance a holder sees; no row counts as zero. *)
Definition balance (db : users) (u g : string) : number :=
  match get db u g with
  | Some r => dollars r
  | None => Finite 0
  end.

(** [x || 0] *)
Definition or_zero (x : number) : number :=
  if truthy x then x else Finite 0.

(** The answer of [checkCardStatus] as far as the command reads it. *)
Record card_status : Type := {
  status_success : bool;
  coins : number
}.

(** The object the command hands to [paymentQueue.add]: the user pays the
    server card, and [onSuccess] credits the balance read before the job
    was queued.  The replies sent to the chat platform are taken to
    succeed.  There is no [onError]. *)
Definition withdraw_job (guildId userId : string) (userData : user_row)
    (card server_card_id : string) (dollarAmount : number) : job users :=
  let coinAmount := mul dollarAmount (literal 1 8) in
  {| guildId := guildId;
     userId := userId;
     type := "card_to_card";
     payload := {| fromCard := card; toId := None;
                      toCard := Some server_card_id; amount := coinAmount |};
     onSuccess := Some (fun (_ : result) (db : users) =>
       let newDollars :=
         truncateDollar (JSNumber.add (or_zero (dollars userData)) dollarAmount) in
       (update_dollars db userId guildId newDollars, None));
     onError := None |}.

(** The sub-command up to [paymentQueue.add]: [None] when it replies
    with a refusal instead of queueing. *)
Definition withdraw (db : users) (server_card_id : option string)
    (userCardStatus : card_status) (guildId userId : string)
    (dollarAmount : number) : option (job users) :=
  if isNaN dollarAmount || le dollarAmount (Finite 0) then None
  else
    match get db userId guildId with
    | None => None
    | Some userData =>
        match card_id userData with
        | None => None
        | Some card =>
            if is_empty card then None
            else
              match server_card_id with
              | None => None
              | Some sc =>
                  if is_empty sc then None
                  else
                    let coinAmount := mul dollarAmount (literal 1 8) in
                    if negb (status_success userCardStatus)
                       || lt (coins userCardStatus) coinAmount
                    then None
                    else Some (withdraw_job guildId userId userData card sc
                                 dollarAmount)
              end
        end
    end.

End Ledger.

(** ** The commands that write the ledger and the settings of a guild
    (index.js, [interactionCreate]), from the parsed options on.  The
    replies to the chat platform and the statements of the database are
    taken to succeed. *)
Module Commands.

Import JSString Codec Queue Ledger.
Local Open Scope string_scope.

(** A row of [guild_config]; a column never written is [NULL]. *)
Record config_row : Type := {
  config_guild_id : string;
  server_card_id : option string;
  log_channel_id : option string;
  staff_role_id : option string
}.

Definition guild_config : Type := list config_row.

Definition is_guild (g : string) (r : config_row) : bool :=
  String.eqb (config_guild_id r) g.

(** [SELECT ... FROM guild_config WHERE guild_id = ?] *)
Definition get_config (c : guild_config) (g : string) : option config_row :=
  find (is_guild g) c.

(** [INSERT INTO guild_config (guild_id, column) VALUES (?, ?) ON
    CONFLICT(guild_id) DO UPDATE SET column = ?]: the row of the guild
    is changed when there is one, else a row is added. *)
Definition upsert_config (c : guild_config) (g : string) (fresh : config_row)
    (change : config_row -> config_row) : guild_config :=
  if existsb (is_guild g) c
  then map (fun r => if is_guild g r then change r else r) c
  else (c ++ [fresh])%list.

(** A text read as a condition, as in [config?.server_card_id]: [null],
    [undefined] and the empty text are falsy. *)
Definition present (o : option string) : option string :=
  match o with
  | Some s => if is_empty s then None else Some s
  | None => None
  end.

(** [config?.server_card_id] as a condition and a value. *)
Definition configured_card (c : guild_config) (guildId : string) : option string :=
  match get_config c guildId with
  | Some config => present (server_card_id config)
  | None => None
  end.

(** What the handlers read of [interaction.member]. *)
Record member : Type := {
  administrator : bool;      (* permissions.has(Administrator) *)
  roles : list string        (* roles.cache *)
}.

(** [isStaff] *)
Definition isStaff (c : guild_config) (guildId : string) (m : member) : bool :=
  match get_config c guildId with
  | None => false
  | Some config =>
      match present (staff_role_id config) with
      | None => false
      | Some role => existsb (String.eqb role) (roles m)
      end
  end.

(** The replies that end a command without a change. *)
Inductive refusal : Type :=
| InvalidAmount            (* 'Valor inválido.' *)
| NotAdministrator         (* 'Apenas administradores podem usar este comando.' *)
| NotStaff                 (* 'Você não tem permissão de staff.' *)
| CardNotSet               (* 'Cartão não configurado' *)
| TargetCardNotSet         (* 'Usuário não configurado' *)
| ServerNotConfigured      (* 'Servidor não configurado' *)
| InsufficientDollars      (* 'Saldo Insuficiente em Reais', 'Saldo Insuficiente' *)
| InsufficientCoins        (* 'Saldo Insuficiente' *)
| ServerWithoutFunds.      (* 'Servidor sem Saldo', 'Saldo Insuficiente no Servidor' *)

Inductive outcome (A : Type) : Type :=
| Refused (r : refusal)
| Accepted (a : A).
Arguments Refused {A} r.
Arguments Accepted {A} a.

(** [/server card]: the card is stored as given, nothing is asked of
    the API. *)
Definition server_card (c : guild_config) (guildId : string) (m : member)
    (cardId : string) : outcome guild_config :=
  if negb (administrator m) then Refused NotAdministrator
  else Accepted (upsert_config c guildId
         {| config_guild_id := guildId; server_card_id := Some cardId;
            log_channel_id := None; staff_role_id := None |}
         (fun r => {| config_guild_id := config_guild_id r;
                      server_card_id := Some cardId;
                      log_channel_id := log_channel_id r;
                      staff_role_id := staff_role_id r |})).

(** [/server log] *)
Definition server_log (c : guild_config) (guildId : string) (m : member)
    (channel : string) : outcome guild_config :=
  if negb (administrator m) then Refused NotAdministrator
  else Accepted (upsert_config c guildId
         {| config_guild_id := guildId; server_card_id := None;
            log_channel_id := Some channel; staff_role_id := None |}
         (fun r => {| config_guild_id := config_guild_id r;
                      server_card_id := server_card_id r;
                      log_channel_id := Some channel;
                      staff_role_id := staff_role_id r |})).

(** [/adm setstaff] *)
Definition adm_setstaff (c : guild_config) (guildId : string) (m : member)
    (role : string) : outcome guild_config :=
  if negb (administrator m) then Refused NotAdministrator
  else Accepted (upsert_config c guildId
         {| config_guild_id := guildId; server_card_id := None;
            log_channel_id := None; staff_role_id := Some role |}
         (fun r => {| config_guild_id := config_guild_id r;
                      server_card_id := server_card_id r;
                      log_channel_id := log_channel_id r;
                      staff_role_id := Some role |})).

(** [INSERT INTO users ... ON CONFLICT(user_id, guild_id) DO UPDATE SET
    ...] *)
Definition upsert (db : users) (u g : string) (fresh : user_row)
    (change : user_row -> user_row) : users :=
  if existsb (is_key u g) db
  then map (fun r => if is_key u g r then change r else r) db
  else (db ++ [fresh])%list.

Definition with_dollars (r : user_row) (d : number) : user_row :=
  {| user_id := user_id r; guild_id := guild_id r; card_id := card_id r;
     dollars := d |}.

Definition with_card (r : user_row) (c : option string) : user_row :=
  {| user_id := user_id r; guild_id := guild_id r; card_id := c;
     dollars := dollars r |}.

(** A row inserted without a card: [INSERT INTO users (user_id,
    guild_id, dollars) VALUES (?, ?, ?)]. *)
Definition new_row (u g : string) (d : number) : user_row :=
  {| user_id := u; guild_id := g; card_id := None; dollars := d |}.

(** [userData?.card_id] as a condition and a value. *)
Definition linked_card (db : users) (userId guildId : string) : option string :=
  match get db userId guildId with
  | Some userData => present (card_id userData)
  | None => None
  end.

(** [/setcard]: the card is stored as given, nothing is asked of the
    API. *)
Definition setcard (db : users) (guildId userId cardId : string) : users :=
  upsert db userId guildId
    {| user_id := userId; guild_id := guildId; card_id := Some cardId;
       dollars := Finite 0 |}
    (fun r => with_card r (Some cardId)).

(** [isNaN(amount) || amount <= 0] *)
Definition invalid (amount : number) : bool :=
  isNaN amount || le amount (Finite 0).

(** [/adm give] *)
Definition adm_give (c : guild_config) (db : users) (guildId : string)
    (m : member) (target : string) (amount : number) : outcome users :=
  if negb (isStaff c guildId m) then Refused NotStaff
  else if invalid amount then Refused InvalidAmount
  else
    let dollarAmount := truncateDollar amount in
    Accepted (upsert db target guildId (new_row target guildId dollarAmount)
                (fun r => with_dollars r (JSNumber.add (dollars r) dollarAmount))).

(** [/adm take] *)
Definition adm_take (c : guild_config) (db : users) (guildId : string)
    (m : member) (target : string) (amount : number) : outcome users :=
  if negb (isStaff c guildId m) then Refused NotStaff
  else if invalid amount then Refused InvalidAmount
  else
    let dollarAmount := truncateDollar amount in
    let currentDollars := or_zero (balance db target guildId) in
    if lt currentDollars dollarAmount then Refused InsufficientDollars
    else
      let newDollars := truncateDollar (sub currentDollars dollarAmount) in
      Accepted (update_dollars db target guildId newDollars).

(** [/adm set]: zero is a valid amount here. *)
Definition adm_set (c : guild_config) (db : users) (guildId : string)
    (m : member) (target : string) (amount : number) : outcome users :=
  if negb (isStaff c guildId m) then Refused NotStaff
  else if isNaN amount || lt amount (Finite 0) then Refused InvalidAmount
  else
    let dollarAmount := truncateDollar amount in
    Accepted (upsert db target guildId (new_row target guildId dollarAmount)
                (fun r => with_dollars r dollarAmount)).

(** [/money pay]: a transfer inside the ledger. *)
Definition money_pay (db : users) (guildId userId target : string)
    (amount : number) : outcome users :=
  if invalid amount then Refused InvalidAmount
  else
    let dollarAmountTruncated := truncateDollar amount in
    let currentDollars := or_zero (balance db userId guildId) in
    if lt currentDollars dollarAmountTruncated then Refused InsufficientDollars
    else
      let db1 := match get db target guildId with
                 | None => (db ++ [new_row target guildId (Finite 0)])%list
                 | Some _ => db
                 end in
      let newPayerDollars :=
        truncateDollar (sub currentDollars dollarAmountTruncated) in
      let db2 := update_dollars db1 userId guildId newPayerDollars in
      Accepted (upsert db2 target guildId
                  (new_row target guildId dollarAmountTruncated)
                  (fun r => with_dollars r
                              (JSNumber.add (dollars r) dollarAmountTruncated))).

(** The job of [/money deposit]: the server card pays the user, and
    [onSuccess] debits the balance read before the job was queued. *)
Definition deposit_job (guildId userId : string) (currentDollars : number)
    (server_card : string) (dollarAmount : number) : job users :=
  let coinAmount := mul dollarAmount (literal 1 8) in
  {| guildId := guildId;
     userId := userId;
     type := "card_to_id";
     payload := {| fromCard := server_card; toId := Some userId;
                   toCard := None; amount := coinAmount |};
     onSuccess := Some (fun (_ : result) (db : users) =>
       let newDollars := truncateDollar (sub currentDollars dollarAmount) in
       (update_dollars db userId guildId newDollars, None));
     onError := None |}.

(** [/money deposit] up to [paymentQueue.add]. *)
Definition money_deposit (c : guild_config) (db : users)
    (serverCardStatus : card_status) (guildId userId : string)
    (dollarAmount : number) : outcome (job users) :=
  if invalid dollarAmount then Refused InvalidAmount
  else
    match get db userId guildId with
    | None => Refused CardNotSet
    | Some userData =>
        match present (card_id userData) with
        | None => Refused CardNotSet
        | Some _ =>
            let currentDollars := or_zero (dollars userData) in
            if lt currentDollars dollarAmount then Refused InsufficientDollars
            else
              match configured_card c guildId with
              | None => Refused ServerNotConfigured
              | Some server_card =>
                  let coinAmount := mul dollarAmount (literal 1 8) in
                  if lt (coins serverCardStatus) coinAmount
                  then Refused ServerWithoutFunds
                  else Accepted (deposit_job guildId userId currentDollars
                                   server_card dollarAmount)
              end
        end
    end.

(** An [onSuccess] that edits the reply and sends the log. *)
Definition replies : continuation users result := fun _ db => (db, None).

(** [/payserver] up to [paymentQueue.add]. *)
Definition payserver (c : guild_config) (db : users) (userCardStatus : card_status)
    (guildId userId : string) (amount : number) : outcome (job users) :=
  if invalid amount then Refused InvalidAmount
  else
    let coinAmount := amount in
    match configured_card c guildId with
    | None => Refused ServerNotConfigured
    | Some _ =>
        match linked_card db userId guildId with
        | None => Refused CardNotSet
        | Some card =>
            if negb (status_success userCardStatus)
               || lt (coins userCardStatus) coinAmount
            then Refused InsufficientCoins
            else Accepted
                   {| guildId := guildId; userId := userId; type := "card_to_id";
                      payload := {| fromCard := card; toId := Some userId;
                                    toCard := None; amount := coinAmount |};
                      onSuccess := Some replies; onError := None |}
        end
    end.

(** [/server pay] up to [paymentQueue.add]; [userId] is who runs the
    command. *)
Definition server_pay (c : guild_config) (db : users)
    (serverCardStatus : card_status) (guildId : string) (m : member)
    (userId target : string) (amount : number) : outcome (job users) :=
  if negb (administrator m) then Refused NotAdministrator
  else if invalid amount then Refused InvalidAmount
  else
    let coinAmount := amount in
    match configured_card c guildId with
    | None => Refused ServerNotConfigured
    | Some server_card =>
        if lt (coins serverCardStatus) coinAmount then Refused ServerWithoutFunds
        else
          match linked_card db target guildId with
          | None => Refused TargetCardNotSet
          | Some _ =>
              Accepted
                {| guildId := guildId; userId := userId; type := "card_to_id";
                   payload := {| fromCard := server_card; toId := Some target;
                                 toCard := None; amount := coinAmount |};
                   onSuccess := Some replies; onError := None |}
          end
    end.

(** [/server fine] up to [paymentQueue.add]; [userId] is who runs the
    command. *)
Definition server_fine (c : guild_config) (db : users)
    (userCardStatus : card_status) (guildId : string) (m : member)
    (userId target : string) (amount : number) : outcome (job users) :=
  if negb (administrator m) then Refused NotAdministrator
  else if invalid amount then Refused InvalidAmount
  else
    let coinAmount := amount in
    match configured_card c guildId with
    | None => Refused ServerNotConfigured
    | Some _ =>
        match linked_card db target guildId with
        | None => Refused TargetCardNotSet
        | Some card =>
            if negb (status_success userCardStatus)
               || lt (coins userCardStatus) coinAmount
            then Refused InsufficientCoins
            else Accepted
                   {| guildId := guildId; userId := userId; type := "card_to_id";
                      payload := {| fromCard := card; toId := Some userId;
                                    toCard := None; amount := coinAmount |};
                      onSuccess := Some replies; onError := None |}
        end
    end.

(** *** Notions used by the properties of the commands *)

(** A balance that is a number and not below zero. *)
Definition nonneg (x : number) : bool := le (Finite 0) x.

Definition ledger_ok (db : users) : bool :=
  forallb (fun r => nonneg (dollars r)) db.

(** A change of a row that keeps its key. *)
Definition keeps_key (change : user_row -> user_row) : Prop :=
  forall r, user_id (change r) = user_id r /\ guild_id (change r) = guild_id r.

(** The three settings of a guild; [NULL] all three without a row. *)
Definition columns (c : guild_config) (g : string)
  : option string * option string * option string :=
  match get_config c g with
  | Some r => (server_card_id r, log_channel_id r, staff_role_id r)
  | None => (None, None, None)
  end.

End Commands.

(** ** Executions used as examples *)
Module Scenario.

Import Queue Ledger.
Local Open Scope string_scope.

Definition id1 : string := "123e4567-e89b-42d3-a456-426614174000".
Definition id2 : string := "9b2e4c1a-5d3f-4a7b-8c6d-0e1f2a3b4c5d".

Definition pay (a : number) : transfer :=
  {| fromCard := "card-A"; toId := Some "42"; toCard := Some "card-B"; amount := a |}.

Definition throwing {A : Type} : continuation unit A :=
  fun _ w => (w, Some (Error "continuation failed")).

Definition make (ty : string) (ok : option (continuation unit result))
    (bad : option (continuation unit error)) : job unit :=
  {| guildId := "guild"; userId := "user"; type := ty;
     payload := pay (literal 1 0); onSuccess := ok; onError := bad |}.

Definition accepted : http_outcome :=
  HttpResolved (Some {| success := true; txId := "tx-1"; date := "2024-01-01";
                        error_text := None |}).

Definition timed_out : http_outcome :=
  HttpRejected (Error "timeout of 30000ms exceeded").

Definition after {W : Type} (w : W) (acts : list (action W)) : state W :=
  match run (init empty_table w) acts with
  | Some s => s
  | None => init empty_table w
  end.

(** One job of a known kind, everything succeeds. *)
Definition plain_run : list (action unit) :=
  [Add (make "card_to_card" None None) id1 0; InsertSettled 0 None;
   DbSettled 0 None; HttpSettled 0 accepted; DbSettled 0 None; TimerFired 0].

(** A job whose [onSuccess] throws. *)
Definition success_throws_run : list (action unit) :=
  [Add (make "card_to_card" (Some throwing) None) id1 0; InsertSettled 0 None;
   DbSettled 0 None; HttpSettled 0 accepted; DbSettled 0 None;
   ContinuationSettled 0; DbSettled 0 None; TimerFired 0].

(** A job whose settlement fails and whose [onError] throws, then a
    second job. *)
Definition error_throws_run : list (action unit) :=
  [Add (make "card_to_card" None (Some throwing)) id1 0; InsertSettled 0 None;
   DbSettled 0 None; HttpSettled 0 timed_out; DbSettled 0 None;
   ContinuationSettled 0;
   Add (make "card_to_id" None None) id2 1; InsertSettled 0 None].

(** A job of an unknown kind, then a job of a known kind, to the end. *)
Definition unknown_then_known_run : list (action unit) :=
  [Add (make "refund" None None) id1 0; Add (make "card_to_id" None None) id2 1;
   InsertSettled 0 None; InsertSettled 0 None;
   DbSettled 0 None; DbSettled 0 None; TimerFired 0;
   DbSettled 0 None; HttpSettled 0 accepted; DbSettled 0 None; TimerFired 0].

Definition unknown_item : item unit :=
  {| it_job := make "refund" None None; id := id1; createdAt := 0;
     status := pending |}.

Definition nan_item : item unit :=
  {| it_job := {| guildId := "guild"; userId := "user"; type := "card_to_id";
                  payload := pay NaN; onSuccess := None; onError := None |};
     id := id1; createdAt := 0; status := pending |}.

(** A holder with a linked card and the balance [d], the withdrawal of
    10.00 up to the request, and how the settlement ends. *)
Definition holder (d : number) : users :=
  [{| user_id := "user"; guild_id := "guild"; card_id := Some "card-U";
      dollars := d |}].

Definition rich : card_status :=
  {| status_success := true; coins := literal 1 0 |}.

Definition withdrawal (d : number) : list (action users) :=
  match withdraw (holder d) (Some "card-S") rich "guild" "user" (literal 1000 2) with
  | Some j => [Add j id1 0; InsertSettled 0 None; DbSettled 0 None]
  | None => []
  end.

Definition settled_ok : list (action users) :=
  [HttpSettled 0 accepted; DbSettled 0 None; ContinuationSettled 0; TimerFired 0].

Definition settled_bad : list (action users) :=
  [HttpSettled 0 timed_out; DbSettled 0 None; TimerFired 0].
Import Commands.

(** A guild with a server card and a staff role, a member who holds the
    role and an administrator who does not. *)
Definition staffed : guild_config :=
  [{| config_guild_id := "guild"; server_card_id := Some "card-S";
      log_channel_id := None; staff_role_id := Some "role-staff" |}].

Definition officer : member :=
  {| administrator := false; roles := ["role-staff"] |}.

Definition admin : member :=
  {| administrator := true; roles := [] |}.

(** A job whose INSERT is rejected by the store. *)
Definition first_item : item unit :=
  {| it_job := make "card_to_card" None None; id := id1; createdAt := 0;
     status := pending |}.

Definition rejected_add_run : list (action unit) :=
  [Add (make "card_to_card" None None) id1 0;
   InsertSettled 0 (Some (Error "SQLITE_BUSY: database is locked"))].

(** What a command has queued or written, when it was accepted. *)
Definition no_job : job users :=
  {| guildId := ""; userId := ""; type := "";
     payload := {| fromCard := ""; toId := None; toCard := None; amount := NaN |};
     onSuccess := None; onError := None |}.

Definition accepted_job (o : outcome (job users)) : job users :=
  match o with
  | Accepted j => j
  | Refused _ => no_job
  end.

Definition accepted_ledger (o : outcome users) : users :=
  match o with
  | Accepted db => db
  | Refused _ => []
  end.

(** Two deposits, of 30.00 and of 20.00, by a holder of 100.00, both
    queued before either settles, and the run to the end. *)
Definition deposit_of (d : number) : job users :=
  accepted_job (money_deposit staffed (holder (literal 100 0)) rich "guild" "user" d).

Definition two_deposits_run : list (action users) :=
  [Add (deposit_of (literal 30 0)) id1 0; Add (deposit_of (literal 20 0)) id2 1;
   InsertSettled 0 None; InsertSettled 0 None;
   DbSettled 0 None; HttpSettled 0 accepted; DbSettled 0 None;
   ContinuationSettled 0; TimerFired 0;
   DbSettled 0 None; HttpSettled 0 accepted; DbSettled 0 None;
   ContinuationSettled 0; TimerFired 0].

(** A fine of 0.1 coin on the holder, by the administrator [admin-id]. *)
Definition fined : item users :=
  {| it_job := accepted_job
                 (server_fine staffed (holder (Finite 0)) rich "guild" admin
                    "admin-id" "user" (literal 1 1));
     id := id1; createdAt := 0; status := pending |}.

(** The holder of 1.00 pays 0.90 to a user without a row. *)
Definition paid : users :=
  accepted_ledger (money_pay (holder (literal 100 2)) "guild" "user" "friend"
                     (literal 90 2)).


End Scenario.

(** * Proofs *)

Import JSString JSFormat Codec Queue Ledger Scenario.

Local Open Scope string_scope.

(** ** The amount codec *)

(** *** Strings and digits *)

Lemma append_assoc (s1 s2 s3 : string) : (s1 ++ s2) ++ s3 = s1 ++ s2 ++ s3.
Proof. induction s1; simpl; congruence. Qed.

Lemma append_empty_r (s : string) : s ++ "" = s.
Proof. induction s; simpl; congruence. Qed.

Lemma length_append (s1 s2 : string) :
  String.length (s1 ++ s2) = (String.length s1 + String.length s2)%nat.
Proof. induction s1; simpl; auto. Qed.

Lemma length_repeat c n : String.length (repeat c n) = n.
Proof. induction n; simpl; auto. Qed.

Lemma length_take n : forall s,
  String.length (take n s) = Nat.min n (String.length s).
Proof. induction n; destruct s; simpl; auto. Qed.

Lemma take_drop n : forall s, take n s ++ drop n s = s.
Proof. induction n; destruct s; simpl; auto. rewrite IHn; auto. Qed.

Lemma length_drop n : forall s,
  String.length (drop n s) = (String.length s - n)%nat.
Proof. induction n; destruct s; simpl; auto. Qed.

Lemma is_empty_length s : is_empty s = (String.length s =? 0)%nat.
Proof. destruct s; reflexivity. Qed.

Lemma all_digits_app s1 s2 :
  all_digits (s1 ++ s2) = all_digits s1 && all_digits s2.
Proof. induction s1; simpl; auto. rewrite IHs1, andb_assoc; auto. Qed.

Lemma all_digits_repeat n : all_digits (repeat "0" n) = true.
Proof. induction n; simpl; auto. Qed.

Lemma digits_value_app s1 : forall acc s2,
  digits_value acc (s1 ++ s2) = digits_value (digits_value acc s1) s2.
Proof. induction s1; simpl; auto. Qed.

Lemma digits_value_repeat n : forall acc,
  digits_value acc (repeat "0" n) = (acc * 10 ^ Z.of_nat n)%Z.
Proof.
  induction n; intros acc.
  - simpl. lia.
  - change (repeat "0" (S n)) with (String "0" (repeat "0" n)).
    cbn [digits_value]. rewrite IHn. rewrite Nat2Z.inj_succ, Z.pow_succ_r by lia.
    change (Z.of_nat (nat_of_ascii "0" - 48)) with 0%Z. ring.
Qed.

Lemma digits_value_shift s : forall acc,
  digits_value acc s
  = (acc * 10 ^ Z.of_nat (String.length s) + digits_value 0 s)%Z.
Proof.
  induction s as [|c r IH]; intros acc.
  - simpl. lia.
  - cbn [digits_value String.length]. rewrite IH.
    rewrite (IH (10 * 0 + _)%Z).
    rewrite Nat2Z.inj_succ, Z.pow_succ_r by lia. ring.
Qed.

Lemma digits_value_nonneg s : forall acc, (0 <= acc)%Z -> (0 <= digits_value acc s)%Z.
Proof. induction s; cbn [digits_value]; intros; auto. apply IHs. lia. Qed.

Lemma digit_char_ok d :
  (0 <= d < 10)%Z ->
  is_digit (digit_char d) = true /\
  Z.of_nat (nat_of_ascii (digit_char d) - 48) = d.
Proof.
  intros H.
  assert (d = 0 \/ d = 1 \/ d = 2 \/ d = 3 \/ d = 4 \/ d = 5 \/ d = 6 \/
          d = 7 \/ d = 8 \/ d = 9)%Z as C by lia.
  repeat (destruct C as [->|C]; [split; reflexivity|]). subst; split; reflexivity.
Qed.

(** The printer writes the digits of its argument. *)
Lemma digits_before_spec fuel : forall n acc,
  (0 <= n < 10 ^ Z.of_nat (S fuel))%Z ->
  exists ds, digits_before (S fuel) n acc = ds ++ acc /\
             all_digits ds = true /\ is_empty ds = false /\
             digits_value 0 ds = n.
Proof.
  induction fuel as [|f IH]; intros n acc H;
    destruct (digit_char_ok (n mod 10)) as [D V];
    try (apply Z.mod_pos_bound; lia).
  - change (10 ^ Z.of_nat 1)%Z with 10%Z in H.
    cbn [digits_before]. destruct (Z.ltb_spec n 10) as [L|L]; [|lia].
    exists (String (digit_char (n mod 10)) ""). cbn [all_digits digits_value append is_empty].
    rewrite D, V. repeat split; auto. rewrite Z.mod_small; lia.
  - remember (S f) as f'. cbn [digits_before].
    destruct (Z.ltb_spec n 10) as [L|L].
    + exists (String (digit_char (n mod 10)) ""). cbn [all_digits digits_value append is_empty].
      rewrite D, V. repeat split; auto. rewrite Z.mod_small; lia.
    + subst f'.
      destruct (IH (n / 10)%Z (String (digit_char (n mod 10)) acc))
        as [ds [E [A [N W]]]].
      { rewrite (Nat2Z.inj_succ (S f)), Z.pow_succ_r in H by lia.
        split; [apply Z.div_pos; lia|]. apply Z.div_lt_upper_bound; lia. }
      exists (ds ++ String (digit_char (n mod 10)) "").
      rewrite E, append_assoc. cbn [append]. repeat split.
      * rewrite all_digits_app, A. cbn [all_digits]. rewrite D. reflexivity.
      * destruct ds; [discriminate N|reflexivity].
      * rewrite digits_value_app, W. cbn [digits_value]. rewrite V.
        symmetry. apply Z.div_mod. discriminate.
Qed.

Lemma decimal_spec n :
  (0 <= n)%Z ->
  all_digits (decimal n) = true /\ is_empty (decimal n) = false /\
  digits_value 0 (decimal n) = n.
Proof.
  intros H. unfold decimal.
  destruct (digits_before_spec (Z.to_nat (Z.log2 n)) n "") as [ds [E [A [N W]]]].
  - split; auto.
    destruct (Z.eq_dec n 0) as [->|P]; [simpl; lia|].
    rewrite Nat2Z.inj_succ, Z2Nat.id by apply Z.log2_nonneg.
    apply Z.lt_le_trans with (2 ^ Z.succ (Z.log2 n))%Z.
    + apply Z.log2_spec. lia.
    + apply Z.pow_le_mono_l. lia.
  - rewrite E, append_empty_r. auto.
Qed.

(** *** Texts with a point *)

Lemma digit_not_point c : is_digit c = true -> Ascii.eqb c "." = false.
Proof.
  intros H. destruct (Ascii.eqb_spec c "."%char) as [->|]; auto; discriminate.
Qed.

Lemma digit_not_minus c : is_digit c = true -> Ascii.eqb c "-" = false.
Proof.
  intros H. destruct (Ascii.eqb_spec c "-"%char) as [->|]; auto; discriminate.
Qed.

Lemma before_point_digits a : forall r,
  all_digits a = true -> before_point (a ++ String "." r) = a.
Proof.
  induction a as [|c a IH]; intros r H; simpl in *; auto.
  apply andb_true_iff in H. destruct H as [D H].
  rewrite (digit_not_point c D), IH; auto.
Qed.

Lemma after_point_digits a : forall r,
  all_digits a = true -> after_point (a ++ String "." r) = Some r.
Proof.
  induction a as [|c a IH]; intros r H; simpl in *; auto.
  apply andb_true_iff in H. destruct H as [D H].
  rewrite (digit_not_point c D), IH; auto.
Qed.

Lemma before_point_plain a : all_digits a = true -> before_point a = a.
Proof.
  induction a as [|c a IH]; intros H; simpl in *; auto.
  apply andb_true_iff in H. destruct H as [D H].
  rewrite (digit_not_point c D), IH; auto.
Qed.

Lemma after_point_plain a : all_digits a = true -> after_point a = None.
Proof.
  induction a as [|c a IH]; intros H; simpl in *; auto.
  apply andb_true_iff in H. destruct H as [D H].
  rewrite (digit_not_point c D), IH; auto.
Qed.

Lemma includes_point x r : includes "." (x ++ String "." r) = true.
Proof.
  induction x as [|c x IH]; simpl.
  - reflexivity.
  - rewrite IH. apply orb_true_r.
Qed.

Lemma is_empty_append x c r : is_empty (x ++ String c r) = false.
Proof. destruct x; reflexivity. Qed.

Lemma strip_zeros_after_point x r :
  strip_trailing_zeros (x ++ String "." r)
  = x ++ String "." (strip_trailing_zeros r).
Proof.
  induction x as [|c x IH]; cbn [append strip_trailing_zeros].
  - reflexivity.
  - rewrite IH, is_empty_append, andb_false_r. reflexivity.
Qed.

(** A digit string is what is left of it and the zeros taken off. *)
Lemma strip_zeros_digits b :
  all_digits b = true ->
  all_digits (strip_trailing_zeros b) = true /\
  exists j, b = strip_trailing_zeros b ++ repeat "0" j.
Proof.
  induction b as [|c b IH]; intros H; cbn [strip_trailing_zeros].
  - split; auto. exists O. reflexivity.
  - cbn [all_digits] in H. apply andb_true_iff in H. destruct H as [D H].
    destruct (IH H) as [A [j E]].
    destruct (Ascii.eqb_spec c "0"%char) as [->|N]; cbn [andb].
    + destruct (strip_trailing_zeros b) eqn:Z0; cbn [is_empty].
      * split; auto. exists (S j). cbn [repeat append]. rewrite E at 1. reflexivity.
      * split; [cbn [all_digits] in *; rewrite A; reflexivity|].
        exists j. cbn [append]. rewrite E at 1. reflexivity.
    + split; [cbn [all_digits]; rewrite D, A; reflexivity|].
      exists j. cbn [append]. rewrite E at 1. reflexivity.
Qed.

Lemma strip_point_digits s : all_digits s = true -> strip_trailing_point s = s.
Proof.
  induction s as [|c s IH]; intros H; cbn [strip_trailing_point]; auto.
  cbn [all_digits] in H. apply andb_true_iff in H. destruct H as [D H].
  rewrite (digit_not_point c D), IH; auto.
Qed.

Lemma strip_point_final x : strip_trailing_point (x ++ String "." "") = x.
Proof.
  induction x as [|c x IH]; cbn [append strip_trailing_point].
  - reflexivity.
  - rewrite is_empty_append, andb_false_r, IH. reflexivity.
Qed.

Lemma strip_point_inner x b :
  all_digits b = true -> is_empty b = false ->
  strip_trailing_point (x ++ String "." b) = x ++ String "." b.
Proof.
  intros A N. induction x as [|c x IH]; cbn [append strip_trailing_point].
  - rewrite N, andb_false_r, strip_point_digits; auto.
  - rewrite is_empty_append, andb_false_r, IH. reflexivity.
Qed.

(** *** [toFixed(8)] *)

Lemma nearest8_nonneg q : (0 <= nearest8 q)%Z.
Proof.
  unfold nearest8. change 0%Z with (Qfloor 0). apply Qfloor_resp_le.
  pose proof (Qabs_nonneg q).
  assert (0 <= inject_Z (10 ^ 8))%Q by (unfold Qle; simpl; lia).
  pose proof (Qmult_le_0_compat _ _ H H0). lra.
Qed.

Lemma nearest8_bounds q :
  (inject_Z (nearest8 q) <= Qabs q * inject_Z (10 ^ 8) + (1 # 2)
   /\ Qabs q * inject_Z (10 ^ 8) + (1 # 2) < inject_Z (nearest8 q) + 1)%Q.
Proof.
  unfold nearest8. split; [apply Qfloor_le|].
  pose proof (Qlt_floor (Qabs q * inject_Z (10 ^ 8) + (1 # 2))) as H.
  rewrite inject_Z_plus in H. exact H.
Qed.

Lemma toFixed8_text q :
  (Qabs q < inject_Z (10 ^ 21))%Q ->
  exists A B,
    toFixed (Finite q) 8 = sign_text q ++ A ++ String "." B /\
    digit_string A = true /\ all_digits B = true /\ String.length B = 8%nat /\
    digits_value 0 (A ++ B) = nearest8 q.
Proof.
  intros H. unfold toFixed.
  assert (Qle_bool (inject_Z (10 ^ 21)) (Qabs q) = false) as ->.
  { destruct (Qle_bool (inject_Z (10 ^ 21)) (Qabs q)) eqn:E; auto.
    apply Qle_bool_iff in E. exfalso. apply (Qlt_not_le _ _ H E). }
  fold (sign_text q). change (Z.of_nat 8) with 8%Z. fold (nearest8 q).
  destruct (decimal_spec (nearest8 q) (nearest8_nonneg q)) as [D [N V]].
  set (m := decimal (nearest8 q)) in *.
  set (m' := if (String.length m <=? 8)%nat
             then repeat "0" (8 + 1 - String.length m) ++ m else m).
  assert (all_digits m' = true /\ (9 <= String.length m')%nat /\
          digits_value 0 m' = nearest8 q) as [D' [L' V']].
  { unfold m'. destruct (Nat.leb_spec (String.length m) 8) as [L|L].
    - rewrite all_digits_app, all_digits_repeat, D.
      rewrite length_append, length_repeat.
      rewrite digits_value_app, digits_value_repeat. simpl Z.mul.
      repeat split; auto. lia.
    - repeat split; auto. }
  exists (take (String.length m' - 8) m'), (drop (String.length m' - 8) m').
  pose proof (take_drop (String.length m' - 8) m') as TD.
  assert (all_digits (take (String.length m' - 8) m') = true /\
          all_digits (drop (String.length m' - 8) m') = true) as [DA DB].
  { apply andb_true_iff. rewrite <- all_digits_app, TD. exact D'. }
  repeat split; auto.
  - unfold digit_string. rewrite DA, is_empty_length, length_take.
    destruct (Nat.eqb_spec (Nat.min (String.length m' - 8) (String.length m')) 0);
      [lia|reflexivity].
  - rewrite length_drop. lia.
  - rewrite TD. exact V'.
Qed.

(** The text of [formatCoinAmount] without its sign: [A] or [A.B'], worth
    [nearest8 q / 10^8]. *)
Lemma formatCoinAmount_text q :
  (Qabs q < inject_Z (10 ^ 21))%Q ->
  exists body v,
    formatCoinAmount (Finite q) = sign_text q ++ body /\
    unsigned_value body = Some v /\
    (v == Qmake (nearest8 q) (Z.to_pos (10 ^ 8)))%Q /\
    exists c r, body = String c r /\ is_digit c = true.
Proof.
  intros H. destruct (toFixed8_text q H) as [A [B [T [DA [DB [LB V]]]]]].
  unfold formatCoinAmount. cbn [isNaN]. rewrite T.
  rewrite <- append_assoc, includes_point, strip_zeros_after_point.
  destruct (strip_zeros_digits B DB) as [DB' [j E]].
  remember (strip_trailing_zeros B) as B' eqn:HB. clear HB.
  unfold digit_string in DA. apply andb_true_iff in DA. destruct DA as [NA DA].
  assert (exists c r, A = String c r /\ is_digit c = true) as [c [r [EA Dc]]].
  { destruct A as [|c r]; [discriminate|]. exists c, r. split; auto.
    cbn [all_digits] in DA. apply andb_true_iff in DA. tauto. }
  assert (String.length B' + j = 8)%nat as LJ.
  { rewrite <- LB, E, length_append, length_repeat. reflexivity. }
  assert (digits_value 0 (A ++ B') * 10 ^ Z.of_nat j = nearest8 q)%Z as VJ.
  { rewrite <- V, E, <- append_assoc.
    rewrite (digits_value_app (A ++ B')), digits_value_repeat. reflexivity. }
  destruct B' as [|c' r'].
  - rewrite strip_point_final.
    exists A, (inject_Z (digits_value 0 A)). repeat split.
    + unfold unsigned_value. rewrite (before_point_plain A DA), (after_point_plain A DA).
      unfold digit_string. rewrite NA, DA. reflexivity.
    + rewrite append_empty_r in VJ. simpl in LJ. subst j.
      unfold Qeq. simpl Qnum. simpl Qden. rewrite <- VJ.
      change (10 ^ Z.of_nat 8)%Z with 100000000%Z. ring.
    + exists c, r. auto.
  - rewrite strip_point_inner by auto.
    rewrite append_assoc.
    exists (A ++ String "." (String c' r')),
      (Qmake (digits_value 0 (A ++ String c' r'))
             (Z.to_pos (10 ^ Z.of_nat (String.length (String c' r'))))).
    repeat split.
    + unfold unsigned_value.
      rewrite (before_point_digits A _ DA), (after_point_digits A _ DA).
      unfold digit_string. rewrite NA, DA, DB'. reflexivity.
    + unfold Qeq. cbn [Qnum Qden]. rewrite <- VJ.
      rewrite !Z2Pos.id by (apply Z.pow_pos_nonneg; lia).
      replace 8%Z with (Z.of_nat (String.length (String c' r')) + Z.of_nat j)%Z by lia.
      rewrite Z.pow_add_r by lia. ring.
    + exists c, (r ++ String "." (String c' r')). rewrite EA. split; auto.
Qed.

Lemma drop_append x : forall y, drop (String.length x) (x ++ y) = y.
Proof. induction x; simpl; auto. Qed.

Lemma take_append x : forall y, take (String.length x) (x ++ y) = x.
Proof. induction x; simpl; intros; [destruct y|]; auto. rewrite IHx; auto. Qed.

(** The last character of a text that ends in a digit is not a point. *)
Lemma ends_in_digit x : forall y,
  all_digits y = true -> is_empty y = false ->
  endsWith "." (x ++ y) = false.
Proof.
  intros y D N. unfold endsWith.
  assert (forall z, all_digits z = true -> is_empty z = false ->
            String.eqb (drop (String.length z - 1) z) "." = false) as G.
  { induction z as [|c z IH]; intros A E; [discriminate|].
    cbn [all_digits] in A. apply andb_true_iff in A. destruct A as [Dc A].
    destruct z as [|c' z'].
    - simpl. rewrite (digit_not_point c Dc). reflexivity.
    - specialize (IH A eq_refl).
      replace (String.length (String c (String c' z')) - 1)%nat
        with (S (String.length (String c' z') - 1)) by (simpl; lia).
      exact IH. }
  replace (String.length (x ++ y) - String.length ".")%nat
    with (String.length x + (String.length y - 1))%nat.
  - assert (forall n, drop (String.length x + n) (x ++ y) = drop n y) as ->.
    { clear. induction x; simpl; auto. }
    rewrite (G y D N). apply andb_false_r.
  - rewrite length_append. destruct y; [discriminate|]. simpl. lia.
Qed.

(** [toApiFormat] writes what [formatCoinAmount] writes. *)
Lemma toApiFormat_formatCoinAmount q :
  (Qabs q < inject_Z (10 ^ 21))%Q ->
  toApiFormat (Finite q) = formatCoinAmount (Finite q).
Proof.
  intros H. destruct (toFixed8_text q H) as [A [B [T [DA [DB [LB V]]]]]].
  unfold toApiFormat, formatCoinAmount. cbn [isNaN]. rewrite T.
  rewrite <- append_assoc, includes_point, strip_zeros_after_point.
  set (x := sign_text q ++ A).
  destruct (strip_zeros_digits B DB) as [DB' [j E]].
  assert (endsWith ".00000000" (x ++ String "." B) = String.eqb B "00000000") as ->.
  { unfold endsWith. rewrite length_append. cbn [String.length]. rewrite LB.
    replace (String.length x + 9 - 9)%nat with (String.length x) by lia.
    rewrite drop_append.
    destruct (Nat.leb_spec 9 (String.length x + 9)); [|lia]. reflexivity. }
  destruct (String.eqb_spec B "00000000") as [->|NZ].
  - rewrite length_append. cbn [String.length].
    replace (String.length x + 9 - 9)%nat with (String.length x) by lia.
    rewrite take_append. change (strip_trailing_zeros "00000000") with "".
    rewrite strip_point_final. reflexivity.
  - remember (strip_trailing_zeros B) as B' eqn:HB. clear HB.
    assert (is_empty B' = false) as NE.
    { destruct B'; [|reflexivity]. exfalso. apply NZ. rewrite E. simpl.
      assert (j = 8%nat) as -> by (rewrite E, length_append, length_repeat in LB;
                                   simpl in LB; lia).
      reflexivity. }
    rewrite strip_point_inner by auto.
    replace (x ++ String "." B') with ((x ++ String "." "") ++ B')
      by (rewrite append_assoc; reflexivity).
    rewrite ends_in_digit by auto. reflexivity.
Qed.

Lemma sign_of_spec q :
  (sign_of q = true -> (q < 0)%Q) /\ (sign_of q = false -> (0 <= q)%Q).
Proof.
  unfold sign_of, Qlt, Qle. simpl. split; intros H.
  - apply Z.ltb_lt in H. lia.
  - apply Z.ltb_ge in H. lia.
Qed.

(** *** The shape of the text *)

Lemma digit_char_lead d : (1 <= d < 10)%Z -> digit_char d <> "0"%char.
Proof.
  intros H.
  assert (d = 1 \/ d = 2 \/ d = 3 \/ d = 4 \/ d = 5 \/ d = 6 \/
          d = 7 \/ d = 8 \/ d = 9)%Z as C by lia.
  repeat (destruct C as [->|C]; [discriminate|]). subst; discriminate.
Qed.

(** The printer starts a positive number with a digit that is not 0. *)
Lemma digits_before_lead fuel : forall n acc,
  (0 < n < 10 ^ Z.of_nat (S fuel))%Z ->
  exists c r, digits_before (S fuel) n acc = String c r /\ c <> "0"%char.
Proof.
  induction fuel as [|f IH]; intros n acc H.
  - change (10 ^ Z.of_nat 1)%Z with 10%Z in H.
    cbn [digits_before]. destruct (Z.ltb_spec n 10) as [L|L]; [|lia].
    exists (digit_char (n mod 10)), acc. split; auto.
    apply digit_char_lead. rewrite Z.mod_small; lia.
  - remember (S f) as f'. cbn [digits_before].
    destruct (Z.ltb_spec n 10) as [L|L].
    + exists (digit_char (n mod 10)), acc. split; auto.
      apply digit_char_lead. rewrite Z.mod_small; lia.
    + subst f'. apply IH.
      rewrite (Nat2Z.inj_succ (S f)), Z.pow_succ_r in H by lia.
      split; [apply Z.div_str_pos; lia|]. apply Z.div_lt_upper_bound; lia.
Qed.

Lemma decimal_lead n :
  (0 < n)%Z -> exists c r, decimal n = String c r /\ c <> "0"%char.
Proof.
  intros H. unfold decimal. apply digits_before_lead. split; auto.
  rewrite Nat2Z.inj_succ, Z2Nat.id by apply Z.log2_nonneg.
  apply Z.lt_le_trans with (2 ^ Z.succ (Z.log2 n))%Z.
  - apply Z.log2_spec. lia.
  - apply Z.pow_le_mono_l. lia.
Qed.

(** What [strip_trailing_zeros] leaves does not end in a zero. *)
Lemma strip_zeros_no_zero s : forall x, strip_trailing_zeros s <> x ++ "0".
Proof.
  induction s as [|c r IH]; intros x; cbn [strip_trailing_zeros].
  - destruct x; discriminate.
  - destruct (Ascii.eqb c "0" && is_empty (strip_trailing_zeros r)) eqn:Z0.
    + destruct x; discriminate.
    + destruct x as [|d x']; cbn [append]; intros E; inversion E; subst.
      * rewrite H1 in Z0. discriminate Z0.
      * apply (IH x'). assumption.
Qed.

Lemma strip_zeros_end s : endsWith "0" (strip_trailing_zeros s) = false.
Proof.
  destruct (endsWith "0" (strip_trailing_zeros s)) eqn:E; auto.
  unfold endsWith in E. apply andb_true_iff in E. destruct E as [_ E].
  apply String.eqb_eq in E. exfalso.
  set (t := strip_trailing_zeros s) in *.
  apply (strip_zeros_no_zero s (take (String.length t - String.length "0") t)).
  fold t. rewrite <- E at 2. symmetry. apply take_drop.
Qed.

(** The integer part [toFixed(8)] writes has no zero before it, unless
    it is the one digit 0. *)
Lemma toFixed8_lead q :
  (Qabs q < inject_Z (10 ^ 21))%Q ->
  exists A B,
    toFixed (Finite q) 8 = sign_text q ++ A ++ String "." B /\
    digit_string A = true /\ all_digits B = true /\ String.length B = 8%nat /\
    (A = "0" \/ take 1 A <> "0").
Proof.
  intros H. unfold toFixed.
  assert (Qle_bool (inject_Z (10 ^ 21)) (Qabs q) = false) as ->.
  { destruct (Qle_bool (inject_Z (10 ^ 21)) (Qabs q)) eqn:E; auto.
    apply Qle_bool_iff in E. exfalso. apply (Qlt_not_le _ _ H E). }
  fold (sign_text q). change (Z.of_nat 8) with 8%Z. fold (nearest8 q).
  destruct (decimal_spec (nearest8 q) (nearest8_nonneg q)) as [D [N V]].
  assert (nearest8 q = 0%Z \/
          exists c r, decimal (nearest8 q) = String c r /\ c <> "0"%char) as Ld.
  { pose proof (nearest8_nonneg q).
    destruct (Z.eq_dec (nearest8 q) 0); [left; auto|right].
    apply decimal_lead. lia. }
  set (m := decimal (nearest8 q)) in *.
  destruct (Nat.leb_spec (String.length m) 8) as [L|L].
  - exists "0", (repeat "0" (8 - String.length m) ++ m).
    replace (8 + 1 - String.length m)%nat with (S (8 - String.length m)) by lia.
    assert (String.length (repeat "0" (8 - String.length m) ++ m) = 8%nat) as L8
      by (rewrite length_append, length_repeat; lia).
    cbn [repeat append String.length]. rewrite L8.
    cbn [Nat.sub take drop append].
    rewrite all_digits_app, all_digits_repeat, D.
    repeat split; auto.
  - destruct Ld as [Z0|[c [r [E NZ]]]].
    { exfalso. unfold m in L. rewrite Z0 in L. vm_compute in L. lia. }
    exists (take (String.length m - 8) m), (drop (String.length m - 8) m).
    pose proof (take_drop (String.length m - 8) m) as TD.
    assert (all_digits (take (String.length m - 8) m) = true /\
            all_digits (drop (String.length m - 8) m) = true) as [DA DB].
    { apply andb_true_iff. rewrite <- all_digits_app, TD. exact D. }
    repeat split; auto.
    + unfold digit_string. rewrite DA, is_empty_length, length_take.
      destruct (Nat.eqb_spec (Nat.min (String.length m - 8) (String.length m)) 0);
        [lia|reflexivity].
    + rewrite length_drop. lia.
    + right. rewrite E in *. cbn [String.length] in *.
      replace (S (String.length r) - 8)%nat with (S (String.length r - 8)) by lia.
      cbn [take]. intros X. inversion X. contradiction.
Qed.

(** The text of [formatCoinAmount] without its sign: an integer part
    with no zero before it, then, when the amount rounded has fraction
    digits that are not 0, a point and these digits up to the last that
    is not 0. *)
Lemma formatCoinAmount_shape q :
  (Qabs q < inject_Z (10 ^ 21))%Q ->
  exists A B,
    formatCoinAmount (Finite q)
    = sign_text q ++ A ++ (if is_empty B then "" else String "." B) /\
    digit_string A = true /\ (A = "0" \/ take 1 A <> "0") /\
    all_digits B = true /\ (String.length B <= 8)%nat /\
    endsWith "0" B = false.
Proof.
  intros H. destruct (toFixed8_lead q H) as [A [B [T [DA [DB [LB LA]]]]]].
  exists A, (strip_trailing_zeros B).
  unfold formatCoinAmount. cbn [isNaN]. rewrite T.
  rewrite <- append_assoc, includes_point, strip_zeros_after_point.
  destruct (strip_zeros_digits B DB) as [DB' [j E]].
  pose proof (strip_zeros_end B) as Z0.
  assert (String.length (strip_trailing_zeros B) <= 8)%nat as LJ.
  { rewrite <- LB. rewrite E at 2. rewrite length_append. lia. }
  destruct (strip_trailing_zeros B) as [|c' r'] eqn:SB.
  - rewrite strip_point_final. cbn [is_empty]. rewrite append_empty_r.
    repeat split; auto.
  - rewrite strip_point_inner by auto. cbn [is_empty].
    rewrite append_assoc. repeat split; auto.
Qed.

(** C3, amended. For a finite amount below [10^21] in magnitude the text
    of [formatCoinAmount] is a decimal numeral for the multiple of
    [10^-8] nearest to the amount, the one of larger magnitude when two
    are as near: the amount is rounded at the 8th fraction digit, not
    truncated.  The text has no trailing zeros: it is the sign, an
    integer part with no zero before it and, only when fraction digits
    that are not 0 are left, a point and at most 8 fraction digits of
    which the last is not 0.  [toApiFormat] writes the same text; and
    0.123456789 is encoded as "0.12345679". *)
Theorem formatCoinAmount_rounds (q : Q) :
  formatCoinAmount (literal 123456789 9) = "0.12345679" /\
  ((Qabs q < inject_Z (10 ^ 21))%Q ->
   toApiFormat (Finite q) = formatCoinAmount (Finite q) /\
   (exists v,
     decimal_value (formatCoinAmount (Finite q)) = Some v /\
     (exists k : Z, v == k # 100000000)%Q /\
     (Qabs (v - q) <= 1 # 200000000)%Q /\
     (Qabs q <= Qabs v \/ Qabs (v - q) < 1 # 200000000)%Q) /\
   exists A B,
     formatCoinAmount (Finite q)
     = sign_text q ++ A ++ (if is_empty B then "" else String "." B) /\
     digit_string A = true /\ (A = "0" \/ take 1 A <> "0") /\
     all_digits B = true /\ (String.length B <= 8)%nat /\
     endsWith "0" B = false).
Proof.
  split; [vm_compute; reflexivity|].
  intros H. split; [apply toApiFormat_formatCoinAmount; exact H|].
  split; [|apply formatCoinAmount_shape; exact H].
  destruct (formatCoinAmount_text q H) as [body [v0 [T [U [E [c [r [B D]]]]]]]].
  destruct (nearest8_bounds q) as [L1 L2].
  change (inject_Z (10 ^ 8)) with (100000000 # 1)%Q in *.
  assert (v0 * (100000000 # 1) == inject_Z (nearest8 q))%Q as K.
  { rewrite E. unfold Qeq. simpl. ring. }
  assert (0 <= v0)%Q as P0.
  { pose proof (nearest8_nonneg q) as NN.
    assert (0 <= inject_Z (nearest8 q))%Q by (unfold Qle; simpl; lia). lra. }
  destruct (sign_of_spec q) as [SN SP].
  rewrite T. unfold sign_text. destruct (sign_of q) eqn:S.
  - specialize (SN eq_refl). exists (- v0)%Q.
    assert (Qabs q == - q)%Q as A by (apply Qabs_neg; lra).
    rewrite A in L1, L2.
    split; [cbn [append decimal_value]; simpl Ascii.eqb; cbv iota; rewrite U; reflexivity|].
    split; [exists (- nearest8 q)%Z; rewrite E; reflexivity|].
    split.
    + apply Qabs_Qle_condition. split; lra.
    + destruct (Qlt_le_dec (v0 + q) 0) as [Y|Y].
      * right. apply Qabs_Qlt_condition. split; lra.
      * left. apply Qle_trans with v0.
        -- apply Qabs_Qle_condition. split; lra.
        -- apply Qle_trans with (- - v0)%Q; [lra|].
           rewrite <- Qabs_opp. apply Qle_Qabs.
  - specialize (SP eq_refl). exists v0.
    assert (Qabs q == q)%Q as A by (apply Qabs_pos; lra).
    rewrite A in L1, L2.
    split.
    { cbn [append]. rewrite B. cbn [decimal_value]. rewrite (digit_not_minus c D).
      rewrite <- B. exact U. }
    split; [exists (nearest8 q); rewrite E; reflexivity|].
    split.
    + apply Qabs_Qle_condition. split; lra.
    + destruct (Qlt_le_dec (v0 - q) 0) as [Y|Y].
      * right. apply Qabs_Qlt_condition. split; lra.
      * left. apply Qle_trans with v0; [|apply Qle_Qabs].
        apply Qabs_Qle_condition. split; lra.
Qed.

(** C3 as stated fails: 0.123456789 is encoded with its 8th digit
    rounded up. *)
Lemma rounded_not_truncated :
  literal 123456789 9 = Finite (8895999182988127 # 72057594037927936) /\
  truncated8 (8895999182988127 # 72057594037927936) = 12345678%Z /\
  nearest8 (8895999182988127 # 72057594037927936) = 12345679%Z /\
  formatCoinAmount (literal 123456789 9) = "0.12345679" /\
  toApiFormat (literal 123456789 9) = "0.12345679" /\
  formatCoinAmount (literal 123456789 9) <> "0.12345678".
Proof. vm_compute. repeat split; try reflexivity. discriminate. Qed.

(** Witness of the amended C3 at the binary64 value of 0.123456789. *)
Lemma formatCoinAmount_rounds_witness :
  exists v, decimal_value (formatCoinAmount (literal 123456789 9)) = Some v /\
            (Qabs (v - (8895999182988127 # 72057594037927936)) <= 1 # 200000000)%Q.
Proof.
  destruct (formatCoinAmount_rounds (8895999182988127 # 72057594037927936))
    as [_ H].
  destruct H as [_ [[v [P [_ [B _]]]] _]].
  - vm_compute. reflexivity.
  - exists v. split; [exact P|exact B].
Defined.

(** C7 as stated fails: an amount that is [NaN] is encoded as the text
    "0.00000000", and the request goes out with it. *)
Lemma nan_amount_is_sent :
  isFinite NaN = false /\
  formatCoinAmount NaN = "0.00000000" /\
  processItem nan_item = Normal (TransferCard "card-A" (Some "42") "0.00000000").
Proof. repeat split; reflexivity. Qed.

(** C7, amended. The encoding of an amount that is not finite does not
    fail: a job of a known kind has its request posted, with the text of
    [formatCoinAmount], which for [NaN] is "0.00000000". *)
Theorem nonfinite_amount_is_encoded {World : Type} (it : item World) :
  known_type (type (it_job it)) = true ->
  isFinite (amount (payload (it_job it))) = false ->
  exists rq,
    processItem it = Normal rq /\
    amount_text rq = formatCoinAmount (amount (payload (it_job it))) /\
    (amount (payload (it_job it)) = NaN -> amount_text rq = "0.00000000").
Proof.
  intros K F. unfold processItem, known_type in *.
  destruct (String.eqb (type (it_job it)) "card_to_id").
  - eexists. split; [reflexivity|]. split; [reflexivity|].
    intros E. simpl. rewrite E. reflexivity.
  - destruct (String.eqb (type (it_job it)) "card_to_card"); [|discriminate].
    eexists. split; [reflexivity|]. split; [reflexivity|].
    intros E. simpl. rewrite E. reflexivity.
Qed.

(** Witness of the amended C7: the job whose amount is [NaN]. *)
Lemma nonfinite_amount_is_encoded_witness :
  exists rq, processItem nan_item = Normal rq /\ amount_text rq = "0.00000000".
Proof.
  destruct (nonfinite_amount_is_encoded nan_item eq_refl eq_refl)
    as [rq [P [_ T]]].
  exists rq. split; [exact P|exact (T eq_refl)].
Defined.

(** C10. The mask of a card identifier depends on its length and its
    first three characters only; for three characters and more it is
    those three followed by ['#'] up to the same length, for fewer it is
    ["###"]. *)
Theorem maskCardId_shows_three (a b : string) :
  (String.length a = String.length b -> take 3 a = take 3 b ->
   maskCardId (Some a) = maskCardId (Some b)) /\
  ((3 <= String.length a)%nat ->
   maskCardId (Some a) = take 3 a ++ repeat "#" (String.length a - 3) /\
   String.length (take 3 a) = 3%nat /\
   String.length (maskCardId (Some a)) = String.length a) /\
  ((String.length a < 3)%nat -> maskCardId (Some a) = "###").
Proof.
  assert (forall s, is_empty s || (String.length s <? 3)%nat
                    = (String.length s <? 3)%nat) as G.
  { intros s. destruct s; reflexivity. }
  unfold maskCardId. rewrite !G. split; [|split].
  - intros L T. rewrite L, T. reflexivity.
  - intros L. destruct (Nat.ltb_spec (String.length a) 3) as [X|X]; [lia|].
    rewrite Nat.max_r by lia.
    assert (String.length (take 3 a) = 3%nat) as T
      by (rewrite length_take; lia).
    repeat split; auto.
    rewrite length_append, length_repeat, T. lia.
  - intros L. destruct (Nat.ltb_spec (String.length a) 3) as [X|X]; [auto|lia].
Qed.

(** Witness of C10 on three card identifiers. *)
Lemma maskCardId_shows_three_witness :
  maskCardId (Some "4111-2222") = maskCardId (Some "411abcdef") /\
  maskCardId (Some "4111-2222") = "411######" /\
  maskCardId (Some "41") = "###".
Proof.
  destruct (maskCardId_shows_three "4111-2222" "411abcdef") as [H1 [H2 _]].
  destruct (maskCardId_shows_three "41" "41") as [_ [_ H3]].
  split; [apply H1; reflexivity|].
  split; [apply (proj1 (H2 ltac:(simpl; lia)))|apply H3; simpl; lia].
Defined.

(** ** More of the codec: [formatDollar], [formatCoin], [truncateCoin] *)

Lemma nearest_nonneg f q : (0 <= nearest f q)%Z.
Proof.
  unfold nearest. change 0%Z with (Qfloor 0). apply Qfloor_resp_le.
  pose proof (Qabs_nonneg q).
  assert (0 <= inject_Z (10 ^ Z.of_nat f))%Q.
  { unfold Qle; simpl. pose proof (Z.pow_nonneg 10 (Z.of_nat f)). lia. }
  pose proof (Qmult_le_0_compat _ _ H H0). lra.
Qed.

Lemma toFixed_text q f :
  (Qabs q < inject_Z (10 ^ 21))%Q ->
  exists A B,
    toFixed (Finite q) (S f) = sign_text q ++ A ++ String "." B /\
    digit_string A = true /\ all_digits B = true /\
    String.length B = S f /\
    digits_value 0 (A ++ B) = nearest (S f) q.
Proof.
  intros H. unfold toFixed.
  assert (Qle_bool (inject_Z (10 ^ 21)) (Qabs q) = false) as ->.
  { destruct (Qle_bool (inject_Z (10 ^ 21)) (Qabs q)) eqn:E; auto.
    apply Qle_bool_iff in E. exfalso. apply (Qlt_not_le _ _ H E). }
  fold (sign_text q). fold (nearest (S f) q).
  destruct (decimal_spec (nearest (S f) q) (nearest_nonneg (S f) q)) as [D [N V]].
  set (m := decimal (nearest (S f) q)) in *.
  set (m' := if (String.length m <=? S f)%nat
             then repeat "0" (S f + 1 - String.length m) ++ m else m).
  assert (all_digits m' = true /\ (S (S f) <= String.length m')%nat /\
          digits_value 0 m' = nearest (S f) q) as [D' [L' V']].
  { unfold m'. destruct (Nat.leb_spec (String.length m) (S f)) as [L|L].
    - rewrite all_digits_app, all_digits_repeat, D.
      rewrite length_append, length_repeat.
      rewrite digits_value_app, digits_value_repeat. simpl Z.mul.
      repeat split; auto. lia.
    - repeat split; auto. }
  exists (take (String.length m' - S f) m'), (drop (String.length m' - S f) m').
  pose proof (take_drop (String.length m' - S f) m') as TD.
  assert (all_digits (take (String.length m' - S f) m') = true /\
          all_digits (drop (String.length m' - S f) m') = true) as [DA DB].
  { apply andb_true_iff. rewrite <- all_digits_app, TD. exact D'. }
  repeat split; auto.
  - unfold digit_string. rewrite DA, is_empty_length, length_take.
    destruct (Nat.eqb_spec (Nat.min (String.length m' - S f) (String.length m')) 0);
      [lia|reflexivity].
  - rewrite length_drop. lia.
  - rewrite TD. exact V'.
Qed.

Lemma nearest_bounds f q :
  (inject_Z (nearest f q) <= Qabs q * inject_Z (10 ^ Z.of_nat f) + (1 # 2)
   /\ Qabs q * inject_Z (10 ^ Z.of_nat f) + (1 # 2) < inject_Z (nearest f q) + 1)%Q.
Proof.
  unfold nearest. split; [apply Qfloor_le|].
  pose proof (Qlt_floor (Qabs q * inject_Z (10 ^ Z.of_nat f) + (1 # 2))) as H.
  rewrite inject_Z_plus in H. exact H.
Qed.

(** The value of a signed numeral with a point. *)
Lemma decimal_value_fixed q A B :
  digit_string A = true -> digit_string B = true ->
  decimal_value (sign_text q ++ A ++ String "." B)
  = Some ((if sign_of q then Qopp else fun v => v)
            (Qmake (digits_value 0 (A ++ B))
                   (Z.to_pos (10 ^ Z.of_nat (String.length B))))).
Proof.
  intros DA DB.
  assert (unsigned_value (A ++ String "." B)
          = Some (Qmake (digits_value 0 (A ++ B))
                        (Z.to_pos (10 ^ Z.of_nat (String.length B))))) as U.
  { unfold unsigned_value. unfold digit_string in DA.
    apply andb_true_iff in DA. destruct DA as [NA DA].
    rewrite (before_point_digits A _ DA), (after_point_digits A _ DA).
    unfold digit_string at 1. rewrite NA, DA, DB. reflexivity. }
  unfold sign_text. destruct (sign_of q).
  - cbn [append decimal_value]. simpl Ascii.eqb. cbv iota. rewrite U. reflexivity.
  - cbn [append]. unfold digit_string in DA.
    destruct A as [|c r]; [discriminate|]. cbn [append decimal_value].
    cbn [is_empty negb andb all_digits] in DA. apply andb_true_iff in DA.
    rewrite (digit_not_minus c (proj1 DA)). exact U.
Qed.

(** X10. [formatDollar] writes two fraction digits, for the multiple of 0.01
    nearest to the amount. *)
Theorem formatDollar_two_decimals (q : Q) :
  formatDollar NaN = "0.00" /\
  ((Qabs q < inject_Z (10 ^ 21))%Q ->
   exists A B v,
     formatDollar (Finite q) = sign_text q ++ A ++ String "." B /\
     digit_string A = true /\ all_digits B = true /\ String.length B = 2%nat /\
     decimal_value (formatDollar (Finite q)) = Some v /\
     (Qabs (v - q) <= 1 # 200)%Q).
Proof.
  split; [reflexivity|]. intros H.
  destruct (toFixed_text q 1 H) as [A [B [T [DA [DB [LB V]]]]]].
  assert (digit_string B = true) as DB'.
  { unfold digit_string. rewrite DB. destruct B; [discriminate|reflexivity]. }
  unfold formatDollar. cbn [isNaN]. rewrite T.
  eexists A, B, _. split; [reflexivity|]. repeat (split; [assumption|]).
  split; [apply decimal_value_fixed; assumption|].
  rewrite V, LB. change (Z.to_pos (10 ^ Z.of_nat 2)) with 100%positive.
  destruct (nearest_bounds 2 q) as [L1 L2].
  change (inject_Z (10 ^ Z.of_nat 2)) with (100 # 1)%Q in *.
  set (n := nearest 2 q) in *.
  assert ((n # 100) * (100 # 1) == inject_Z n)%Q as K
    by (unfold Qeq; simpl; ring).
  destruct (sign_of_spec q) as [SN SP]. destruct (sign_of q).
  - specialize (SN eq_refl).
    assert (Qabs q == - q)%Q as E by (apply Qabs_neg; lra).
    rewrite E in L1, L2. apply Qabs_Qle_condition. split; lra.
  - specialize (SP eq_refl).
    assert (Qabs q == q)%Q as E by (apply Qabs_pos; lra).
    rewrite E in L1, L2. apply Qabs_Qle_condition. split; lra.
Qed.

(** Witness: 1234.565 as binary64 is written "1234.57". *)
Lemma formatDollar_two_decimals_witness :
  exists A B, formatDollar (Finite (2469 # 2)) = A ++ String "." B /\ String.length B = 2%nat.
Proof.
  destruct (formatDollar_two_decimals (2469 # 2)) as [_ H].
  destruct H as [A [B [v [T [_ [_ [L _]]]]]]].
  - vm_compute. reflexivity.
  - exists A, B. split; [exact T|exact L].
Defined.

Lemma append_cancel_l (s a b : string) : s ++ a = s ++ b -> a = b.
Proof. induction s; simpl; intros H; auto. inversion H; auto. Qed.

(** X11. The amount text is a zero exactly for the amounts below half of
    [10^-8] in magnitude; a negative one keeps its sign. *)
Theorem amount_below_half_unit_is_zero (q : Q) :
  (Qabs q < inject_Z (10 ^ 21))%Q ->
  (formatCoinAmount (Finite q) = sign_text q ++ "0" <-> (Qabs q < 1 # 200000000)%Q) /\
  formatCoin (Finite q) = formatCoinAmount (Finite q).
Proof.
  intros H. split; [|reflexivity].
  destruct (nearest8_bounds q) as [L1 L2].
  change (inject_Z (10 ^ 8)) with (100000000 # 1)%Q in *.
  split.
  - intros E.
    destruct (formatCoinAmount_text q H) as [body [v [T [U [V _]]]]].
    rewrite T in E. apply append_cancel_l in E. subst body.
    vm_compute in U. inversion U; subst v; clear U.
    assert (nearest8 q = 0)%Z as N.
    { unfold Qeq in V. simpl in V. lia. }
    rewrite N in L2. change (inject_Z 0) with 0%Q in L2. lra.
  - intros S.
    assert (nearest8 q = 0)%Z as N.
    { pose proof (nearest8_nonneg q) as P. pose proof (Qabs_nonneg q) as A.
      assert (inject_Z (nearest8 q) < 1)%Q as B by lra.
      unfold Qlt in B. simpl in B. lia. }
    unfold formatCoinAmount, toFixed. cbn [isNaN].
    assert (Qle_bool (inject_Z (10 ^ 21)) (Qabs q) = false) as ->.
    { destruct (Qle_bool (inject_Z (10 ^ 21)) (Qabs q)) eqn:E; auto.
      apply Qle_bool_iff in E. exfalso. apply (Qlt_not_le _ _ H E). }
    fold (sign_text q). change (Z.of_nat 8) with 8%Z. fold (nearest8 q).
    rewrite N. unfold sign_text. destruct (sign_of q); reflexivity.
Qed.

(** Witness: 0.4e-8, and 0.6e-8 which is not below the half. *)
Lemma amount_below_half_unit_is_zero_witness :
  formatCoinAmount (Finite (4 # 1000000000)) = "0" /\
  formatCoinAmount (Finite (6 # 1000000000)) <> "0".
Proof.
  destruct (amount_below_half_unit_is_zero (4 # 1000000000)) as [[_ H] _];
    [vm_compute; reflexivity|].
  destruct (amount_below_half_unit_is_zero (6 # 1000000000)) as [[K _] _];
    [vm_compute; reflexivity|].
  split.
  - apply H. vm_compute. reflexivity.
  - intros E. apply K in E. vm_compute in E. discriminate.
Defined.

Lemma includes_app c x r : includes c (x ++ String c r) = true.
Proof.
  induction x as [|d x IH]; simpl.
  - rewrite Ascii.eqb_refl. reflexivity.
  - rewrite IH. apply orb_true_r.
Qed.

Lemma strip_zeros_before c x r :
  Ascii.eqb c "0" = false ->
  strip_trailing_zeros (x ++ String c r) = x ++ String c (strip_trailing_zeros r).
Proof.
  intros N. induction x as [|d x IH]; cbn [append strip_trailing_zeros].
  - rewrite N. reflexivity.
  - rewrite IH, is_empty_append, andb_false_r. reflexivity.
Qed.

Lemma strip_point_before c x r :
  Ascii.eqb c "." = false ->
  strip_trailing_point (x ++ String c r) = x ++ String c (strip_trailing_point r).
Proof.
  intros N. induction x as [|d x IH]; cbn [append strip_trailing_point].
  - rewrite N. reflexivity.
  - rewrite IH, is_empty_append, andb_false_r. reflexivity.
Qed.

Lemma digits_no_e s : all_digits s = true -> includes "e" s = false.
Proof.
  induction s as [|c s IH]; cbn [includes all_digits]; auto. intros H.
  apply andb_true_iff in H. destruct H as [D H]. rewrite (IH H), orb_false_r.
  destruct (Ascii.eqb_spec "e"%char c) as [<-|]; [vm_compute in D; discriminate|reflexivity].
Qed.

Lemma cut_at_point s :
  s = before_point s ++ match after_point s with
                        | Some b => String "." b
                        | None => ""
                        end.
Proof.
  induction s as [|c s IH]; simpl; auto.
  destruct (Ascii.eqb_spec c "."%char) as [->|N]; simpl; auto.
  f_equal. exact IH.
Qed.

Lemma includes_append c x y : includes c (x ++ y) = includes c x || includes c y.
Proof. induction x; simpl; auto. rewrite IHx, orb_assoc. reflexivity. Qed.

Lemma numeral_no_e s v : decimal_value s = Some v -> includes "e" s = false.
Proof.
  assert (forall t w, unsigned_value t = Some w -> includes "e" t = false) as U.
  { intros t w H. unfold unsigned_value in H. rewrite (cut_at_point t).
    destruct (after_point t) as [b|].
    - destruct (digit_string (before_point t) && digit_string b) eqn:E; [|discriminate].
      apply andb_true_iff in E. destruct E as [E1 E2]. unfold digit_string in *.
      apply andb_true_iff in E1, E2.
      rewrite includes_append. simpl.
      rewrite !digits_no_e by tauto. reflexivity.
    - destruct (digit_string (before_point t)) eqn:E; [|discriminate].
      unfold digit_string in E. apply andb_true_iff in E.
      rewrite append_empty_r. apply digits_no_e. tauto. }
  destruct s as [|c r]; simpl; [discriminate|].
  destruct (Ascii.eqb_spec c "-"%char) as [->|N].
  - destruct (unsigned_value r) eqn:E; [|discriminate]. intros _.
    simpl. eapply U; eauto.
  - intros H. apply (U _ _ H).
Qed.

(** X12. From [10^21] on the amount text is in exponent notation: it holds an
    ["e"] and is no decimal numeral. *)
Theorem large_amount_in_exponent_notation (q : Q) :
  (inject_Z (10 ^ 21) <= Qabs q)%Q ->
  includes "e" (formatCoinAmount (Finite q)) = true /\
  decimal_value (formatCoinAmount (Finite q)) = None /\
  formatCoin (Finite q) = formatCoinAmount (Finite q).
Proof.
  intros H.
  assert (includes "e" (formatCoinAmount (Finite q)) = true) as I.
  { unfold formatCoinAmount, toFixed. cbn [isNaN].
    apply Qle_bool_iff in H. rewrite H. unfold toString_large.
    destruct (shortest_digits 20 _ _ 1) as [[s k] ex0].
    set (mant := if (k =? 1)%Z then decimal s
                 else take 1 (decimal s) ++ "." ++ drop 1 (decimal s)).
    set (ex := decimal _).
    replace ((if sign_of q then "-" else "") ++ mant ++ "e+" ++ ex)
      with (((if sign_of q then "-" else "") ++ mant) ++ String "e" (String "+" ex))
      by (rewrite append_assoc; reflexivity).
    destruct (includes "." _).
    - rewrite strip_zeros_before, strip_point_before by reflexivity.
      apply includes_app.
    - apply includes_app. }
  split; [exact I|]. split; [|reflexivity].
  destruct (decimal_value (formatCoinAmount (Finite q))) as [v|] eqn:E; auto.
  apply numeral_no_e in E. congruence.
Qed.

(** Witness: the binary64 value 1.5e21. *)
Lemma large_amount_in_exponent_notation_witness :
  formatCoinAmount (Finite (inject_Z (15 * 10 ^ 20))) = "1.5e+21" /\
  decimal_value (formatCoinAmount (Finite (inject_Z (15 * 10 ^ 20)))) = None.
Proof.
  split; [vm_compute; reflexivity|].
  apply (large_amount_in_exponent_notation (inject_Z (15 * 10 ^ 20))).
  vm_compute. discriminate.
Defined.

(** X13. [truncateCoin] cuts the amount at the 8th fraction digit, then
    writes what [formatCoinAmount] writes for the amount so cut: its
    fallback ['0'] is never used.  It is the one function of the codec
    that truncates, and no command calls it: 0.123456789 gives
    "0.12345678" here. *)
Theorem truncateCoin_is_formatCoinAmount (x : number) (q : Q) :
  truncateCoin NaN = "0.00000000" /\
  truncateCoin (literal 123456789 9) = "0.12345678" /\
  (isNaN x = false ->
   div (floor (mul x (literal 100000000 0))) (literal 100000000 0) = Finite q ->
   (Qabs q < inject_Z (10 ^ 21))%Q ->
   truncateCoin x = formatCoinAmount (Finite q)).
Proof.
  split; [reflexivity|]. split; [vm_compute; reflexivity|].
  intros N E H. unfold truncateCoin. rewrite N, E.
  destruct (formatCoinAmount_text q H) as [body [v [T [_ [_ [c [r [B _]]]]]]]].
  destruct (toFixed8_text q H) as [A [B' [F _]]].
  assert (formatCoinAmount (Finite q)
          = strip_trailing_point (strip_trailing_zeros (toFixed (Finite q) 8))) as G.
  { unfold formatCoinAmount. cbn [isNaN]. rewrite F.
    rewrite <- append_assoc, includes_point. reflexivity. }
  rewrite <- G, T, B. unfold sign_text. destruct (sign_of q); reflexivity.
Qed.

(** Witness: one coin and a half, which the cut leaves as it is. *)
Lemma truncateCoin_is_formatCoinAmount_witness :
  truncateCoin (Finite (3 # 2)) = "1.5".
Proof.
  destruct (truncateCoin_is_formatCoinAmount (Finite (3 # 2)) (3 # 2)) as [_ [_ H]].
  rewrite H; vm_compute; reflexivity.
Defined.

Local Open Scope list_scope.
Local Open Scope Z_scope.

(** ** The queue table under the UPDATEs of the loop *)

Lemma hex_not_sign c : is_hex c = true -> Ascii.eqb c "-" = false /\ Ascii.eqb c "+" = false.
Proof.
  intros H. split.
  - destruct (Ascii.eqb_spec c "-"%char) as [->|]; auto; discriminate.
  - destruct (Ascii.eqb_spec c "+"%char) as [->|]; auto; discriminate.
Qed.

Lemma uuid_shape_not_digits s : forall i,
  uuid_shape i s = true -> (i <= 8)%nat -> all_digits s = false.
Proof.
  induction s as [|c r IH]; intros i H L; simpl in *.
  - apply Nat.eqb_eq in H. lia.
  - apply andb_true_iff in H. destruct H as [H1 H2].
    destruct (Nat.eq_dec i 8) as [->|D].
    + simpl in H1. apply Ascii.eqb_eq in H1. subst. reflexivity.
    + rewrite (IH (S i)); auto; [apply andb_false_r|lia].
Qed.

(** An identifier of [crypto.randomUUID()] is not an integer literal. *)
Lemma uuid_not_integer s : is_uuid s = true -> integer_literal s = None.
Proof.
  unfold is_uuid. intros H.
  pose proof (uuid_shape_not_digits s 0 H ltac:(lia)) as A.
  destruct s as [|c r]; simpl in *; auto.
  apply andb_true_iff in H. destruct H as [H1 _].
  destruct (hex_not_sign c H1) as [-> ->]. rewrite A. reflexivity.
Qed.

(** So the UPDATE of the loop, keyed by [item.id], matches no row. *)
Lemma update_status_uuid t key st stamp :
  is_uuid key = true -> update_status t key st stamp = t.
Proof.
  intros H. unfold update_status, id_matches.
  rewrite (uuid_not_integer key H). destruct t as [rs l]; simpl. f_equal.
  induction rs; simpl; congruence.
Qed.


(** ** The queue *)
Section QueueProofs.

Context {World : Type}.

Implicit Types (s : state World) (p : pc World) (it : item World).
Implicit Types (tr : list (event World)).


Lemma resume_db_resumed r p s o s' :
  resume_db r p s = Some (o, s') -> resumed s p o s'.
Proof.
  unfold resume_db, enter_catch; intros H.
  destruct p; try discriminate; destruct r as [e'|]; try (inversion H; subst; constructor; fail).
  - destruct (processItem it) eqn:E; inversion H; subst; econstructor; eauto.
  - destruct (onSuccess (it_job it)) eqn:E.
    + destruct (c r0 (world _)) eqn:F. inversion H; subst. eapply res_completed_call; eauto.
    + inversion H; subst. constructor; auto.
  - destruct (onError (it_job it)) eqn:E.
    + destruct (c e (world _)) eqn:F. inversion H; subst. eapply res_failed_call; eauto.
    + inversion H; subst. constructor; auto.
Qed.

Lemma resume_http_resumed h p s o s' :
  resume_http h p s = Some (o, s') -> resumed s p o s'.
Proof.
  unfold resume_http, enter_catch; intros H.
  destruct p; try discriminate.
  destruct (transferResult h) eqn:E; inversion H; subst; econstructor; eauto.
Qed.

Lemma resume_continuation_resumed p s o s' :
  resume_continuation p s = Some (o, s') -> resumed s p o s'.
Proof.
  unfold resume_continuation, enter_catch; intros H.
  destruct p; try discriminate; destruct c; inversion H; subst; constructor.
Qed.

Lemma resume_timer_resumed p s o s' :
  resume_timer p s = Some (o, s') -> resumed s p o s'.
Proof.
  unfold resume_timer; intros H.
  destruct p; try discriminate. inversion H.
  replace o with (fst (loop_head s)) by (rewrite H1; reflexivity).
  replace s' with (snd (loop_head s)) by (rewrite H1; reflexivity).
  constructor.
Qed.


Lemma existsb_eqb_false x l :
  existsb (String.eqb x) l = false -> ~ In x l.
Proof.
  intros H I. assert (existsb (String.eqb x) l = true); [|congruence].
  apply existsb_exists. exists x. split; auto. apply String.eqb_refl.
Qed.

Lemma step_moves s a s' : step s a = Some s' -> moves s s'.
Proof.
  destruct a; simpl; intros H.
  - destruct (is_uuid uuid) eqn:U; simpl in H; try discriminate.
    destruct (existsb _ _) eqn:F; simpl in H; try discriminate.
    inversion H; subst. constructor; auto using existsb_eqb_false.
  - destruct (nth_error (adds s) n) eqn:E; try discriminate.
    inversion H; subst. econstructor; eauto.
  - unfold resume in H. destruct (nth_error (drains s) n) eqn:E; try discriminate.
    destruct (resume_db r p s) as [[[p'|] s1]|] eqn:F; try discriminate;
      inversion H; subst; apply resume_db_resumed in F;
      apply (mv_resume s n p _ s1 E F).
  - unfold resume in H. destruct (nth_error (drains s) n) eqn:E; try discriminate.
    destruct (resume_http o p s) as [[[p'|] s1]|] eqn:F; try discriminate;
      inversion H; subst; apply resume_http_resumed in F;
      apply (mv_resume s n p _ s1 E F).
  - unfold resume in H. destruct (nth_error (drains s) n) eqn:E; try discriminate.
    destruct (resume_continuation p s) as [[[p'|] s1]|] eqn:F; try discriminate;
      inversion H; subst; apply resume_continuation_resumed in F;
      apply (mv_resume s n p _ s1 E F).
  - unfold resume in H. destruct (nth_error (drains s) n) eqn:E; try discriminate.
    destruct (resume_timer p s) as [[[p'|] s1]|] eqn:F; try discriminate;
      inversion H; subst; apply resume_timer_resumed in F;
      apply (mv_resume s n p _ s1 E F).
Qed.

Lemma resumed_drains s p o s1 : resumed s p o s1 -> drains s1 = drains s.
Proof.
  destruct 1; try reflexivity.
  unfold loop_head. destruct (queue s); reflexivity.
Qed.

(** The flag after a resumed call: cleared exactly when the call returns. *)
Lemma resumed_flag s p o s1 :
  resumed s p o s1 ->
  isProcessing s1 = match o with Some _ => isProcessing s | None => false end.
Proof.
  destruct 1; try reflexivity.
  unfold loop_head. destruct (queue s); reflexivity.
Qed.

Lemma single_nth s n p :
  single_drain s -> nth_error (drains s) n = Some p ->
  drains s = [p] /\ n = O /\ isProcessing s = true.
Proof.
  intros [[D F]|[q [D F]]] H; rewrite D in H.
  - destruct n; discriminate.
  - destruct n as [|[|n]]; simpl in H; try discriminate.
    inversion H; subst; auto.
Qed.

Lemma moves_single s s' : single_drain s -> moves s s' -> single_drain s'.
Proof.
  intros S M. destruct M.
  - destruct S as [[D F]|[q [D F]]]; [left|right; exists q]; simpl; auto.
  - destruct r as [e|]; cbn.
    + destruct S as [[D F]|[q [D F]]]; [left|right; exists q]; simpl; auto.
    + destruct S as [[D F]|[q [D F]]].
      * rewrite F. unfold process; cbn.
        destruct (queue s) eqn:Q; simpl.
        -- left; simpl; auto.
        -- right. rewrite D. eexists; simpl; split; reflexivity.
      * rewrite F. right; exists q; simpl; auto.
  - destruct (single_nth _ _ _ S H) as [D [-> F]].
    pose proof (resumed_drains _ _ _ _ H0) as E.
    pose proof (resumed_flag _ _ _ _ H0) as G.
    destruct o; [right; eexists|left]; simpl; rewrite E, D; simpl; split; auto;
      congruence.
Qed.


(** *** Facts about ordered traces *)

Lemma owner_taken (tr : list (event World)) i : owner tr = Some i -> In i (taken tr).
Proof.
  unfold owner. destruct (taken tr); simpl; intros H; inversion H; auto.
Qed.

Lemma ordered_submitted_nodup (tr : list (event World)) :
  ordered tr -> NoDup (submitted_ids tr).
Proof.
  induction tr as [|e tr IH]; simpl; [constructor|].
  intros [K O]. destruct e; auto. unfold submitted_ids; simpl.
  constructor; auto.
Qed.

Lemma ordered_taken_submitted (tr : list (event World)) i :
  ordered tr -> In i (taken tr) -> In i (submitted_ids tr).
Proof.
  induction tr as [|e tr IH]; simpl; [tauto|].
  intros [K O] I. unfold submitted_ids in *.
  destruct e; simpl in *; auto.
  destruct I as [<-|I]; [tauto|auto].
Qed.

Lemma ordered_app (t2 t1 : list (event World)) : ordered (t2 ++ t1) -> ordered t1.
Proof. induction t2; simpl; tauto. Qed.

(** A job recorded as [processing] is the one shifted last. *)
Lemma processing_is_owner (tr : list (event World)) j :
  ordered tr -> status_of tr j = Some processing -> owner tr = Some j.
Proof.
  induction tr as [|e tr IH]; simpl; [discriminate|].
  intros [K O] H. destruct e; simpl in *.
  - destruct (String.eqb (id it) j); [discriminate|]. apply IH; auto.
  - destruct K as [Q _]. specialize (IH O H).
    unfold quiet in Q. rewrite IH in Q. destruct Q as [T _].
    rewrite H in T. discriminate.
  - destruct (String.eqb i j) eqn:E.
    + apply String.eqb_eq in E. subst. exact K.
    + apply IH; auto.
  - apply IH; auto.
  - apply IH; auto.
  - apply IH; auto.
  - apply IH; auto.
Qed.

(** Nothing of the loop body is about an item not yet shifted. *)
Lemma untaken_fresh (tr : list (event World)) i :
  ordered tr -> ~ In i (taken tr) ->
  awaiting tr i = false /\ ~ In i (requested tr) /\
  (forall st, In (EvMark i st) tr -> False).
Proof.
  induction tr as [|e tr IH]; simpl; [intuition|].
  intros [K O] N.
  destruct e; simpl in *;
    try (destruct (IH O) as [A [R M]]; [tauto|]);
    try (assert (i0 <> i) by (intros ->; apply N; apply owner_taken; tauto));
    try (assert (String.eqb i0 i = false) as -> by (apply String.eqb_neq; auto)).
  - repeat split; auto. intros st [F|F]; [discriminate|eauto].
  - repeat split; auto. intros st [F|F]; [discriminate|eauto].
  - repeat split; auto. intros st' [F|F]; [inversion F; congruence|eauto].
  - repeat split; auto. { intros [F|F]; auto. } intros st [F|F]; [discriminate|eauto].
  - repeat split; auto. intros st [F|F]; [discriminate|eauto].
  - repeat split; auto. intros st [F|F]; [discriminate|eauto].
  - repeat split; auto. intros st [F|F]; [discriminate|eauto].
Qed.

(** Once the loop has moved on from an item, the item has a final status,
    no continuation of it is running. *)
Lemma left_behind (tr : list (event World)) j :
  ordered tr -> In j (taken tr) -> owner tr <> Some j ->
  terminal (status_of tr j) = true /\ awaiting tr j = false.
Proof.
  induction tr as [|e tr IH]; simpl; [tauto|].
  intros [K O] I N.
  assert (forall e', taken (e' :: tr) = taken tr -> owner (e' :: tr) = owner tr)
    as OW by (unfold owner; intros e' ->; auto).
  destruct e; simpl in *; try rewrite OW in N by reflexivity.
  - destruct (String.eqb (id it) j) eqn:E.
    + apply String.eqb_eq in E. subst. exfalso. apply K.
      apply ordered_taken_submitted; auto.
    + apply IH; auto.
  - unfold owner in N; simpl in N.
    destruct I as [->|I]; [congruence|].
    destruct K as [Q _]. unfold quiet in Q.
    destruct (owner tr) as [k|] eqn:W.
    + destruct (String.eqb_spec k j) as [->|D]; [exact Q|].
      apply IH; auto. congruence.
    + apply IH; auto. congruence.
  - assert (String.eqb i j = false) as -> by (apply String.eqb_neq; congruence).
    apply IH; auto.
  - apply IH; auto.
  - assert (String.eqb i j = false) as -> by (apply String.eqb_neq; intuition congruence).
    apply IH; auto.
  - assert (String.eqb i j = false) as -> by (apply String.eqb_neq; intuition congruence).
    apply IH; auto.
  - apply IH; auto.
Qed.

(** ... and nothing more happens to it. *)
Lemma left_behind_forever (t2 t1 : list (event World)) j :
  ordered (t2 ++ t1) -> In j (taken t1) -> owner t1 <> Some j ->
  (In j (taken (t2 ++ t1)) /\ owner (t2 ++ t1) <> Some j) /\
  (forall x, In x t2 -> body_event x <> Some j).
Proof.
  induction t2 as [|e t2 IH]; simpl; [intuition|].
  intros [K O] I N. destruct (IH O I N) as [[I' N'] B].
  assert (forall i, owner (t2 ++ t1) = Some i -> i <> j) as W by congruence.
  assert (forall e', taken (e' :: t2 ++ t1) = taken (t2 ++ t1) ->
                     owner (e' :: t2 ++ t1) = owner (t2 ++ t1))
    as OW by (unfold owner; intros e' ->; auto).
  destruct e; simpl in *; try rewrite OW by reflexivity;
    (split; [split; auto|]);
    try (intros x [<-|F]; simpl; [|auto]; try discriminate;
         intros E; inversion E; subst; eapply W; intuition eauto; fail).
  unfold owner; simpl. intros E; inversion E; subst. tauto.
Qed.

Lemma requested_taken (tr : list (event World)) j :
  ordered tr -> In j (requested tr) -> In j (taken tr).
Proof.
  intros O I. destruct (in_dec string_dec j (taken tr)) as [T|T]; auto.
  destruct (untaken_fresh tr j O T) as [_ [R _]]. tauto.
Qed.

Lemma subseq_app_l {A} (l3 l1 l2 : list A) :
  subseq l1 l2 -> subseq l1 (l3 ++ l2).
Proof. induction l3; simpl; auto using @subseq_skip. Qed.

Lemma subseq_refl {A} (l : list A) : subseq l l.
Proof. induction l; [apply subseq_nil|apply subseq_keep; auto]. Qed.

(** Requests go out in the order in which the loop shifts the items. *)
Lemma requested_subseq_taken (tr : list (event World)) :
  ordered tr ->
  subseq (requested tr) (taken tr) /\
  (forall i rest, taken tr = i :: rest -> ~ In i (requested tr) ->
                  subseq (requested tr) rest).
Proof.
  induction tr as [|e tr IH]; simpl.
  - intros _. split; [constructor|discriminate].
  - intros [K O]. destruct (IH O) as [S1 S2].
    destruct e; simpl in *; auto.
    + split; [apply subseq_skip; auto|]. intros k rest E _. inversion E; subst; auto.
    + destruct K as [W N]. unfold owner in W.
      destruct (taken tr) as [|k rest] eqn:T; simpl in W; inversion W; subst.
      split.
      * apply subseq_keep. apply (S2 i rest); auto.
      * intros k r' E F. inversion E; subst. exfalso. apply F. left; auto.
Qed.



Lemma owner_cons (e : event World) tr :
  taken (e :: tr) = taken tr -> owner (e :: tr) = owner tr.
Proof. unfold owner; intros ->; auto. Qed.

Lemma quiet_submit (tr : list (event World)) it :
  ordered tr -> ~ In (id it) (submitted_ids tr) ->
  quiet tr -> quiet (EvSubmit it :: tr).
Proof.
  unfold quiet. intros O F. rewrite owner_cons by reflexivity.
  destruct (owner tr) as [k|] eqn:W; auto. simpl.
  assert (String.eqb (id it) k = false) as ->; auto.
  apply String.eqb_neq. intros E. apply F. rewrite E.
  apply ordered_taken_submitted; auto. apply owner_taken; auto.
Qed.

Lemma pc_ok_submit (tr : list (event World)) it p :
  ordered tr -> ~ In (id it) (submitted_ids tr) ->
  pc_ok tr p -> pc_ok (EvSubmit it :: tr) p.
Proof.
  intros O F.
  assert (forall it', at_item tr it' ->
            at_item (EvSubmit it :: tr) it' /\ String.eqb (id it) (id it') = false) as A.
  { intros it' [W I]. split.
    - split; [rewrite owner_cons by reflexivity; auto|simpl; auto].
    - apply String.eqb_neq. intros E. apply F. rewrite E.
      unfold submitted_ids. apply in_map; auto. }
  destruct p; simpl; try (intros [H R]; destruct (A _ H) as [H1 H2]; try rewrite H2; tauto).
  - apply quiet_submit; auto.
  - intros H. apply A; auto.
Qed.

Lemma core_submit q ds tr it :
  core q ds tr -> ~ In (id it) (submitted_ids tr) ->
  core (q ++ [it]) ds (EvSubmit it :: tr).
Proof.
  intros [O F Q H I] N. constructor.
  - simpl; auto.
  - unfold submitted_ids in *; simpl. rewrite F, map_app, rev_app_distr. reflexivity.
  - intros it' J. apply in_app_or in J. simpl. destruct J as [J|[J|[]]]; auto.
  - intros p J. apply pc_ok_submit; auto.
  - intros E. apply quiet_submit; auto.
Qed.

Lemma core_take it rest ds tr :
  core (it :: rest) ds tr -> quiet tr ->
  core rest [AwaitProcessing it] (EvTake (id it) :: tr).
Proof.
  intros [O F Q H I] K.
  assert (~ In (id it) (taken tr)) as N.
  { pose proof (ordered_submitted_nodup tr O) as D. rewrite F in D. simpl in D.
    rewrite <- app_assoc in D. simpl in D.
    apply NoDup_remove_2 in D. intros J. apply D. apply in_or_app; auto. }
  assert (In it (submitted tr)) as S by (apply Q; left; auto).
  constructor.
  - simpl. repeat split; auto. unfold submitted_ids. apply in_map; auto.
  - change (submitted_ids (EvTake (id it) :: tr)) with (submitted_ids tr).
    rewrite F. simpl. rewrite <- app_assoc. reflexivity.
  - intros it' J. simpl. apply Q. right; auto.
  - intros p [<-|[]]. simpl.
    destruct (untaken_fresh tr (id it) O N) as [A [R _]].
    repeat split; auto.
  - discriminate.
Qed.



(** An event of the loop body about the item held. *)
Lemma core_log q ds ds' tr e i :
  core q ds tr -> body_event e = Some i -> event_ok e tr ->
  (forall p, In p ds' -> pc_ok (e :: tr) p) -> (ds' = [] -> quiet (e :: tr)) ->
  core q ds' (e :: tr).
Proof.
  intros [O F Q H I] B K H' I'.
  constructor; auto.
  - simpl; auto.
  - destruct e; try discriminate; exact F.
  - intros it J. specialize (Q it J). destruct e; try discriminate; auto.
Qed.

Lemma core_same q ds ds' tr :
  core q ds tr -> (forall p, In p ds' -> pc_ok tr p) -> (ds' = [] -> quiet tr) ->
  core q ds' tr.
Proof. intros [O F Q H I] H' I'. constructor; auto. Qed.

Ltac crush_pc :=
  simpl in *; unfold quiet, at_item, owner in *; simpl in *;
  repeat match goal with
         | H : _ /\ _ |- _ => destruct H
         end;
  repeat match goal with
         | H : hd_error (taken _) = Some _ |- _ => rewrite H
         end;
  rewrite ?String.eqb_refl; simpl;
  repeat match goal with
         | H : status_of _ _ = Some _ |- _ => rewrite H
         end; simpl;
  repeat split; auto; try tauto; try congruence.

Ltac one_log it :=
  eapply core_log;
  [eassumption | reflexivity | crush_pc
  | intros ? [<-|[]]; crush_pc | try discriminate; intros _; crush_pc].

Ltac two_logs it e0 :=
  eapply core_log;
  [eapply (core_log _ _ [Rejected it e0]);
   [eassumption | reflexivity | crush_pc
   | intros ? [<-|[]]; crush_pc | discriminate]
  | reflexivity | crush_pc
  | intros ? [<-|[]]; crush_pc | try discriminate; intros _; crush_pc].

Lemma resumed_core s p o s1 :
  core (queue s) [p] (trace s) -> resumed s p o s1 ->
  core (queue s1) (match o with Some p' => [p'] | None => [] end) (trace s1).
Proof.
  intros C R. pose proof (core_held _ _ _ C p (or_introl eq_refl)) as P.
  destruct R; simpl in P; cbn [log set_table set_world set_trace queue trace].
  - one_log it.
  - two_logs it (Error "").
  - two_logs it e.
  - eapply core_same; [eassumption|intros ? [<-|[]]; crush_pc|discriminate].
  - one_log it.
  - one_log it.
  - two_logs it (Error "").
  - one_log it.
  - one_log it.
  - two_logs it e.
  - eapply core_same; [eassumption|intros ? [<-|[]]; crush_pc|discriminate].
  - two_logs it e.
  - one_log it.
  - one_log it.
  - one_log it.
  - unfold loop_head. destruct (queue s) as [|it rest] eqn:Q; simpl.
    + eapply core_same; [eassumption|intros ? []|auto].
    + eapply core_take; eauto.
Qed.

Lemma moves_inv s s' : Inv s -> moves s s' -> Inv s'.
Proof.
  intros [S C] M. split; [eapply moves_single; eauto|].
  destruct M.
  - simpl. apply core_submit; auto.
  - destruct r as [e|]; cbn; auto.
    destruct (isProcessing s) eqn:F; cbn; auto.
    unfold process; cbn.
    destruct S as [[D _]|[q [_ F']]]; [|congruence].
    destruct (queue s) as [|it' rest] eqn:Q; cbn; auto.
    rewrite D in *. simpl. eapply core_take; eauto.
    apply (core_idle _ _ _ C); auto.
  - destruct (single_nth _ _ _ S H) as [D [-> F]].
    rewrite D in C. pose proof (resumed_core _ _ _ _ C H0) as C'.
    pose proof (resumed_drains _ _ _ _ H0) as E.
    destruct o; simpl; rewrite E, D; simpl; auto.
Qed.

Lemma init_inv t (w : World) : Inv (init t w).
Proof.
  split; [left; auto|]. constructor; simpl; auto; try tauto.
  intros _. exact I.
Qed.

Lemma reachable_inv t (w : World) s : reachable t w s -> Inv s.
Proof.
  induction 1; [apply init_inv|].
  eapply moves_inv; eauto using step_moves.
Qed.


(** *** What the trace and the table hold *)

Lemma submitted_mono (evs tr : list (event World)) it :
  In it (submitted tr) -> In it (submitted (evs ++ tr)).
Proof. induction evs as [|e evs IH]; simpl; auto. destruct e; simpl; auto. Qed.

Lemma requested_mono (evs tr : list (event World)) i :
  In i (requested tr) -> In i (requested (evs ++ tr)).
Proof. induction evs as [|e evs IH]; simpl; auto. destruct e; simpl; auto. Qed.

Lemma request_ok_mono (evs tr : list (event World)) i rq :
  request_ok tr i rq -> request_ok (evs ++ tr) i rq.
Proof.
  intros [it [A B]]. exists it. split; auto using submitted_mono.
Qed.

Lemma marked_ok_mono (evs tr : list (event World)) i :
  marked_ok tr i -> marked_ok (evs ++ tr) i.
Proof.
  intros [R|[it [e [A [B [C D]]]]]]; [left; auto using requested_mono|].
  right. exists it, e. repeat split; auto using submitted_mono.
  apply in_or_app; auto.
Qed.

(** A step that logs the events [evs] and leaves the rows alone. *)
Lemma content_log t0 (s s' : state World) evs :
  content t0 s ->
  trace s' = evs ++ trace s ->
  table s' = table s ->
  (forall it, In it (submitted (evs ++ trace s)) ->
              In it (submitted (trace s)) \/ is_uuid (id it) = true) ->
  (forall i rq, In (EvRequest i rq) evs -> request_ok (trace s) i rq) ->
  (forall i, In (EvMark i completed) evs -> In i (requested (trace s))) ->
  (forall i, In (EvMark i processing) evs -> marked_ok (evs ++ trace s) i) ->
  content t0 s'.
Proof.
  intros [U R K M T] E F U' R' K' M'. constructor; rewrite ?E, ?F; auto.
  - intros it I. destruct (U' it I); auto.
  - intros i rq I. apply request_ok_mono. apply in_app_or in I. destruct I; auto.
  - intros i I. apply requested_mono. apply in_app_or in I. destruct I; auto.
  - intros i I. apply in_app_or in I. destruct I; auto using marked_ok_mono.
Qed.

Ltac in_new :=
  repeat match goal with
         | H : _ \/ _ |- _ => destruct H
         | H : @eq (event _) _ _ |- _ => inversion H; clear H; subst
         | H : False |- _ => destruct H
         end.

Lemma resumed_content t0 s p o s1 :
  core (queue s) [p] (trace s) -> content t0 s -> resumed s p o s1 ->
  content t0 s1.
Proof.
  intros C K X.
  pose proof (core_held _ _ _ C p (or_introl eq_refl)) as P.
  assert (forall it, at_item (trace s) it -> is_uuid (id it) = true) as UU
    by (intros it [_ I]; apply (c_uuid _ _ K); auto).
  destruct X; simpl in P;
    try match goal with
        | |- content _ (log ?e1 (log ?e2 _)) => apply (content_log t0 s _ [e1; e2])
        | |- content _ (log ?e1 (set_world (log ?e2 _) _)) =>
            apply (content_log t0 s _ [e1; e2])
        | |- content _ (log ?e1 _) => apply (content_log t0 s _ [e1])
        | |- content _ s => exact K
        end;
    try exact K; try reflexivity;
    try (cbn [log set_table set_world set_trace table trace];
         rewrite ?update_status_uuid by (apply UU; tauto); reflexivity);
    try (simpl; intros; in_new; auto; tauto).
  - simpl; intros; in_new. exists it. unfold at_item in P. repeat split; tauto.
  - simpl; intros; in_new. left. simpl. auto.
  - simpl; intros; in_new. right. exists it, e. unfold at_item in P. simpl.
    repeat split; tauto.
  - unfold loop_head. destruct (queue s) as [|it rest]; simpl.
    + destruct K; constructor; auto.
    + apply (content_log t0 s _ [EvTake (id it)]); auto; try reflexivity;
        simpl; intros; in_new; auto.
Qed.

Lemma content_insert t0 (s s' : state World) g u ty pl :
  content t0 s -> trace s' = trace s -> table s' = insert (table s) g u ty pl ->
  content t0 s'.
Proof.
  intros [U R K M [extra [T1 T2]]] E F. constructor; rewrite ?E, ?F; simpl; auto.
  eexists. rewrite T1, <- app_assoc. split; [reflexivity|].
  apply Forall_app. split; auto.
Qed.

Lemma moves_content t0 s s' :
  Inv s -> content t0 s -> moves s s' -> content t0 s'.
Proof.
  intros [S C] K M. destruct M.
  - apply (content_log t0 s _ [EvSubmit {| it_job := j; id := uuid; createdAt := now;
                                          status := pending |}]);
      auto; try reflexivity; simpl; intros; in_new; subst; auto.
  - destruct r as [e|]; cbn.
    + destruct K; constructor; auto.
    + destruct (isProcessing s) eqn:F; cbn.
      * eapply content_insert; eauto; reflexivity.
      * unfold process; cbn.
        destruct (queue s) as [|it' rest] eqn:Q; cbn.
        -- eapply content_insert; eauto; reflexivity.
        -- eapply (content_log t0
                     (set_table s (insert (table s) (guildId (it_job it))
                                     (userId (it_job it)) (type (it_job it))
                                     (payload (it_job it)))) _ [EvTake (id it')]);
             [eapply content_insert; eauto; reflexivity| reflexivity | reflexivity
             | | | | ]; simpl; intros; in_new; auto.
  - destruct (single_nth _ _ _ S H) as [D [-> F]].
    rewrite D in C. pose proof (resumed_content t0 _ _ _ _ C K H0) as [U R K' M T].
    constructor; destruct o; simpl; auto.
Qed.

Lemma init_content t (w : World) : content t (init t w).
Proof.
  constructor; simpl; try tauto.
  exists []. rewrite app_nil_r; auto.
Qed.

Lemma reachable_content t (w : World) s : reachable t w s -> content t s.
Proof.
  induction 1; [apply init_content|].
  eapply moves_content; eauto using step_moves, reachable_inv.
Qed.

(** The rows inserted by [add] keep their first status: no UPDATE of the
    loop reaches them. *)
Lemma inserted_rows_stay_pending t (w : World) s :
  reachable t w s ->
  exists extra,
    rows (table s) = rows t ++ extra /\
    Forall (fun r => row_status r = pending /\ row_processed r = false) extra.
Proof. intros R. apply (c_table _ _ (reachable_content _ _ _ R)). Qed.

(** Two submitted items with one identifier are one item. *)
Lemma submitted_unique (tr : list (event World)) it1 it2 :
  ordered tr -> In it1 (submitted tr) -> In it2 (submitted tr) ->
  id it1 = id it2 -> it1 = it2.
Proof.
  intros O. apply ordered_submitted_nodup in O. unfold submitted_ids in O.
  revert O. induction (submitted tr) as [|a l IH]; simpl; [tauto|].
  intros D [<-|I1] [<-|I2] E; auto.
  - inversion D; subst. exfalso. apply H1. rewrite E. apply in_map; auto.
  - inversion D; subst. exfalso. apply H1. rewrite <- E. apply in_map; auto.
  - inversion D; auto.
Qed.

(** Once a call of [process] has thrown, nothing is shifted any more. *)
Lemma rejected_moves (s s' : state World) (it : item World) e :
  drains s = [Rejected it e] -> isProcessing s = true -> moves s s' ->
  drains s' = [Rejected it e] /\ isProcessing s' = true /\
  taken (trace s') = taken (trace s) /\ requested (trace s') = requested (trace s) /\
  (exists more, queue s' = queue s ++ more).
Proof.
  intros D F M. destruct M.
  - simpl. repeat split; auto. eexists; reflexivity.
  - destruct r as [e'|]; cbn; try rewrite F; cbn; repeat split; auto;
      exists []; rewrite app_nil_r; auto.
  - rewrite D in H. destruct n as [|[|n]]; simpl in H; try discriminate.
    inversion H; subst. inversion H0.
Qed.

Lemma rejected_forever acts : forall (s s' : state World) (it : item World) e,
  drains s = [Rejected it e] -> isProcessing s = true -> run s acts = Some s' ->
  drains s' = [Rejected it e] /\ isProcessing s' = true /\
  taken (trace s') = taken (trace s) /\ requested (trace s') = requested (trace s) /\
  (exists more, queue s' = queue s ++ more).
Proof.
  induction acts as [|a acts IH]; simpl; intros s s' it e D F R.
  - inversion R; subst. repeat split; auto. exists []; rewrite app_nil_r; auto.
  - destruct (step s a) as [s1|] eqn:E; try discriminate.
    apply step_moves in E.
    destruct (rejected_moves _ _ _ _ D F E) as [D1 [F1 [T1 [R1 [m1 Q1]]]]].
    destruct (IH _ _ _ _ D1 F1 R) as [D2 [F2 [T2 [R2 [m2 Q2]]]]].
    repeat split; auto; try congruence.
    exists (m1 ++ m2). rewrite Q2, Q1, app_assoc. reflexivity.
Qed.


Lemma run_reachable t (w : World) acts : forall s s',
  reachable t w s -> run s acts = Some s' -> reachable t w s'.
Proof.
  induction acts as [|a acts IH]; simpl; intros s s' R H.
  - inversion H; subst; auto.
  - destruct (step s a) as [s1|] eqn:E; try discriminate.
    eapply IH; [|eauto]. econstructor; eauto.
Qed.

Lemma processItem_known (it : item World) :
  known_type (type (it_job it)) = true ->
  exists rq, processItem it = Normal rq.
Proof.
  unfold known_type, processItem. intros H.
  destruct (String.eqb (type (it_job it)) "card_to_id"); [eauto|].
  destruct (String.eqb (type (it_job it)) "card_to_card"); [eauto|discriminate].
Qed.

Lemma processItem_unknown (it : item World) :
  known_type (type (it_job it)) = false ->
  processItem it = Throw (unknown_type (type (it_job it))).
Proof.
  unfold known_type, processItem. intros H.
  apply orb_false_iff in H. destruct H as [-> ->]. reflexivity.
Qed.

(** C1. At most one job is in the [processing] state at any time: in
    every state an execution can reach there is at most one call of
    [process], two identifiers recorded as [processing] are one, and a
    job is [processing] only while [isProcessing] is set and the one call
    of [process] holds that job; and no row that [add] has inserted in
    the queue table says [processing]. *)
Theorem one_job_processing (t : queue_table) (w : World) (s : state World) :
  reachable t w s ->
  (List.length (drains s) <= 1)%nat /\
  (forall i j, status_of (trace s) i = Some processing ->
               status_of (trace s) j = Some processing -> i = j) /\
  (forall i, status_of (trace s) i = Some processing ->
             isProcessing s = true /\
             exists p it, drains s = [p] /\ held p = Some it /\ id it = i) /\
  (exists extra, rows (table s) = rows t ++ extra /\
                 Forall (fun r => row_status r <> processing) extra).
Proof.
  intros R. destruct (reachable_inv _ _ _ R) as [S C].
  pose proof (core_ordered _ _ _ C) as O.
  split; [|split; [|split]];
    [| | |destruct (inserted_rows_stay_pending _ _ _ R) as [extra [E F]];
          exists extra; split; [exact E|];
          apply (Forall_impl _ (P := fun r => row_status r = pending
                                            /\ row_processed r = false));
          [intros r [X _]; rewrite X; discriminate|exact F]].
  - destruct S as [[-> _]|[p [-> _]]]; simpl; lia.
  - intros i j Hi Hj.
    pose proof (processing_is_owner _ _ O Hi) as Wi.
    pose proof (processing_is_owner _ _ O Hj) as Wj. congruence.
  - intros i Hi. pose proof (processing_is_owner _ _ O Hi) as W.
    assert (quiet (trace s) -> False) as NQ.
    { unfold quiet. rewrite W, Hi. simpl. intros [F _]. discriminate. }
    destruct S as [[D _]|[p [D F]]].
    + exfalso. apply NQ. apply (core_idle _ _ _ C D).
    + split; auto. pose proof (core_held _ _ _ C p) as P. rewrite D in P.
      specialize (P (or_introl eq_refl)).
      destruct p; simpl in P; try (exfalso; tauto);
        (eexists; exists it; split; [exact D|split; [reflexivity|]]);
        unfold at_item in P; destruct P as [[P _] _] || destruct P as [P _];
        congruence.
Qed.


Lemma all_marked_take s s' it :
  all_marked s -> (drains s = [] \/ drains s = [AwaitDelay]) ->
  trace s' = EvTake (id it) :: trace s -> drains s' = [AwaitProcessing it] ->
  all_marked s'.
Proof.
  intros M D T D' i I. rewrite T in *. simpl in I. destruct I as [<-|I].
  - right. exists it. auto.
  - left. right. destruct (M i I) as [K|[it' [E _]]]; auto.
    destruct D as [D|D]; rewrite D in E; discriminate.
Qed.

Lemma all_marked_step s a s' :
  single_drain s -> all_marked s -> store_fails a = false ->
  step s a = Some s' -> all_marked s'.
Proof.
  intros S M C H. destruct a; simpl in H.
  - destruct (_ && _); try discriminate. inversion H; subst.
    intros i I. simpl in *. destruct (M i I) as [K|K]; auto.
  - destruct (nth_error (adds s) n) as [it|]; try discriminate.
    inversion H; subst; clear H. destruct r as [e|]; cbn.
    + intros i I. apply (M i I).
    + destruct (isProcessing s) eqn:F; cbn.
      * intros i I. apply (M i I).
      * unfold process; cbn.
        destruct S as [[D _]|[q [_ F']]]; [|congruence].
        destruct (queue s) as [|it' rest] eqn:Q; cbn.
        -- intros i I. apply (M i I).
        -- eapply (all_marked_take s _ it'); eauto; cbn; rewrite ?D; reflexivity.
  - unfold resume in H. destruct (nth_error (drains s) n) as [p|] eqn:E; try discriminate.
    destruct (single_nth _ _ _ S E) as [D [-> F]].
    destruct r as [e|]; [discriminate|].
    destruct p; simpl in H; try discriminate.
    + destruct (processItem it); inversion H; subst; clear H;
        intros i I; simpl in *; left;
        (destruct (M i I) as [K|[it' [E' <-]]];
         [auto|rewrite D in E'; inversion E'; subst; auto]).
    + destruct (onSuccess (it_job it)) as [f|].
      * destruct (f r (world _)); inversion H; subst; clear H.
        intros i I; simpl in *; left.
        destruct (M i I) as [K|[it' [E' _]]]; [auto|rewrite D in E'; discriminate].
      * inversion H; subst; clear H.
        intros i I; simpl in *; left.
        destruct (M i I) as [K|[it' [E' _]]]; [auto|rewrite D in E'; discriminate].
    + destruct (onError (it_job it)) as [f|].
      * destruct (f e (world _)); inversion H; subst; clear H.
        intros i I; simpl in *; left.
        destruct (M i I) as [K|[it' [E' _]]]; [auto|rewrite D in E'; discriminate].
      * inversion H; subst; clear H.
        intros i I; simpl in *; left.
        destruct (M i I) as [K|[it' [E' _]]]; [auto|rewrite D in E'; discriminate].
  - unfold resume in H. destruct (nth_error (drains s) n) as [p|] eqn:E; try discriminate.
    destruct (single_nth _ _ _ S E) as [D [-> F]].
    destruct p; simpl in H; try discriminate.
    destruct (transferResult o); inversion H; subst; clear H;
      intros i I; simpl in *; left;
      (destruct (M i I) as [K|[it' [E' _]]]; [auto|rewrite D in E'; discriminate]).
  - unfold resume in H. destruct (nth_error (drains s) n) as [p|] eqn:E; try discriminate.
    destruct (single_nth _ _ _ S E) as [D [-> F]].
    destruct p; simpl in H; try discriminate;
      destruct c; inversion H; subst; clear H;
      intros i I; simpl in *; left;
      (destruct (M i I) as [K|[it' [E' _]]]; [auto|rewrite D in E'; discriminate]).
  - unfold resume in H. destruct (nth_error (drains s) n) as [p|] eqn:E; try discriminate.
    destruct (single_nth _ _ _ S E) as [D [-> F]].
    destruct p; simpl in H; try discriminate.
    unfold loop_head in H. destruct (queue s) as [|it' rest] eqn:Q;
      inversion H; subst; clear H.
    + intros i I; simpl in *. destruct (M i I) as [K|[it' [E' _]]]; auto.
      rewrite D in E'; discriminate.
    + eapply (all_marked_take s _ it'); eauto; cbn; rewrite ?D; reflexivity.
Qed.

Lemma all_marked_run acts : forall s s',
  Inv s -> all_marked s -> existsb store_fails acts = false ->
  run s acts = Some s' -> all_marked s'.
Proof.
  induction acts as [|a acts IH]; simpl; intros s s' V M C R.
  - inversion R; subst; auto.
  - apply orb_false_iff in C. destruct C as [C1 C2].
    destruct (step s a) as [s1|] eqn:E; try discriminate.
    apply (IH s1 s'); auto.
    + eapply moves_inv; eauto using step_moves.
    + eapply all_marked_step; eauto. apply V.
Qed.

Lemma processItem_normal_known it rq :
  processItem it = Normal rq -> known_type (type (it_job it)) = true.
Proof.
  unfold processItem, known_type.
  destruct (String.eqb (type (it_job it)) "card_to_id"); auto.
  destruct (String.eqb (type (it_job it)) "card_to_card"); auto. discriminate.
Qed.

Lemma subseq_incl {A} (l1 l2 : list A) : subseq l1 l2 -> incl l1 l2.
Proof.
  induction 1 as [|y l1 l2 S IH|y l1 l2 S IH]; intros z I; simpl in *; auto.
  destruct I as [<-|I]; auto.
Qed.

(** A sublist of the identifiers that holds exactly those of the items
    satisfying [P] is the list of those items' identifiers. *)
Lemma subseq_filter (P : item World -> bool) (l : list (item World)) :
  forall r, NoDup (map id l) -> subseq r (map id l) ->
  (forall it, In it l -> (In (id it) r <-> P it = true)) ->
  r = map id (filter P l).
Proof.
  induction l as [|a l IH]; intros r D S H; simpl in *.
  - inversion S; auto.
  - inversion D as [|? ? N D']; subst. inversion S as [|? ? ? S'|? r' ? S']; subst.
    + assert (~ In (id a) r) as X by (intros I; apply N; eapply subseq_incl; eauto).
      destruct (P a) eqn:E; [exfalso; apply X; apply H; auto|].
      apply IH; auto.
    + assert (P a = true) as -> by (apply H; simpl; auto).
      simpl. f_equal. apply IH; auto.
      intros it I. rewrite <- (H it (or_intror I)). simpl.
      split; auto. intros [E|J]; auto.
      exfalso. apply N. rewrite E. apply in_map; auto.
Qed.

(** When the store fails no statement, a drained queue has sent one
    request for each submitted job of a known kind. *)
Lemma drained_requests t (w : World) acts s :
  run (init t w) acts = Some s ->
  existsb store_fails acts = false ->
  drains s = [] -> queue s = [] ->
  requested (trace s)
  = map id (filter (fun it => known_type (type (it_job it))) (submitted (trace s))).
Proof.
  intros R C D Q.
  assert (reachable t w s) as RS
    by (eapply run_reachable; [apply reach_init|eauto]).
  destruct (reachable_inv _ _ _ RS) as [S K].
  pose proof (reachable_content _ _ _ RS) as X.
  pose proof (core_ordered _ _ _ K) as O.
  assert (all_marked s) as M.
  { eapply (all_marked_run acts (init t w)); eauto.
    - apply init_inv.
    - intros i []. }
  pose proof (core_fifo _ _ _ K) as F. rewrite Q in F. simpl in F.
  apply subseq_filter.
  - apply ordered_submitted_nodup; auto.
  - fold (submitted_ids (trace s)). rewrite F.
    apply requested_subseq_taken; auto.
  - intros it I. split.
    + intros J.
      assert (exists rq, In (EvRequest (id it) rq) (trace s)) as [rq Y].
      { clear - J. induction (trace s) as [|e tr IH]; simpl in *; [tauto|].
        destruct e; simpl in *;
          try (destruct (IH J) as [rq Y]; exists rq; auto; fail).
        destruct J as [<-|J]; [exists r; auto|].
        destruct (IH J) as [rq Y]; exists rq; auto. }
      destruct (c_req _ _ X _ _ Y) as [it' [A [B Z]]].
      assert (it' = it) as -> by (eapply submitted_unique; eauto).
      eapply processItem_normal_known; eauto.
    + intros Y.
      assert (In (id it) (taken (trace s))) as T
        by (rewrite <- F; unfold submitted_ids; apply in_map; auto).
      destruct (M _ T) as [Z|[it' [E _]]]; [|rewrite D in E; discriminate].
      destruct (c_marked _ _ X _ Z) as [G|[it' [e [A [B [W _]]]]]]; auto.
      assert (it' = it) as -> by (eapply submitted_unique; eauto).
      destruct (processItem_known it Y) as [rq Z']. congruence.
Qed.

(** C2, amended. Settlement requests go out in submission order, at
    most one for a submitted job and none out of order; when the request
    of a job goes out, every job whose request went out before has its
    final status, has no continuation still running, and nothing of the
    loop body happens to it afterwards; a job of a known kind that was
    recorded as [processing] has had its request sent; and when the store
    fails no statement of the loop, a drained queue has sent exactly one
    request for each submitted job of a known kind, in submission order. *)
Theorem requests_in_submission_order (t : queue_table) (w : World)
    (acts : list (action World)) (s : state World) :
  run (init t w) acts = Some s ->
  NoDup (submitted_ids (trace s)) /\
  subseq (requested (trace s)) (submitted_ids (trace s)) /\
  (forall t2 k rq t1, trace s = t2 ++ EvRequest k rq :: t1 ->
     forall j, In j (requested t1) ->
       j <> k /\ terminal (status_of t1 j) = true /\ awaiting t1 j = false /\
       (forall x, In x t2 -> body_event x <> Some j)) /\
  (forall it, In it (submitted (trace s)) ->
     known_type (type (it_job it)) = true ->
     In (EvMark (id it) processing) (trace s) ->
     In (id it) (requested (trace s))) /\
  (existsb store_fails acts = false -> drains s = [] -> queue s = [] ->
   requested (trace s)
   = map id (filter (fun it => known_type (type (it_job it)))
                    (submitted (trace s)))).
Proof.
  intros RN.
  assert (reachable t w s) as R
    by (eapply run_reachable; [apply reach_init|eauto]).
  destruct (reachable_inv _ _ _ R) as [S C].
  pose proof (reachable_content _ _ _ R) as K.
  pose proof (core_ordered _ _ _ C) as O.
  split; [|split; [|split; [|split]]].
  - apply ordered_submitted_nodup; auto.
  - rewrite (core_fifo _ _ _ C). apply subseq_app_l.
    apply requested_subseq_taken; auto.
  - intros t2 k rq t1 E j J. rewrite E in O.
    pose proof (ordered_app _ _ O) as O1. simpl in O1.
    destruct O1 as [[W N] O1].
    assert (j <> k) as D by (intros ->; tauto).
    assert (In j (taken t1)) as T by (apply requested_taken; auto).
    assert (owner t1 <> Some j) as W' by congruence.
    destruct (left_behind t1 j O1 T W') as [A B].
    repeat split; auto.
    apply (left_behind_forever t2 (EvRequest k rq :: t1) j); auto.
  - intros it I Y M.
    destruct (c_marked _ _ K _ M) as [Q|[it' [e [A [B [X _]]]]]]; auto.
    assert (it' = it) as -> by (eapply submitted_unique; eauto).
    destruct (processItem_known it Y) as [rq Z]. congruence.
  - intros F D Q. eapply drained_requests; eauto.
Qed.

(** C9. A job whose kind is neither [card_to_id] nor [card_to_card]:
    [processItem] throws the unknown-kind error without posting anything;
    in every execution no request ever goes out for the job, it is never
    recorded as [completed], and from the moment it is recorded as
    [processing] that error is in the hands of the [catch] block. *)
Theorem unknown_kind_fails (t : queue_table) (w : World) (s : state World) (it : item World) :
  known_type (type (it_job it)) = false ->
  processItem it = Throw (unknown_type (type (it_job it))) /\
  (reachable t w s -> In it (submitted (trace s)) ->
   (forall rq, ~ In (EvRequest (id it) rq) (trace s)) /\
   ~ In (id it) (requested (trace s)) /\
   ~ In (EvMark (id it) completed) (trace s) /\
   (In (EvMark (id it) processing) (trace s) ->
    In (EvLog (id it) (unknown_type (type (it_job it)))) (trace s))).
Proof.
  intros U. pose proof (processItem_unknown it U) as PU.
  split; auto. intros R I.
  destruct (reachable_inv _ _ _ R) as [S C].
  pose proof (reachable_content _ _ _ R) as K.
  pose proof (core_ordered _ _ _ C) as O.
  assert (forall rq, ~ In (EvRequest (id it) rq) (trace s)) as NR.
  { intros rq J. destruct (c_req _ _ K _ _ J) as [it' [A [B X]]].
    assert (it' = it) as -> by (eapply submitted_unique; eauto). congruence. }
  assert (~ In (id it) (requested (trace s))) as NQ.
  { intros J. clear - J NR. induction (trace s) as [|e tr IH]; simpl in *; auto.
    destruct e; simpl in *;
      try (apply IH; auto; intros rq F; apply (NR rq); auto; fail).
    destruct J as [->|J]; [apply (NR r); auto|].
    apply IH; auto. intros rq F; apply (NR rq); auto. }
  repeat split; auto.
  - intros J. apply NQ. apply (c_completed _ _ K); auto.
  - intros M. destruct (c_marked _ _ K _ M) as [Q|[it' [e [A [B [X L]]]]]]; [tauto|].
    assert (it' = it) as -> by (eapply submitted_unique; eauto). congruence.
Qed.

(** *** Histories, continuations and the length of the loop *)

(** Nothing is recorded about an item the loop has not shifted. *)
Lemma untaken_history tr i :
  ordered tr -> ~ In i (taken tr) ->
  (forall w, invocations tr i w = O) /\
  (In i (submitted_ids tr) -> marks tr i = [pending]) /\
  (~ In i (submitted_ids tr) -> marks tr i = []).
Proof.
  induction tr as [|e tr IH]; simpl.
  - intros _ _. repeat split; auto. intros [].
  - intros [K O] N. unfold submitted_ids in *.
    destruct e; simpl in *;
      try (destruct (IH O) as [A [B C]]; [tauto|]);
      try (assert (i0 <> i) by (intros ->; apply N; apply owner_taken; tauto));
      try (assert (String.eqb i0 i = false) as -> by (apply String.eqb_neq; auto));
      try (repeat split; auto; fail).
    + destruct (String.eqb_spec (id it) i) as [<-|D].
      * repeat split; auto.
        -- intros _. rewrite C by auto. reflexivity.
        -- intros F. exfalso. apply F. left. reflexivity.
      * repeat split; auto; intros; try (apply B; tauto); try (apply C; tauto).
Qed.

Lemma marks_other (e : event World) tr i :
  body_event e <> Some i -> (forall it, e = EvSubmit it -> id it <> i) ->
  marks (e :: tr) i = marks tr i.
Proof.
  intros B S. destruct e; simpl in *; auto.
  - destruct (String.eqb_spec (id it) i) as [E|E]; auto. exfalso. eapply S; eauto.
  - destruct (String.eqb_spec i0 i) as [E|E]; auto. congruence.
Qed.

Lemma invocations_other (e : event World) tr i w :
  body_event e <> Some i -> invocations (e :: tr) i w = invocations tr i w.
Proof.
  intros B. destruct e; simpl in *; auto.
  destruct (String.eqb_spec i0 i) as [E|E]; auto. congruence.
Qed.

(** An event about the item held keeps what is recorded for the others. *)
Lemma history_log ds ds' tr (e : event World) i :
  history ds tr -> body_event e = Some i ->
  In (marks (e :: tr) i) histories ->
  (forall w, invocations (e :: tr) i w <= 1)%nat ->
  (forall k, e = EvInvoke k Success -> In (EvMark k completed) tr) ->
  (forall k, e = EvInvoke k Failure -> In (EvMark k failed) tr) ->
  (forall p, In p ds' -> pc_history (e :: tr) p) ->
  history ds' (e :: tr).
Proof.
  intros [M N S F H] B M' N' S' F' H'. constructor; auto.
  - intros j. destruct (string_dec i j) as [<-|D]; auto.
    rewrite marks_other; auto; try congruence.
    intros it E. subst e. discriminate.
  - intros j w. destruct (string_dec i j) as [<-|D]; auto.
    rewrite invocations_other; auto; congruence.
  - intros k [E|I]; [right; apply S'; auto|right; auto].
  - intros k [E|I]; [right; apply F'; auto|right; auto].
Qed.

Lemma history_same ds ds' tr :
  history ds tr -> (forall p, In p ds' -> pc_history tr p) -> history ds' tr.
Proof. intros [M N S F H] H'. constructor; auto. Qed.

Lemma queue_head_fresh it rest ds tr :
  core (it :: rest) ds tr ->
  marks tr (id it) = [pending] /\ forall w, invocations tr (id it) w = O.
Proof.
  intros [O F Q H I].
  assert (~ In (id it) (taken tr)) as N.
  { pose proof (ordered_submitted_nodup tr O) as D. rewrite F in D. simpl in D.
    rewrite <- app_assoc in D. simpl in D.
    apply NoDup_remove_2 in D. intros J. apply D. apply in_or_app; auto. }
  destruct (untaken_history tr (id it) O N) as [A [B _]].
  split; auto. apply B. unfold submitted_ids. apply in_map. apply Q. left; auto.
Qed.

Lemma history_take it rest ds tr :
  core (it :: rest) ds tr -> history ds tr ->
  history [AwaitProcessing it] (EvTake (id it) :: tr).
Proof.
  intros C [M N S F H]. destruct (queue_head_fresh _ _ _ _ C) as [A B].
  constructor; simpl; auto.
  - intros i [E|I]; [discriminate|right; auto].
  - intros i [E|I]; [discriminate|right; auto].
  - intros p [<-|[]]. simpl. auto.
Qed.

Ltac hist_goal :=
  simpl in *;
  repeat match goal with
         | H : _ /\ _ |- _ => destruct H
         | H : _ \/ _ |- _ => destruct H
         end;
  rewrite ?String.eqb_refl; simpl;
  repeat match goal with
         | H : marks _ _ = _ |- _ => rewrite H
         | H : invocations _ _ _ = _ |- _ => rewrite H
         end; simpl;
  repeat split; auto; try tauto; try congruence; try lia.

Ltac hist_side Hs :=
  first
  [ intros ? E; discriminate E
  | intros ? E; inversion E; subst; simpl; auto; fail
  | intros ? [<-|[]]; hist_goal; fail
  | intros ? []; fail
  | intros which_; simpl; apply (h_once _ _ Hs)
  | intros which_; destruct which_; hist_goal; try apply (h_once _ _ Hs); fail
  | hist_goal; try apply (h_marks _ _ Hs); fail ].

Ltac one_hist Hs :=
  eapply history_log; [eassumption | reflexivity | hist_side Hs ..].

Ltac two_hist Hs :=
  eapply history_log;
  [eapply (history_log _ []); [eassumption | reflexivity | hist_side Hs ..]
  | reflexivity | hist_side Hs ..].

Lemma resumed_history s p o s1 :
  core (queue s) [p] (trace s) -> history [p] (trace s) -> resumed s p o s1 ->
  history (match o with Some p' => [p'] | None => [] end) (trace s1).
Proof.
  intros C Hs R. pose proof (h_held _ _ Hs p (or_introl eq_refl)) as P.
  destruct R; simpl in P; cbn [log set_table set_world set_trace queue trace].
  all: try (one_hist Hs; fail).
  all: try (two_hist Hs; fail).
  all: try (eapply history_same; [eassumption|intros ? [<-|[]]; hist_goal]; fail).
  unfold loop_head. destruct (queue s) as [|it rest] eqn:Q; simpl.
  - eapply history_same; [eassumption|intros ? []].
  - eapply history_take; eauto.
Qed.

Lemma moves_history s s' :
  Inv s -> history (drains s) (trace s) -> moves s s' ->
  history (drains s') (trace s').
Proof.
  intros [S C] Hs M. destruct M.
  - simpl. pose proof (core_ordered _ _ _ C) as O.
    assert (~ In uuid (taken (trace s))) as N
      by (intros I; apply H0; apply ordered_taken_submitted; auto).
    destruct (untaken_history _ uuid O N) as [A [_ B]].
    destruct Hs as [M1 N1 S1 F1 H1].
    assert (forall p, In p (drains s) -> forall it', held p = Some it' -> id it' <> uuid) as D.
    { intros p I it' E <-. apply H0. pose proof (core_held _ _ _ C p I) as K.
      unfold submitted_ids.
      destruct p; simpl in *; inversion E; subst; unfold at_item in K;
        apply in_map; tauto. }
    constructor; simpl.
    + intros i. destruct (String.eqb_spec uuid i) as [<-|E]; [|exact (M1 i)].
      rewrite B by auto. simpl. auto.
    + auto.
    + intros i [E|I]; [discriminate|right; auto].
    + intros i [E|I]; [discriminate|right; auto].
    + intros p I. specialize (H1 p I). specialize (D p I).
      destruct p; simpl in *; auto;
        (assert (String.eqb uuid (id it) = false) as ->
           by (apply String.eqb_neq; intros E; eapply D; eauto); auto).
  - destruct r as [e|]; cbn; auto.
    destruct (isProcessing s) eqn:F; cbn; auto.
    unfold process; cbn.
    destruct S as [[D _]|[q [_ F']]]; [|congruence].
    destruct (queue s) as [|it' rest] eqn:Q; cbn; auto.
    rewrite D in *. simpl. eapply history_take; eauto.
  - destruct (single_nth _ _ _ S H) as [D [-> F]].
    rewrite D in C, Hs. pose proof (resumed_history _ _ _ _ C Hs H0) as C'.
    pose proof (resumed_drains _ _ _ _ H0) as E.
    destruct o; simpl; rewrite E, D; simpl; auto.
Qed.

Lemma init_history t (w : World) : history (drains (init t w)) (trace (init t w)).
Proof. constructor; simpl; auto; try tauto. Qed.

Lemma reachable_history t (w : World) s :
  reachable t w s -> history (drains s) (trace s).
Proof.
  induction 1; [apply init_history|].
  eapply moves_history; eauto using step_moves, reachable_inv.
Qed.

(** X1. The status history of a job.  In every execution the statuses the
    processor has recorded for one identifier, in order, are a prefix of
    pending, processing, completed, or one of these prefixes followed by
    failed: nothing is recorded before pending or after failed, no status
    twice, and completed only after processing. *)
Theorem status_history_shape (t : queue_table) (w : World) (s : state World)
    (i : string) :
  reachable t w s ->
  In (marks (trace s) i)
     [ []; [pending]; [pending; processing]; [pending; processing; completed];
       [pending; processing; completed; failed]; [pending; processing; failed];
       [pending; failed] ].
Proof. intros R. apply (h_marks _ _ (reachable_history _ _ _ R)). Qed.

(** X2. The continuations of a job.  In every execution [onSuccess] is
    called at most once for a job and [onError] at most once; [onSuccess]
    only once the job is recorded as [completed] and its request has gone
    out, [onError] only once the job is recorded as [failed]. *)
Theorem continuations_called_once (t : queue_table) (w : World) (s : state World)
    (i : string) :
  reachable t w s ->
  (invocations (trace s) i Success <= 1)%nat /\
  (invocations (trace s) i Failure <= 1)%nat /\
  (In (EvInvoke i Success) (trace s) ->
   In (EvMark i completed) (trace s) /\ In i (requested (trace s))) /\
  (In (EvInvoke i Failure) (trace s) -> In (EvMark i failed) (trace s)).
Proof.
  intros R. pose proof (reachable_history _ _ _ R) as H.
  pose proof (reachable_content _ _ _ R) as K.
  split; [apply (h_once _ _ H)|]. split; [apply (h_once _ _ H)|].
  split; [|apply (h_failure _ _ H)].
  intros I. pose proof (h_success _ _ H _ I) as M.
  split; [exact M|]. apply (c_completed _ _ K); exact M.
Qed.

(** X3. Every request the settlement client receives is the request of a
    submitted job: the endpoint is chosen by the job's kind, the cards
    and the recipient are those of its payload, and the amount is the text
    [formatCoinAmount] makes of the payload's amount. *)
Theorem request_of_submitted_job (t : queue_table) (w : World) (s : state World)
    (i : string) (rq : request) :
  reachable t w s -> In (EvRequest i rq) (trace s) ->
  exists it,
    In it (submitted (trace s)) /\ id it = i /\
    amount_text rq = formatCoinAmount (amount (payload (it_job it))) /\
    ((type (it_job it) = "card_to_id"%string /\
      rq = TransferCard (fromCard (payload (it_job it))) (toId (payload (it_job it)))
             (formatCoinAmount (amount (payload (it_job it))))) \/
     (type (it_job it) = "card_to_card"%string /\
      rq = CardPay (fromCard (payload (it_job it))) (toCard (payload (it_job it)))
             (formatCoinAmount (amount (payload (it_job it)))))).
Proof.
  intros R I. pose proof (reachable_content _ _ _ R) as K.
  destruct (c_req _ _ K _ _ I) as [it [A [B C]]].
  exists it. split; [exact A|]. split; [exact B|].
  unfold processItem in C.
  destruct (String.eqb_spec (type (it_job it)) "card_to_id") as [E|E].
  - inversion C; subst. split; [reflexivity|]. left. split; auto.
  - destruct (String.eqb_spec (type (it_job it)) "card_to_card") as [E'|E'].
    + inversion C; subst. split; [reflexivity|]. right. split; auto.
    + discriminate.
Qed.

(** X4. The queue holds the submitted jobs the loop has not shifted, in the
    order of their submission, and the loop has shifted the others in
    that order: no job is dropped, duplicated or overtaken. *)
Theorem queue_is_fifo (t : queue_table) (w : World) (s : state World) :
  reachable t w s ->
  rev (submitted_ids (trace s)) = rev (taken (trace s)) ++ map id (queue s) /\
  NoDup (submitted_ids (trace s)) /\
  (forall it, In it (queue s) -> In it (submitted (trace s))).
Proof.
  intros R. destruct (reachable_inv _ _ _ R) as [_ C].
  split; [|split].
  - rewrite (core_fifo _ _ _ C), rev_app_distr, rev_involutive. reflexivity.
  - apply ordered_submitted_nodup. apply (core_ordered _ _ _ C).
  - apply (core_queue _ _ _ C).
Qed.

Lemma resumed_world s p o s1 :
  resumed s p o s1 ->
  exists evs, trace s1 = evs ++ trace s /\ adds s1 = adds s /\
    (world s1 = world s \/ exists i v, In (EvInvoke i v) evs).
Proof.
  destruct 1; cbn [log set_table set_world set_trace trace world adds].
  all: try (exists []; repeat split; auto; fail).
  all: try (eexists [_]; repeat split; auto; fail).
  all: try (eexists [_; _]; repeat split; auto; fail).
  all: try (eexists [_; _]; split; [reflexivity|]; split; [reflexivity|];
            right; eexists; eexists; left; reflexivity).
  unfold loop_head. destruct (queue s); simpl.
  - exists []; repeat split; auto.
  - eexists [_]; repeat split; auto.
Qed.

Lemma moves_world s s' :
  moves s s' ->
  exists evs, trace s' = evs ++ trace s /\
    (world s' = world s \/ exists i v, In (EvInvoke i v) evs) /\
    (forall it, In it (adds s') -> In it (adds s) \/ In it (submitted evs)).
Proof.
  destruct 1.
  - eexists [_]. simpl. repeat split; auto.
    intros it I. apply in_app_or in I. destruct I as [I|[<-|[]]]; auto.
    right. left. reflexivity.
  - assert (forall it', In it' (remove_nth n (adds s)) -> In it' (adds s)) as G.
    { generalize (adds s). clear. induction n; destruct l; simpl; auto.
      intros it' [E|I]; auto. }
    destruct r as [e|]; cbn.
    + exists []. repeat split; auto.
    + destruct (isProcessing s); cbn.
      * exists []. repeat split; auto.
      * unfold process; cbn. destruct (queue s); cbn.
        -- exists []. repeat split; auto.
        -- eexists [_]. repeat split; auto.
  - destruct (resumed_world _ _ _ _ H0) as [evs [E [A W]]].
    exists evs. destruct o; simpl; rewrite A; repeat split; auto.
Qed.

Lemma reachable_adds t (w : World) s :
  reachable t w s -> forall it, In it (adds s) -> In it (submitted (trace s)).
Proof.
  induction 1 as [|s a s' R IH ST]; intros it I; [destruct I|].
  destruct (moves_world _ _ (step_moves _ _ _ ST)) as [evs [E [_ A]]].
  rewrite E. destruct (A it I) as [J|J].
  - apply submitted_mono. auto.
  - clear - J. induction evs as [|e evs IHe]; simpl in *; [tauto|].
    destruct e; simpl in *; auto. destruct J; auto.
Qed.

(** X6. A call of [add] whose INSERT fails rejects without writing a row and
    without starting the loop, and it does not take back the job it has
    pushed: the queue is as it was, and the job is in it, or a loop
    that was running has shifted it already. *)
Theorem rejected_add_keeps_job (t : queue_table) (w : World) (s s' : state World)
    (n : nat) (it : item World) (e : error) :
  reachable t w s -> nth_error (adds s) n = Some it ->
  step s (InsertSettled n (Some e)) = Some s' ->
  queue s' = queue s /\
  table s' = table s /\ drains s' = drains s /\ trace s' = trace s /\
  isProcessing s' = isProcessing s /\
  (In it (queue s') \/ In (id it) (taken (trace s'))).
Proof.
  intros R N ST. simpl in ST. rewrite N in ST. inversion ST; subst; clear ST.
  cbn. repeat split; auto.
  destruct (reachable_inv _ _ _ R) as [_ C].
  pose proof (reachable_adds _ _ _ R it (nth_error_In _ _ N)) as I.
  assert (In (id it) (submitted_ids (trace s))) as J
    by (unfold submitted_ids; apply in_map; auto).
  rewrite (core_fifo _ _ _ C) in J. apply in_app_or in J. destruct J as [J|J]; auto.
  left. apply in_rev in J. apply in_map_iff in J. destruct J as [it' [E Q]].
  assert (it' = it) as <-; auto.
  eapply submitted_unique; eauto.
  - apply (core_ordered _ _ _ C).
  - apply (core_queue _ _ _ C); auto.
Qed.

Lemma remove_nth_length {A} (l : list A) : forall n x,
  nth_error l n = Some x -> S (List.length (remove_nth n l)) = List.length l.
Proof.
  induction l as [|a l IH]; intros [|n] x H; simpl in *; try discriminate; auto.
  rewrite (IH n x H). reflexivity.
Qed.

Lemma remove_nth_rank (l : list (pc World)) : forall n p,
  nth_error l n = Some p ->
  (list_sum (map rank (remove_nth n l)) + rank p = list_sum (map rank l))%nat.
Proof.
  induction l as [|a l IH]; intros [|n] p H; simpl in *; try discriminate.
  - inversion H; subst. lia.
  - specialize (IH n p H). lia.
Qed.

Lemma replace_nth_rank (l : list (pc World)) : forall n p p',
  nth_error l n = Some p ->
  (list_sum (map rank (replace_nth n p' l)) + rank p
   = list_sum (map rank l) + rank p')%nat.
Proof.
  induction l as [|a l IH]; intros [|n] p p' H; simpl in *; try discriminate.
  - inversion H; subst. lia.
  - specialize (IH n p p' H). lia.
Qed.

(** A resumed call of [process] is nearer to its end. *)
Lemma resumed_rank s p o s1 :
  resumed s p o s1 ->
  adds s1 = adds s /\
  (8 * List.length (queue s1) + match o with Some p' => rank p' | None => 0 end
   < 8 * List.length (queue s) + rank p)%nat.
Proof.
  destruct 1; cbn [log set_table set_world set_trace adds queue rank];
    try (split; [reflexivity|lia]).
  unfold loop_head. destruct (queue s); simpl; split; auto; lia.
Qed.

Lemma resume_steps_left n k s s' :
  (forall p o s1, k p s = Some (o, s1) -> resumed s p o s1) ->
  resume n k s = Some s' -> (steps_left s' < steps_left s)%nat.
Proof.
  intros K H. unfold resume in H.
  destruct (nth_error (drains s) n) as [p|] eqn:N; [|discriminate].
  destruct (k p s) as [[o s1]|] eqn:E; [|discriminate].
  pose proof (K _ _ _ E) as R.
  destruct (resumed_rank _ _ _ _ R) as [A Q].
  pose proof (resumed_drains _ _ _ _ R) as D.
  unfold steps_left.
  destruct o as [p'|]; inversion H; subst; clear H; simpl; rewrite A, D.
  - pose proof (replace_nth_rank (drains s) n p p' N). lia.
  - pose proof (remove_nth_rank (drains s) n p N). lia.
Qed.

Ltac sums :=
  repeat match goal with
         | |- context [fold_right Init.Nat.add 0%nat ?x] =>
             change (fold_right Init.Nat.add 0%nat x) with (list_sum x)
         end.

Lemma step_steps_left s a s' :
  step s a = Some s' -> submits a = false -> (steps_left s' < steps_left s)%nat.
Proof.
  destruct a; simpl; intros ST NA; try discriminate.
  - destruct (nth_error (adds s) n) as [it|] eqn:N; [|discriminate].
    inversion ST; subst; clear ST.
    pose proof (remove_nth_length (adds s) n it N) as L.
    unfold steps_left.
    destruct r as [e|]; cbn; sums; [lia|].
    destruct (isProcessing s); cbn; sums; [lia|].
    unfold process; cbn. destruct (queue s) as [|it' rest]; cbn; sums; [lia|].
    rewrite map_app, list_sum_app. simpl. lia.
  - eapply resume_steps_left; eauto. intros; eapply resume_db_resumed; eauto.
  - eapply resume_steps_left; eauto. intros; eapply resume_http_resumed; eauto.
  - eapply resume_steps_left; eauto. intros; eapply resume_continuation_resumed; eauto.
  - eapply resume_steps_left; eauto. intros; eapply resume_timer_resumed; eauto.
Qed.

(** X7. The loop is finite.  Once nothing more is submitted, every run,
    whatever the store, the settlement client and the continuations
    answer, has at most [steps_left] steps: one for each INSERT awaited,
    eight for each job in the queue, and what the suspended call of
    [process] has left. *)
Theorem drain_terminates (s s' : state World) (acts : list (action World)) :
  run s acts = Some s' -> existsb submits acts = false ->
  (List.length acts + steps_left s' <= steps_left s)%nat.
Proof.
  revert s. induction acts as [|a acts IH]; simpl; intros s R N.
  - inversion R; subst. lia.
  - apply orb_false_iff in N. destruct N as [N1 N2].
    destruct (step s a) as [s1|] eqn:E; [|discriminate].
    pose proof (step_steps_left _ _ _ E N1). specialize (IH _ R N2). lia.
Qed.

Lemma run_trace_grows acts : forall s s',
  run s acts = Some s' -> exists evs, trace s' = evs ++ trace s.
Proof.
  induction acts as [|a acts IH]; simpl; intros s s' R.
  - inversion R; subst. exists []. reflexivity.
  - destruct (step s a) as [s1|] eqn:E; [|discriminate].
    destruct (IH _ _ R) as [e2 E2].
    assert (exists e1, trace s1 = e1 ++ trace s) as [e1 E1].
    { apply step_moves in E. destruct E.
      - eexists [_]. reflexivity.
      - destruct r as [e|]; cbn; [exists []; reflexivity|].
        destruct (isProcessing s); cbn; [exists []; reflexivity|].
        unfold process; cbn. destruct (queue s); cbn; [exists []; reflexivity|].
        eexists [_]. reflexivity.
      - assert (exists evs, trace s1 = evs ++ trace s) as [evs X].
        { destruct H0; cbn [log set_table set_world set_trace trace];
            try (exists []; reflexivity); try (eexists [_]; reflexivity);
            try (eexists [_; _]; reflexivity).
          unfold loop_head. destruct (queue s); simpl;
            [exists []; reflexivity|eexists [_]; reflexivity]. }
        exists evs. destruct o; simpl; auto. }
    exists (e2 ++ e1). rewrite E2, E1, app_assoc. reflexivity.
Qed.

Lemma safe_step s a s' :
  Inv s -> (forall p, In p (drains s) -> safe p) -> store_fails a = false ->
  step s a = Some s' ->
  (forall it, In it (submitted (trace s)) -> onError (it_job it) = None) ->
  forall p, In p (drains s') -> safe p.
Proof.
  intros [S C] SF NF ST NE.
  assert (forall n p p' (s2 : state World) x,
            nth_error (drains s) n = Some p -> In x (drains s2) ->
            drains s2 = replace_nth n p' (drains s) -> safe p' -> safe x)
    as G.
  { intros n p p' s2 x N I D P. destruct (single_nth _ _ _ S N) as [D' [-> _]].
    rewrite D, D' in I. simpl in I. destruct I as [<-|[]]. auto. }
  assert (forall n p (s2 : state World) x,
            nth_error (drains s) n = Some p -> In x (drains s2) ->
            drains s2 = remove_nth n (drains s) -> safe x)
    as G0.
  { intros n p s2 x N I D. destruct (single_nth _ _ _ S N) as [D' [-> _]].
    rewrite D, D' in I. destruct I. }
  destruct a; simpl in ST.
  - destruct (_ && _); [|discriminate]. inversion ST; subst. exact SF.
  - destruct (nth_error (adds s) n) as [it|]; [|discriminate].
    inversion ST; subst; clear ST. destruct r as [e|]; cbn; auto.
    destruct (isProcessing s) eqn:F; cbn; auto.
    unfold process; cbn. destruct (queue s); cbn; auto.
    intros p I. apply in_app_or in I. destruct I as [I|[<-|[]]]; simpl; auto.
  - destruct r as [e|]; [discriminate|].
    unfold resume in ST. destruct (nth_error (drains s) n) as [p|] eqn:N; [|discriminate].
    assert (In p (drains s)) as I by (eapply nth_error_In; eauto).
    pose proof (core_held _ _ _ C p I) as P.
    destruct p; simpl in ST; try discriminate.
    + destruct (processItem it); inversion ST; subst; clear ST;
        intros x X; (eapply (G n _ _ _ _ N X); [reflexivity|simpl; auto]).
    + destruct (onSuccess (it_job it)) as [f|].
      * destruct (f r (world _)); inversion ST; subst; clear ST.
        intros x X; (eapply (G n _ _ _ _ N X); [reflexivity|simpl; auto]).
      * inversion ST; subst; clear ST. intros x X; (eapply (G n _ _ _ _ N X); [reflexivity|simpl; auto]).
    + assert (onError (it_job it) = None) as OE.
      { apply NE. simpl in P. unfold at_item in P. tauto. }
      rewrite OE in ST. inversion ST; subst; clear ST. intros x X; (eapply (G n _ _ _ _ N X); [reflexivity|simpl; auto]).
  - unfold resume in ST. destruct (nth_error (drains s) n) as [p|] eqn:N; [|discriminate].
    destruct p; simpl in ST; try discriminate.
    destruct (transferResult o); inversion ST; subst; clear ST;
      intros x X; (eapply (G n _ _ _ _ N X); [reflexivity|simpl; auto]).
  - unfold resume in ST. destruct (nth_error (drains s) n) as [p|] eqn:N; [|discriminate].
    assert (In p (drains s)) as I by (eapply nth_error_In; eauto).
    specialize (SF p I).
    destruct p; simpl in ST; try discriminate; simpl in SF; try tauto.
    destruct c; inversion ST; subst; clear ST; intros x X; (eapply (G n _ _ _ _ N X); [reflexivity|simpl; auto]).
  - unfold resume in ST. destruct (nth_error (drains s) n) as [p|] eqn:N; [|discriminate].
    destruct p; simpl in ST; try discriminate.
    unfold loop_head in ST. destruct (queue s); inversion ST; subst; clear ST.
    + intros x X; (eapply (G0 n _ _ _ N X); reflexivity).
    + intros x X; (eapply (G n _ _ _ _ N X); [reflexivity|simpl; auto]).
Qed.

(** *** The loop comes to its end *)

Lemma resume_resumed n k s s' :
  (forall p o s1, k p s = Some (o, s1) -> resumed s p o s1) ->
  resume n k s = Some s' ->
  exists p o s1, nth_error (drains s) n = Some p /\ resumed s p o s1 /\
    isProcessing s' = isProcessing s1 /\ queue s' = queue s1 /\
    adds s' = adds s1 /\ trace s' = trace s1.
Proof.
  intros K H. unfold resume in H.
  destruct (nth_error (drains s) n) as [p|] eqn:N; [|discriminate].
  destruct (k p s) as [[o s1]|] eqn:E; [|discriminate].
  exists p, o, s1. split; auto. split; [apply K; exact E|].
  destruct o; inversion H; subst; simpl; auto.
Qed.

Lemma resumed_rest s p o s1 :
  resumed s p o s1 ->
  (isProcessing s1 = isProcessing s \/ queue s1 = []) /\
  submitted (trace s1) = submitted (trace s).
Proof.
  destruct 1; cbn [log set_table set_world set_trace trace isProcessing queue submitted];
    auto.
  unfold loop_head. destruct (queue s); simpl; auto.
Qed.

Lemma step_resumed s a s' :
  step s a = Some s' -> submits a = false ->
  (exists n r, a = InsertSettled n r) \/
  exists n p o s1, nth_error (drains s) n = Some p /\ resumed s p o s1 /\
    isProcessing s' = isProcessing s1 /\ queue s' = queue s1 /\
    adds s' = adds s1 /\ trace s' = trace s1.
Proof.
  destruct a; simpl; intros ST NA; try discriminate.
  - left. eauto.
  - right. exists n. eapply resume_resumed; eauto.
    intros; eapply resume_db_resumed; eauto.
  - right. exists n. eapply resume_resumed; eauto.
    intros; eapply resume_http_resumed; eauto.
  - right. exists n. eapply resume_resumed; eauto.
    intros; eapply resume_continuation_resumed; eauto.
  - right. exists n. eapply resume_resumed; eauto.
    intros; eapply resume_timer_resumed; eauto.
Qed.

Lemma step_submitted s a s' :
  step s a = Some s' -> submits a = false ->
  submitted (trace s') = submitted (trace s).
Proof.
  intros ST NA.
  destruct (step_resumed _ _ _ ST NA) as [[n [r ->]]|[n [p [o [s1 [_ [R [_ [_ [_ T]]]]]]]]]].
  - simpl in ST. destruct (nth_error (adds s) n) as [it|]; [|discriminate].
    inversion ST; subst; clear ST. destruct r as [e|]; cbn; auto.
    destruct (isProcessing s); cbn; auto.
    unfold process; cbn. destruct (queue s); cbn; auto.
  - rewrite T. apply (resumed_rest _ _ _ _ R).
Qed.

(** As long as no INSERT is rejected, the queue is empty whenever no
    call of [process] runs and no call of [add] is suspended. *)
Lemma waiting_step s a s' :
  single_drain s -> waiting s -> insert_fails a = false ->
  step s a = Some s' -> waiting s'.
Proof.
  intros S W NF ST. destruct (submits a) eqn:NA.
  - destruct a; try discriminate. simpl in ST.
    destruct (_ && _); [|discriminate]. inversion ST; subst; clear ST.
    intros F it I. simpl in *. apply in_app_or in I. apply in_or_app.
    destruct I as [I|I]; auto.
  - destruct (step_resumed _ _ _ ST NA)
      as [[n [r ->]]|[n [p [o [s1 [N [R [F [Q [A T]]]]]]]]]].
    + simpl in ST. destruct (nth_error (adds s) n) as [it|]; [|discriminate].
      inversion ST; subst; clear ST. destruct r as [e|]; [discriminate|]. cbn.
      destruct (isProcessing s) eqn:P; cbn.
      * intros X. simpl in X. congruence.
      * unfold process; cbn.
        destruct (queue s); cbn; [intros _ it' []|intros X; discriminate].
    + destruct (single_nth _ _ _ S N) as [_ [_ P]].
      destruct (resumed_rest _ _ _ _ R) as [[X|X] _]; intros Y it I.
      * congruence.
      * rewrite Q, X in I. destruct I.
Qed.

Lemma run_waiting acts : forall s s',
  Inv s -> waiting s -> existsb insert_fails acts = false ->
  run s acts = Some s' -> waiting s'.
Proof.
  induction acts as [|a acts IH]; simpl; intros s s' V W F R.
  - inversion R; subst; auto.
  - apply orb_false_iff in F. destruct F as [F1 F2].
    destruct (step s a) as [s1|] eqn:E; [|discriminate].
    apply (IH s1 s'); auto.
    + eapply moves_inv; eauto using step_moves.
    + eapply waiting_step; eauto. apply V.
Qed.

(** At rest every job has been processed. *)
Lemma rest_processed s :
  Inv s -> waiting s -> adds s = [] -> isProcessing s = false ->
  queue s = [] /\ all_processed s.
Proof.
  intros [S C] W A F.
  assert (queue s = []) as Q.
  { destruct (queue s) as [|it q] eqn:Q; auto.
    specialize (W F it). rewrite Q, A in W. destruct (W (or_introl eq_refl)). }
  split; auto. intros it I.
  assert (drains s = []) as D by (destruct S as [[D _]|[p [_ X]]]; [auto|congruence]).
  pose proof (core_idle _ _ _ C D) as QT.
  pose proof (core_fifo _ _ _ C) as FF. rewrite Q in FF. simpl in FF.
  assert (In (id it) (taken (trace s))) as T
    by (rewrite <- FF; unfold submitted_ids; apply in_map; exact I).
  split; auto.
  unfold quiet in QT. destruct (owner (trace s)) as [k|] eqn:O.
  - destruct (string_dec k (id it)) as [<-|N]; [tauto|].
    apply (left_behind (trace s) (id it)); auto.
    + apply (core_ordered _ _ _ C).
    + rewrite O. congruence.
  - apply (left_behind (trace s) (id it)); auto.
    + apply (core_ordered _ _ _ C).
    + rewrite O. discriminate.
Qed.

(** A call of [add] suspended at its INSERT, or a call of [process]
    suspended in the loop, can go on. *)
Lemma progress s :
  single_drain s -> (forall p, In p (drains s) -> safe p) ->
  adds s <> [] \/ isProcessing s = true ->
  exists a s1, step s a = Some s1 /\ submits a = false /\
               store_fails a = false /\ insert_fails a = false.
Proof.
  intros S SF H.
  destruct (adds s) as [|it l] eqn:A.
  - destruct H as [H|H]; [congruence|].
    destruct S as [[_ X]|[p [D _]]]; [congruence|].
    assert (safe p) as P by (apply SF; rewrite D; left; reflexivity).
    destruct p; simpl in P; try tauto.
    + exists (DbSettled 0 None). unfold step, resume. rewrite D.
      cbn [nth_error resume_db]. destruct (processItem it); cbn;
        eexists; repeat split.
    + exists (HttpSettled 0 (HttpRejected (Error ""))). unfold step, resume.
      rewrite D. cbn. eexists; repeat split.
    + exists (DbSettled 0 None). unfold step, resume. rewrite D.
      cbn [nth_error resume_db]. destruct (onSuccess (it_job it)) as [f|].
      * destruct (f r _); eexists; repeat split.
      * eexists; repeat split.
    + exists (ContinuationSettled 0). unfold step, resume. rewrite D.
      cbn [nth_error resume_continuation]. destruct c; eexists; repeat split.
    + exists (DbSettled 0 None). unfold step, resume. rewrite D.
      cbn [nth_error resume_db]. destruct (onError (it_job it)) as [f|].
      * destruct (f e _); eexists; repeat split.
      * eexists; repeat split.
    + exists (TimerFired 0). unfold step, resume. rewrite D.
      cbn [nth_error resume_timer]. destruct (loop_head s) as [[p|] s2];
        eexists; repeat split.
  - exists (InsertSettled 0 None). simpl. rewrite A. simpl.
    eexists; repeat split.
Qed.

Lemma rest_or_step s :
  single_drain s -> (forall p, In p (drains s) -> safe p) ->
  (adds s = [] /\ isProcessing s = false) \/
  exists a s1, step s a = Some s1 /\ submits a = false /\
               store_fails a = false /\ insert_fails a = false.
Proof.
  intros S SF. destruct (adds s) as [|it0 l0] eqn:A.
  - destruct (isProcessing s) eqn:F; [right|left; auto].
    apply progress; auto.
  - right. apply progress; auto. left. rewrite A. discriminate.
Qed.

(** From a state in which no call of [process] has thrown, and with jobs
    that have no [onError], the INSERTs and the loop can be run to their
    end, and then every job has been processed. *)
Lemma completion n : forall s,
  (steps_left s <= n)%nat -> Inv s -> waiting s ->
  (forall p, In p (drains s) -> safe p) ->
  (forall it, In it (submitted (trace s)) -> onError (it_job it) = None) ->
  exists more s',
    run s more = Some s' /\ existsb submits more = false /\
    submitted (trace s') = submitted (trace s) /\
    adds s' = [] /\ isProcessing s' = false /\ queue s' = [] /\
    all_processed s'.
Proof.
  induction n as [|n IH]; intros s L V W SF NE;
    destruct (rest_or_step s (proj1 V) SF)
      as [[A F]|[a [s1 [ST [NA [NS NI]]]]]].
  - destruct (rest_processed s V W A F) as [Q P].
    exists [], s. simpl. repeat (split; [solve [auto]|]). exact P.
  - pose proof (step_steps_left _ _ _ ST NA) as LT. lia.
  - destruct (rest_processed s V W A F) as [Q P].
    exists [], s. simpl. repeat (split; [solve [auto]|]). exact P.
  - pose proof (step_steps_left _ _ _ ST NA) as LT.
    pose proof (step_submitted _ _ _ ST NA) as SB1.
    destruct (IH s1) as [more [s' [R [NM [SB [A' [F' [Q' P']]]]]]]].
    + lia.
    + eapply moves_inv; eauto using step_moves.
    + eapply waiting_step; eauto. apply V.
    + eapply safe_step; eauto.
    + rewrite SB1. exact NE.
    + exists (a :: more), s'. simpl. rewrite ST, NA. simpl.
      rewrite <- SB1. repeat (split; [solve [auto]|]). exact P'.
Qed.

(** X8. Jobs without [onError] do not stop the loop.  As long as the store
    acknowledges the statements of the loop, no call of [process] ends by
    an exception, so [isProcessing] is set only while a call is
    suspended in the loop.  When no INSERT of [add] was rejected either,
    every job is processed: in a state where nothing is awaited every
    job submitted has been shifted and has its final status, and from
    every state the INSERTs and the loop can be run to such a state
    without a further submission. *)
Theorem jobs_without_onError_keep_the_loop (t : queue_table) (w : World)
    (acts : list (action World)) (s : state World) :
  run (init t w) acts = Some s ->
  existsb store_fails acts = false ->
  (forall it, In it (submitted (trace s)) -> onError (it_job it) = None) ->
  (forall it e, ~ In (Rejected it e) (drains s)) /\
  (isProcessing s = true ->
   exists p, drains s = [p] /\ forall it e, p <> Rejected it e) /\
  (existsb insert_fails acts = false ->
   (adds s = [] -> isProcessing s = false -> queue s = [] /\ all_processed s) /\
   exists more s',
     run s more = Some s' /\ existsb submits more = false /\
     submitted (trace s') = submitted (trace s) /\
     adds s' = [] /\ isProcessing s' = false /\ queue s' = [] /\
     all_processed s').
Proof.
  intros R F N.
  assert (forall p, In p (drains s) -> safe p) as SF.
  { assert (forall s0, Inv s0 -> (forall p, In p (drains s0) -> safe p) ->
              run s0 acts = Some s -> forall p, In p (drains s) -> safe p) as G.
    { clear R. induction acts as [|a acts IH]; simpl; intros s0 V S0 R.
      - inversion R; subst; auto.
      - simpl in F. apply orb_false_iff in F. destruct F as [F1 F2].
        destruct (step s0 a) as [s1|] eqn:E; [|discriminate].
        apply (IH F2 s1); auto.
        + eapply moves_inv; eauto using step_moves.
        + eapply safe_step; eauto. intros it I. apply N.
          destruct (run_trace_grows _ _ _ R) as [e2 E2].
          assert (exists e1, trace s1 = e1 ++ trace s0) as [e1 E1]
            by (apply (run_trace_grows [a]); simpl; rewrite E; reflexivity).
          rewrite E2, E1. apply submitted_mono. apply submitted_mono. exact I. }
    apply (G (init t w)); auto using init_inv. intros p []. }
  assert (reachable t w s) as RS
    by (eapply run_reachable; [apply reach_init|eauto]).
  pose proof (reachable_inv _ _ _ RS) as V.
  split; [|split].
  - intros it e I. apply (SF _ I).
  - intros P.
    destruct V as [[[_ X]|[p [D _]]] _]; [congruence|].
    exists p. split; auto. intros it e ->.
    apply (SF (Rejected it e)). rewrite D. left; reflexivity.
  - intros NI.
    assert (waiting s) as W.
    { apply (run_waiting acts (init t w) s); auto using init_inv.
      intros _ it []. }
    split.
    + intros A P. apply rest_processed; auto.
    + apply (completion (steps_left s)); auto.
Qed.






End QueueProofs.

(** ** The executions of the examples *)

Lemma after_reachable {W : Type} (w : W) acts : reachable empty_table w (after w acts).
Proof.
  unfold after. destruct (run (init empty_table w) acts) as [s|] eqn:E.
  - eapply run_reachable; [apply reach_init|exact E].
  - apply reach_init.
Qed.

(** Witness of C1: after the first UPDATE of the first job is
    acknowledged, the job is [processing] and the flag is set. *)
Lemma one_job_processing_witness :
  status_of (trace (after tt (firstn 3 plain_run))) id1 = Some processing /\
  isProcessing (after tt (firstn 3 plain_run)) = true.
Proof.
  split; [vm_compute; reflexivity|].
  destruct (one_job_processing empty_table tt (after tt (firstn 3 plain_run))
              (after_reachable tt (firstn 3 plain_run))) as [_ [_ [H _]]].
  apply (proj1 (H id1 ltac:(vm_compute; reflexivity))).
Defined.

(** C2 as stated fails: two jobs are submitted, the first of a kind the
    processor does not know; when the queue has drained the settlement
    client has received one request, not two. *)
Lemma two_jobs_one_request :
  let s := after tt unknown_then_known_run in
  drains s = [] /\ queue s = [] /\ adds s = [] /\ isProcessing s = false /\
  rev (submitted_ids (trace s)) = [id1; id2] /\
  rev (requested (trace s)) = [id2].
Proof. vm_compute. repeat split; reflexivity. Qed.

(** Witness of the amended C2 on that run. *)
Lemma requests_in_submission_order_witness :
  requested (trace (after tt unknown_then_known_run)) = [id2].
Proof.
  assert (run (init empty_table tt) unknown_then_known_run
          = Some (after tt unknown_then_known_run)) as R
    by (vm_compute; reflexivity).
  destruct (requests_in_submission_order empty_table tt unknown_then_known_run
              (after tt unknown_then_known_run) R) as [_ [_ [_ [_ H]]]].
  rewrite H; vm_compute; reflexivity.
Defined.

(** Witness of C9 on the same run: the job of kind [refund]. *)
Lemma unknown_kind_fails_witness :
  processItem unknown_item = Throw (unknown_type "refund") /\
  ~ In id1 (requested (trace (after tt unknown_then_known_run))).
Proof.
  destruct (unknown_kind_fails empty_table tt (after tt unknown_then_known_run)
              unknown_item eq_refl) as [H K].
  split; [exact H|].
  assert (In unknown_item (submitted (trace (after tt unknown_then_known_run))))
    as I by (vm_compute; auto).
  destruct (K (after_reachable tt unknown_then_known_run) I) as [_ [N _]].
  exact N.
Defined.

(** C4 fails on the code. One job, every call succeeds: the processor
    has had the UPDATEs to [processing] and [completed] acknowledged, and
    the row inserted for the job still says [pending], with no
    [processed_at]. *)
Theorem row_never_updated :
  let s := after tt plain_run in
  marks (trace s) id1 = [pending; processing; completed] /\
  map (fun r => (row_id r, row_status r, row_processed r)) (rows (table s))
  = [(1%Z, pending, false)].
Proof. vm_compute. split; reflexivity. Qed.

(** C5 fails on the code. A job whose [onSuccess] throws is recorded as
    [completed] and then as [failed]. *)
Theorem completed_then_failed :
  marks (trace (after tt success_throws_run)) id1
  = [pending; processing; completed; failed].
Proof. vm_compute. reflexivity. Qed.

(** C8 fails on the code. The settlement of the first job fails and its
    [onError] throws: the call of [process] is rejected with
    [isProcessing] still set, the second job stays in the queue, and
    whatever happens afterwards it is never shifted and no request goes
    out for it. *)
Theorem throwing_onError_stops_the_queue :
  let s := after tt error_throws_run in
  isProcessing s = true /\
  (exists it e, drains s = [Rejected it e] /\ id it = id1) /\
  map id (queue s) = [id2] /\
  forall acts s', run s acts = Some s' ->
    isProcessing s' = true /\
    taken (trace s') = [id1] /\ requested (trace s') = [id1] /\
    In id2 (map id (queue s')).
Proof.
  intros s.
  assert (exists it e, drains s = [Rejected it e] /\ id it = id1) as D
    by (vm_compute; eexists; eexists; split; reflexivity).
  assert (isProcessing s = true) as F by (vm_compute; reflexivity).
  assert (map id (queue s) = [id2]) as Q by (vm_compute; reflexivity).
  assert (taken (trace s) = [id1]) as T by (vm_compute; reflexivity).
  assert (requested (trace s) = [id1]) as R by (vm_compute; reflexivity).
  split; [exact F|]. split; [exact D|]. split; [exact Q|].
  intros acts s' H. destruct D as [it [e [D _]]].
  destruct (rejected_forever acts s s' it e D F H) as [_ [F' [T' [R' [more Q']]]]].
  split; [exact F'|]. split; [congruence|]. split; [congruence|].
  rewrite Q', map_app, Q. simpl. auto.
Qed.

(** A settlement that fails, for an item without [onError], leaves the
    world as it was. *)
Lemma failure_keeps_world {World : Type} (s s' : state World) (it : item World) o e :
  drains s = [AwaitSettlement it] ->
  onError (it_job it) = None ->
  transferResult o = Throw e ->
  run s [HttpSettled 0 o; DbSettled 0 None; TimerFired 0] = Some s' ->
  world s' = world s.
Proof.
  intros D N T R. destruct s as [ip q ds ad tb w tr]. simpl in D. subst ds.
  cbn in R. rewrite T in R. cbn in R. rewrite N in R. cbn in R.
  destruct q; inversion R; reflexivity.
Qed.

(** C6 on the code. The withdrawal of 10.00 sends the amount text
    "0.0000001"; however the settlement fails, the balance is unchanged;
    when it succeeds a balance of 0.00 becomes 10.00, and a balance of
    0.03 becomes 10.02 where 0.03 + 10.00 is 10.03. *)
Theorem withdraw_credits_floor :
  let b := literal 3 2 in
  let sent := after (holder b) (withdrawal b) in
  let ok := after (holder b) (withdrawal b ++ settled_ok) in
  let bad := after (holder b) (withdrawal b ++ settled_bad) in
  let ok0 := after (holder (Finite 0)) (withdrawal (Finite 0) ++ settled_ok) in
  In (EvRequest id1 (CardPay "card-U" (Some "card-S") "0.0000001")) (trace sent) /\
  (forall o e s',
     transferResult o = Throw e ->
     run sent [HttpSettled 0 o; DbSettled 0 None; TimerFired 0] = Some s' ->
     balance (world s') "user" "guild" = b) /\
  marks (trace bad) id1 = [pending; processing; failed] /\
  balance (world bad) "user" "guild" = b /\
  marks (trace ok) id1 = [pending; processing; completed] /\
  balance (world ok0) "user" "guild" = literal 1000 2 /\
  balance (world ok) "user" "guild" = literal 1002 2 /\
  JSNumber.add b (literal 1000 2) = literal 1003 2 /\
  literal 1002 2 <> literal 1003 2.
Proof.
  intros b sent ok bad ok0.
  split; [vm_compute; left; reflexivity|].
  split.
  { intros o e s' T R.
    assert (exists it, drains sent = [AwaitSettlement it]
                       /\ onError (it_job it) = None) as [it [D N]]
      by (vm_compute; eexists; split; reflexivity).
    rewrite (failure_keeps_world _ _ it o e D N T R). vm_compute. reflexivity. }
  vm_compute. repeat split; try reflexivity. discriminate.
Qed.

(** ** Instances of the properties of the loop *)

Ltac find_in := vm_compute; repeat (first [left; reflexivity | right]).

(** The job whose [onSuccess] throws has the longest history. *)
Lemma status_history_shape_witness :
  In (marks (trace (after tt success_throws_run)) id1)
     [ []; [pending]; [pending; processing]; [pending; processing; completed];
       [pending; processing; completed; failed]; [pending; processing; failed];
       [pending; failed] ].
Proof.
  apply (status_history_shape empty_table tt (after tt success_throws_run) id1).
  apply after_reachable.
Defined.

(** On that run [onSuccess] was called once, after [completed]. *)
Lemma continuations_called_once_witness :
  (invocations (trace (after tt success_throws_run)) id1 Success <= 1)%nat /\
  In (EvMark id1 completed) (trace (after tt success_throws_run)).
Proof.
  destruct (continuations_called_once empty_table tt (after tt success_throws_run) id1
              (after_reachable tt success_throws_run)) as [A [_ [C _]]].
  assert (In (EvInvoke id1 Success) (trace (after tt success_throws_run))) as I
    by find_in.
  split; [exact A|exact (proj1 (C I))].
Defined.

(** The request of the plain run is that of its job. *)
Lemma request_of_submitted_job_witness :
  exists it, In it (submitted (trace (after tt plain_run))) /\ id it = id1 /\
             type (it_job it) = "card_to_card"%string.
Proof.
  destruct (request_of_submitted_job empty_table tt (after tt plain_run) id1
              (CardPay "card-A" (Some "card-B") "1")
              (after_reachable tt plain_run))
    as [it [A [B [_ [[_ D]|[D _]]]]]].
  - find_in.
  - discriminate D.
  - exists it. auto.
Defined.

(** The queue of the run that a throwing [onError] has stopped. *)
Lemma queue_is_fifo_witness :
  rev (submitted_ids (trace (after tt error_throws_run)))
  = rev (taken (trace (after tt error_throws_run)))
    ++ map id (queue (after tt error_throws_run)).
Proof.
  exact (proj1 (queue_is_fifo empty_table tt (after tt error_throws_run)
                  (after_reachable tt error_throws_run))).
Defined.

(** The job of a call of [add] whose INSERT was rejected is in the
    queue, and no call of [process] runs. *)
Lemma rejected_add_keeps_job_witness :
  isProcessing (after tt rejected_add_run) = false /\
  (In first_item (queue (after tt rejected_add_run)) \/
   In id1 (taken (trace (after tt rejected_add_run)))).
Proof.
  destruct (rejected_add_keeps_job empty_table tt (after tt (firstn 1 rejected_add_run))
              (after tt rejected_add_run) 0 first_item
              (Error "SQLITE_BUSY: database is locked")
              (after_reachable tt (firstn 1 rejected_add_run)))
    as [_ [_ [_ [_ [F Q]]]]].
  - vm_compute. reflexivity.
  - vm_compute. reflexivity.
  - split; [rewrite F; vm_compute; reflexivity|exact Q].
Defined.

(** The five steps of the plain run after its submission. *)
Lemma drain_terminates_witness :
  (5 + steps_left (after tt plain_run)
   <= steps_left (after tt (firstn 1 plain_run)))%nat.
Proof.
  apply (drain_terminates (after tt (firstn 1 plain_run)) (after tt plain_run)
           (skipn 1 plain_run)).
  - vm_compute. reflexivity.
  - reflexivity.
Defined.

(** The run with a job of an unknown kind: no call of [process] threw
    with that job, and at its end both jobs have been processed. *)
Lemma jobs_without_onError_keep_the_loop_witness :
  ~ In (Rejected unknown_item (unknown_type "refund"))
       (drains (after tt unknown_then_known_run)) /\
  all_processed (after tt unknown_then_known_run).
Proof.
  assert (run (init empty_table tt) unknown_then_known_run
          = Some (after tt unknown_then_known_run)) as R
    by (vm_compute; reflexivity).
  assert (forall it, In it (submitted (trace (after tt unknown_then_known_run))) ->
                     onError (it_job it) = None) as N.
  { intros it I. vm_compute in I. destruct I as [<-|[<-|[]]]; reflexivity. }
  assert (adds (after tt unknown_then_known_run) = []) as A
    by (vm_compute; reflexivity).
  assert (isProcessing (after tt unknown_then_known_run) = false) as F
    by (vm_compute; reflexivity).
  destruct (jobs_without_onError_keep_the_loop empty_table tt
              unknown_then_known_run _ R eq_refl N) as [X [_ C]].
  split; [exact (X unknown_item (unknown_type "refund"))|].
  destruct (C eq_refl) as [P _]. exact (proj2 (P A F)).
Defined.


(** ** The ledger and the settings under the commands *)

Import Commands.

(** ** Signs *)

Lemma nonneg_finite r : nonneg (Finite r) = true <-> (0 <= r)%Q.
Proof. unfold nonneg, le. apply Qle_bool_iff. Qed.

Lemma nonneg_cases x :
  nonneg x = true -> x = Infinity false \/ exists r, x = Finite r /\ (0 <= r)%Q.
Proof.
  destruct x as [|[|]|r]; simpl; try discriminate; auto.
  intros H. right. exists r. split; auto. apply nonneg_finite; auto.
Qed.

Lemma div_nearest_even_nonneg n d :
  (0 <= n)%Z -> (0 < d)%Z -> (0 <= div_nearest_even n d)%Z.
Proof.
  intros N D. unfold div_nearest_even.
  pose proof (Z.div_pos n d N D).
  destruct (2 * (n mod d) ?= d)%Z; [destruct (Z.even _)| |]; lia.
Qed.

Lemma scale2_nonneg m u : (0 <= m)%Z -> (0 <= scale2 m u)%Q.
Proof.
  intros M. unfold scale2. destruct (0 <=? u)%Z eqn:E.
  - unfold Qle; simpl. apply Z.leb_le in E.
    pose proof (Z.pow_nonneg 2 u). nia.
  - rewrite Qred_correct. unfold Qle; simpl. lia.
Qed.

Lemma round64_nonneg q : (0 <= q)%Q -> nonneg (round64 q) = true.
Proof.
  intros H. unfold round64. destruct q as [n d]. simpl Qnum. simpl Qden.
  destruct n as [|a|a].
  - reflexivity.
  - unfold round_pos.
    set (u := Z.max _ _).
    set (m := if (0 <=? u)%Z then _ else _).
    assert (0 <= m)%Z as M.
    { unfold m. destruct (0 <=? u)%Z eqn:E.
      - apply div_nearest_even_nonneg; [lia|].
        apply Z.leb_le in E. pose proof (Z.pow_pos_nonneg 2 u). lia.
      - apply div_nearest_even_nonneg; [|lia].
        pose proof (Z.pow_nonneg 2 (- u)). lia. }
    destruct (2 ^ 1024 <=? m * 2 ^ u)%Z; [reflexivity|].
    apply nonneg_finite. apply scale2_nonneg; auto.
  - exfalso. unfold Qle in H. simpl in H. lia.
Qed.

Lemma hundred : literal 100 0 = Finite 100.
Proof. vm_compute. reflexivity. Qed.

Lemma truncateDollar_nonneg x :
  nonneg x = true \/ x = NaN -> nonneg (truncateDollar x) = true.
Proof.
  intros [H| ->]; [|reflexivity].
  unfold truncateDollar. rewrite hundred.
  destruct (nonneg_cases x H) as [->|[r [-> R]]]; [reflexivity|].
  cbn [isNaN mul].
  assert (0 <= r * 100)%Q as P by (apply Qmult_le_0_compat; [auto|discriminate]).
  destruct (nonneg_cases _ (round64_nonneg _ P)) as [->|[k [-> K]]]; [reflexivity|].
  cbn [floor div]. change (Qnum 100 =? 0)%Z with false. cbv iota.
  apply round64_nonneg.
  assert (0 <= inject_Z (Qfloor k))%Q.
  { change 0%Q with (inject_Z 0). rewrite <- Zle_Qle.
    change 0%Z with (Qfloor 0). apply Qfloor_resp_le; auto. }
  apply Qle_shift_div_l; [reflexivity|]. lra.
Qed.

Lemma add_nonneg x y :
  nonneg x = true -> nonneg y = true -> nonneg (JSNumber.add x y) = true.
Proof.
  intros X Y.
  destruct (nonneg_cases x X) as [->|[p [-> P]]];
    destruct (nonneg_cases y Y) as [->|[q [-> Q]]]; try reflexivity.
  cbn [JSNumber.add]. apply round64_nonneg. lra.
Qed.

(** What is left after a debit that the balance covers. *)
Lemma sub_nonneg x y :
  nonneg y = true -> lt x y = false -> isNaN x = false ->
  nonneg (sub x y) = true \/ sub x y = NaN.
Proof.
  intros Y L N.
  destruct (nonneg_cases y Y) as [->|[q [-> Q]]];
    destruct x as [|[|]|p]; try discriminate; simpl in *; auto.
  left. apply round64_nonneg.
  apply negb_false_iff in L. apply Qle_bool_iff in L. lra.
Qed.

Lemma valid_nonneg amount : invalid amount = false -> nonneg amount = true.
Proof.
  unfold invalid. intros H. apply orb_false_iff in H. destruct H as [N L].
  destruct amount as [|[|]|q]; try discriminate; auto.
  apply nonneg_finite. simpl in L.
  destruct (Qlt_le_dec q 0) as [X|X]; auto.
  assert (Qle_bool q 0 = true) by (apply Qle_bool_iff; lra). congruence.
Qed.

Lemma or_zero_number x : isNaN (or_zero x) = false.
Proof. destruct x as [|s|q]; simpl; auto. unfold or_zero; simpl. destruct (Qnum q =? 0)%Z; auto. Qed.

Lemma or_zero_nonneg x : nonneg x = true -> nonneg (or_zero x) = true.
Proof.
  intros H. unfold or_zero. destruct (truthy x); auto.
Qed.

(** ** Rows and keys *)

Lemma is_key_spec u g r : is_key u g r = true <-> user_id r = u /\ guild_id r = g.
Proof.
  unfold is_key. rewrite andb_true_iff, !String.eqb_eq. tauto.
Qed.

Lemma find_map {A} (P : A -> bool) (f : A -> A) (l : list A) :
  (forall r, P (f r) = P r) -> find P (map f l) = option_map f (find P l).
Proof.
  intros H. induction l as [|a l IH]; simpl; auto.
  rewrite H. destruct (P a); auto.
Qed.

Lemma find_some_true {A} (P : A -> bool) l r : find P l = Some r -> P r = true.
Proof. intros H. apply find_some in H. tauto. Qed.

Lemma find_existsb {A} (P : A -> bool) l :
  existsb P l = match find P l with Some _ => true | None => false end.
Proof. induction l as [|a l IH]; simpl; auto. destruct (P a); auto. Qed.

Lemma find_app_none {A} (P : A -> bool) l x :
  find P l = None -> find P (l ++ [x]) = if P x then Some x else None.
Proof. induction l as [|a l IH]; simpl; auto. destruct (P a); [discriminate|auto]. Qed.

Lemma find_app_some {A} (P : A -> bool) l x r :
  find P l = Some r -> find P (l ++ [x]) = Some r.
Proof. induction l as [|a l IH]; simpl; [discriminate|]. destruct (P a); auto. Qed.

Lemma get_changed db u g change u' g' :
  keeps_key change ->
  get (map (fun r => if is_key u g r then change r else r) db) u' g'
  = option_map (fun r => if is_key u g r then change r else r) (get db u' g').
Proof.
  intros K. unfold get. apply find_map. intros r.
  destruct (is_key u g r); auto. unfold is_key. destruct (K r) as [-> ->]. reflexivity.
Qed.

Lemma other_key u g u' g' r :
  (u', g') <> (u, g) -> is_key u' g' r = true -> is_key u g r = false.
Proof.
  intros N H. apply is_key_spec in H. destruct H as [<- <-].
  destruct (is_key u g r) eqn:E; auto. apply is_key_spec in E.
  destruct E as [<- <-]. congruence.
Qed.

Lemma get_upsert_same db u g fresh change :
  keeps_key change -> is_key u g fresh = true ->
  get (upsert db u g fresh change) u g
  = Some match get db u g with Some r => change r | None => fresh end.
Proof.
  intros K F. unfold upsert. rewrite find_existsb. fold (get db u g).
  destruct (get db u g) as [r|] eqn:E.
  - rewrite get_changed, E by auto. simpl.
    unfold get in E. rewrite (find_some_true _ _ _ E). reflexivity.
  - unfold get in *. rewrite find_app_none, F; auto.
Qed.

Lemma get_upsert_other db u g fresh change u' g' :
  keeps_key change -> is_key u g fresh = true -> (u', g') <> (u, g) ->
  get (upsert db u g fresh change) u' g' = get db u' g'.
Proof.
  intros K F N. unfold upsert. destruct (existsb (is_key u g) db).
  - rewrite get_changed by auto. destruct (get db u' g') as [r|] eqn:E; auto.
    simpl. unfold get in E. rewrite (other_key u g u' g' r N (find_some_true _ _ _ E)).
    reflexivity.
  - unfold get. destruct (find (is_key u' g') db) as [r|] eqn:E.
    + apply find_app_some; auto.
    + rewrite find_app_none by auto.
      destruct (is_key u' g' fresh) eqn:X; auto.
      apply is_key_spec in X, F. destruct X as [<- <-], F as [<- <-]. congruence.
Qed.

Lemma keeps_with_dollars f : keeps_key (fun r => with_dollars r (f r)).
Proof. intros r. split; reflexivity. Qed.

Lemma keeps_with_card c : keeps_key (fun r => with_card r c).
Proof. intros r. split; reflexivity. Qed.

Lemma get_update_same db u g d :
  get (update_dollars db u g d) u g
  = option_map (fun r => with_dollars r d) (get db u g).
Proof.
  change (update_dollars db u g d)
    with (map (fun r => if is_key u g r then with_dollars r d else r) db).
  rewrite (get_changed db u g (fun r => with_dollars r d) u g (keeps_with_dollars _)).
  destruct (get db u g) as [r|] eqn:E; auto. simpl.
  unfold get in E. rewrite (find_some_true _ _ _ E). reflexivity.
Qed.

Lemma get_update_other db u g d u' g' :
  (u', g') <> (u, g) -> get (update_dollars db u g d) u' g' = get db u' g'.
Proof.
  intros N.
  change (update_dollars db u g d)
    with (map (fun r => if is_key u g r then with_dollars r d else r) db).
  rewrite (get_changed db u g (fun r => with_dollars r d) u' g' (keeps_with_dollars _)).
  destruct (get db u' g') as [r|] eqn:E; auto. simpl.
  unfold get in E. rewrite (other_key u g u' g' r N (find_some_true _ _ _ E)).
  reflexivity.
Qed.

Lemma new_row_key u g d : is_key u g (new_row u g d) = true.
Proof. unfold is_key, new_row; simpl. rewrite !String.eqb_refl. reflexivity. Qed.

(** ** Balances below zero *)

Lemma ledger_ok_map db (f : user_row -> user_row) :
  ledger_ok db = true ->
  (forall r, nonneg (dollars r) = true -> nonneg (dollars (f r)) = true) ->
  ledger_ok (map f db) = true.
Proof.
  unfold ledger_ok. intros H F. rewrite forallb_forall in *.
  intros r I. apply in_map_iff in I. destruct I as [r0 [<- I]]. auto.
Qed.

Lemma ledger_ok_add db x :
  ledger_ok db = true -> nonneg (dollars x) = true -> ledger_ok (db ++ [x]) = true.
Proof.
  unfold ledger_ok. intros H X. rewrite forallb_app, H. simpl. rewrite X. reflexivity.
Qed.

Lemma ledger_ok_upsert db u g fresh change :
  ledger_ok db = true -> nonneg (dollars fresh) = true ->
  (forall r, nonneg (dollars r) = true -> nonneg (dollars (change r)) = true) ->
  ledger_ok (upsert db u g fresh change) = true.
Proof.
  intros H F C. unfold upsert. destruct (existsb _ _).
  - apply ledger_ok_map; auto. intros r R. destruct (is_key u g r); auto.
  - apply ledger_ok_add; auto.
Qed.

Lemma ledger_ok_update db u g d :
  ledger_ok db = true -> nonneg d = true -> ledger_ok (update_dollars db u g d) = true.
Proof.
  intros H D. apply ledger_ok_map; auto. intros r R. destruct (is_key u g r); auto.
Qed.

Lemma ledger_ok_balance db u g : ledger_ok db = true -> nonneg (balance db u g) = true.
Proof.
  intros H. unfold balance. destruct (get db u g) as [r|] eqn:E; [|reflexivity].
  unfold get in E. apply find_some in E. unfold ledger_ok in H.
  rewrite forallb_forall in H. apply H. tauto.
Qed.

(** The balance a covered debit leaves. *)
Lemma debit_nonneg cur t :
  nonneg t = true -> lt (or_zero cur) t = false ->
  nonneg (truncateDollar (sub (or_zero cur) t)) = true.
Proof.
  intros T L. apply truncateDollar_nonneg.
  destruct (sub_nonneg (or_zero cur) t T L (or_zero_number cur)); auto.
Qed.

(** X14. No command writes a balance below zero: over a ledger whose
    balances are numbers not below zero, the ledger that [adm_give],
    [adm_take], [adm_set], [money_pay] or [setcard] leaves, and the one that the [onSuccess] of
    a deposit or of a withdrawal leaves whenever it runs, is such a
    ledger again. *)
Theorem balances_never_negative (c : guild_config) (db : users) (g u target : string)
    (m : member) (amount : number) :
  ledger_ok db = true ->
  (forall db', adm_give c db g m target amount = Accepted db' -> ledger_ok db' = true) /\
  (forall db', adm_take c db g m target amount = Accepted db' -> ledger_ok db' = true) /\
  (forall db', adm_set c db g m target amount = Accepted db' -> ledger_ok db' = true) /\
  (forall db', money_pay db g u target amount = Accepted db' -> ledger_ok db' = true) /\
  (forall card, ledger_ok (setcard db g u card) = true) /\
  (forall db0 st j f r, money_deposit c db0 st g u amount = Accepted j ->
     onSuccess j = Some f -> ledger_ok (fst (f r db)) = true) /\
  (forall db0 sc st j f r, ledger_ok db0 = true ->
     withdraw db0 sc st g u amount = Some j ->
     onSuccess j = Some f -> ledger_ok (fst (f r db)) = true).
Proof.
  intros H. repeat split.
  - intros db'. unfold adm_give. destruct (negb _); [discriminate|].
    destruct (invalid amount) eqn:V; [discriminate|]. intros E; inversion E; subst.
    pose proof (truncateDollar_nonneg amount (or_introl (valid_nonneg _ V))) as T.
    apply ledger_ok_upsert; auto. intros r R. simpl. apply add_nonneg; auto.
  - intros db'. unfold adm_take. destruct (negb _); [discriminate|].
    destruct (invalid amount) eqn:V; [discriminate|].
    destruct (lt _ _) eqn:L; [discriminate|]. intros E; inversion E; subst.
    pose proof (truncateDollar_nonneg amount (or_introl (valid_nonneg _ V))) as T.
    apply ledger_ok_update; auto. apply debit_nonneg; auto.
  - intros db'. unfold adm_set. destruct (negb _); [discriminate|].
    destruct (isNaN amount || lt amount (Finite 0)) eqn:V; [discriminate|].
    intros E; inversion E; subst.
    assert (nonneg (truncateDollar amount) = true) as T.
    { apply truncateDollar_nonneg. left. apply orb_false_iff in V. destruct V as [N L].
      destruct amount as [|[|]|q]; try discriminate; auto.
      simpl in L. apply negb_false_iff in L. exact L. }
    apply ledger_ok_upsert; auto.
  - intros db'. unfold money_pay.
    destruct (invalid amount) eqn:V; [discriminate|].
    destruct (lt _ _) eqn:L; [discriminate|]. intros E; inversion E; subst.
    pose proof (truncateDollar_nonneg amount (or_introl (valid_nonneg _ V))) as T.
    apply ledger_ok_upsert; auto.
    + apply ledger_ok_update; [|apply debit_nonneg; auto].
      destruct (get db target g); auto. apply ledger_ok_add; auto.
    + intros r R. simpl. apply add_nonneg; auto.
  - intros card. unfold setcard. apply ledger_ok_upsert; auto.
  - intros db0 st j f r. unfold money_deposit.
    destruct (invalid amount) eqn:V; [discriminate|].
    destruct (get db0 u g) as [userData|]; [|discriminate].
    destruct (present (card_id userData)); [|discriminate].
    destruct (lt _ _) eqn:L; [discriminate|].
    destruct (configured_card c g); [|discriminate].
    destruct (lt (coins st) _); [discriminate|].
    intros E; inversion E; subst; clear E. simpl. intros F; inversion F; subst; clear F.
    simpl. apply ledger_ok_update; auto.
    apply debit_nonneg; auto. apply valid_nonneg; auto.
  - intros db0 sc st j f r H0. unfold withdraw. fold (invalid amount).
    destruct (invalid amount) eqn:V; [discriminate|].
    destruct (get db0 u g) as [userData|] eqn:G; [|discriminate].
    destruct (card_id userData) as [card|]; [|discriminate].
    destruct (is_empty card); [discriminate|].
    destruct sc as [s|]; [|discriminate].
    destruct (is_empty s); [discriminate|].
    destruct (_ || _); [discriminate|].
    intros E; inversion E; subst; clear E. simpl. intros F; inversion F; subst; clear F.
    simpl. apply ledger_ok_update; auto.
    apply truncateDollar_nonneg. left. apply add_nonneg.
    + apply or_zero_nonneg.
      pose proof (ledger_ok_balance db0 u g H0) as B. unfold balance in B.
      rewrite G in B. exact B.
    + apply valid_nonneg; auto.
Qed.

(** ** What the commands write *)

(** X15. [/setcard] links the card and nothing else: the row of the user
    holds the card as given, the balance is the one before (zero for a new
    row), and the rows of the others are as they were. *)
Theorem setcard_links_card_only (db : users) (g u card : string) :
  option_map card_id (get (setcard db g u card) u g) = Some (Some card) /\
  balance (setcard db g u card) u g = balance db u g /\
  (forall u' g', (u', g') <> (u, g) ->
     get (setcard db g u card) u' g' = get db u' g').
Proof.
  unfold setcard. split; [|split].
  - rewrite get_upsert_same.
    + destruct (get db u g); reflexivity.
    + apply keeps_with_card.
    + unfold is_key; simpl. rewrite !String.eqb_refl. reflexivity.
  - unfold balance. rewrite get_upsert_same.
    + destruct (get db u g); reflexivity.
    + apply keeps_with_card.
    + unfold is_key; simpl. rewrite !String.eqb_refl. reflexivity.
  - intros u' g' N. apply get_upsert_other; auto.
    + apply keeps_with_card.
    + unfold is_key; simpl. rewrite !String.eqb_refl. reflexivity.
Qed.

(** X16. Staff is who holds the role stored by [/adm setstaff]; being an
    administrator does not count, and where no role is stored nobody is
    staff.  Without it [adm_give], [adm_take] and [adm_set] are refused whatever the
    amount. *)
Theorem staff_is_the_configured_role (c : guild_config) (db : users) (g : string)
    (m : member) (target : string) (amount : number) :
  (isStaff c g m = true <->
   exists r role, get_config c g = Some r /\ staff_role_id r = Some role /\
                  role <> "" /\ In role (roles m)) /\
  (isStaff c g m = false ->
   adm_give c db g m target amount = Refused NotStaff /\
   adm_take c db g m target amount = Refused NotStaff /\
   adm_set c db g m target amount = Refused NotStaff).
Proof.
  split.
  - unfold isStaff, present. split.
    + destruct (get_config c g) as [r|]; [|discriminate].
      destruct (staff_role_id r) as [role|] eqn:S; [|discriminate].
      destruct role as [|a role']; [discriminate|]. cbn [is_empty]. intros E.
      apply existsb_exists in E. destruct E as [x [I E]].
      apply String.eqb_eq in E. subst x.
      exists r, (String a role'). repeat split; auto. discriminate.
    + intros [r [role [-> [-> [N I]]]]].
      destruct role as [|a role']; [congruence|]. cbn [is_empty].
      apply existsb_exists. exists (String a role'). split; auto.
      apply String.eqb_refl.
  - intros F. unfold adm_give, adm_take, adm_set. rewrite F. auto.
Qed.

Lemma get_config_changed c g change g' :
  (forall r, config_guild_id (change r) = config_guild_id r) ->
  get_config (map (fun r => if is_guild g r then change r else r) c) g'
  = option_map (fun r => if is_guild g r then change r else r) (get_config c g').
Proof.
  intros K. unfold get_config. apply find_map. intros r.
  destruct (is_guild g r); auto. unfold is_guild. rewrite K. reflexivity.
Qed.

Lemma get_upsert_config c g fresh change g' :
  (forall r, config_guild_id (change r) = config_guild_id r) ->
  config_guild_id fresh = g ->
  get_config (upsert_config c g fresh change) g'
  = if String.eqb g g'
    then Some match get_config c g with Some r => change r | None => fresh end
    else get_config c g'.
Proof.
  intros K F. unfold upsert_config. rewrite find_existsb. fold (get_config c g).
  destruct (String.eqb_spec g g') as [<-|N].
  - destruct (get_config c g) as [r|] eqn:E.
    + rewrite get_config_changed, E by auto. simpl.
      unfold get_config in E. rewrite (find_some_true _ _ _ E). reflexivity.
    + unfold get_config in *. rewrite find_app_none by auto.
      unfold is_guild. rewrite F, String.eqb_refl. reflexivity.
  - destruct (get_config c g) as [r|] eqn:E.
    + rewrite get_config_changed by auto.
      destruct (get_config c g') as [r'|] eqn:E'; auto. simpl.
      unfold get_config in E'. apply find_some_true in E'.
      unfold is_guild in *. apply String.eqb_eq in E'.
      destruct (String.eqb_spec (config_guild_id r') g); [congruence|reflexivity].
    + unfold get_config in *. destruct (find (is_guild g') c) as [r'|] eqn:E'.
      * apply find_app_some; auto.
      * rewrite find_app_none by auto. unfold is_guild. rewrite F.
        destruct (String.eqb_spec g g'); [congruence|reflexivity].
Qed.

(** X17. The settings of a guild are independent: [/server card], [/server
    log] and [/adm setstaff] are for administrators only, each stores its
    value in its own column of the guild's row, keeps the two other
    columns, and leaves the rows of the other guilds alone. *)
Theorem guild_settings_are_independent (c : guild_config) (g : string)
    (m : member) (v : string) :
  (administrator m = false ->
   server_card c g m v = Refused NotAdministrator /\
   server_log c g m v = Refused NotAdministrator /\
   adm_setstaff c g m v = Refused NotAdministrator) /\
  (administrator m = true ->
   exists c1 c2 c3,
     server_card c g m v = Accepted c1 /\
     server_log c g m v = Accepted c2 /\
     adm_setstaff c g m v = Accepted c3 /\
     columns c1 g = (Some v, snd (fst (columns c g)), snd (columns c g)) /\
     columns c2 g = (fst (fst (columns c g)), Some v, snd (columns c g)) /\
     columns c3 g = (fst (fst (columns c g)), snd (fst (columns c g)), Some v) /\
     (forall g', g' <> g ->
        get_config c1 g' = get_config c g' /\
        get_config c2 g' = get_config c g' /\
        get_config c3 g' = get_config c g')).
Proof.
  unfold server_card, server_log, adm_setstaff. split; intros A; rewrite A; simpl; auto.
  eexists. eexists. eexists.
  split; [reflexivity|]. split; [reflexivity|]. split; [reflexivity|].
  unfold columns. rewrite !get_upsert_config, !String.eqb_refl by reflexivity.
  split; [|split; [|split]]; try (destruct (get_config c g); reflexivity).
  intros g' N. rewrite !get_upsert_config by reflexivity.
  destruct (String.eqb_spec g g'); [congruence|auto].
Qed.

Lemma get_added_other db x u' g' :
  is_key u' g' x = false -> get (db ++ [x]) u' g' = get db u' g'.
Proof.
  intros N. unfold get. destruct (find (is_key u' g') db) as [r|] eqn:E.
  - apply find_app_some; auto.
  - rewrite find_app_none, N; auto.
Qed.

Lemma new_row_other u g d u' g' :
  (u', g') <> (u, g) -> is_key u' g' (new_row u g d) = false.
Proof.
  intros N. destruct (is_key u' g' (new_row u g d)) eqn:E; auto.
  apply is_key_spec in E. simpl in E. destruct E as [<- <-]. congruence.
Qed.

(** X18. [/money pay] moves an amount between two rows.  It is accepted only
    when the balance of the payer covers the amount cut to cents; then the
    payer is left with the difference cut to cents, the amount is added to
    the balance of the receiver, who gets a row when there was none, no
    card changes, and the rows of the others are as they were. *)
Theorem pay_moves_between_two_rows (db db' : users) (g u t : string)
    (amount : number) :
  money_pay db g u t amount = Accepted db' ->
  lt (or_zero (balance db u g)) (truncateDollar amount) = false /\
  (forall u' g', (u', g') <> (u, g) -> (u', g') <> (t, g) ->
     get db' u' g' = get db u' g') /\
  (u <> t ->
   get db' u g
   = option_map (fun r => with_dollars r
                   (truncateDollar (sub (or_zero (dollars r)) (truncateDollar amount))))
                (get db u g) /\
   get db' t g
   = Some match get db t g with
          | Some r => with_dollars r (JSNumber.add (dollars r) (truncateDollar amount))
          | None => new_row t g (JSNumber.add (Finite 0) (truncateDollar amount))
          end).
Proof.
  unfold money_pay. destruct (invalid amount); [discriminate|].
  destruct (lt _ _) eqn:L; [discriminate|]. intros E; inversion E; subst; clear E.
  split; [reflexivity|].
  set (tr := truncateDollar amount).
  set (db1 := match get db t g with Some _ => db | None => _ end).
  assert (forall u' g', (u', g') <> (t, g) -> get db1 u' g' = get db u' g') as O1.
  { intros u' g' N. unfold db1. destruct (get db t g); auto.
    apply get_added_other. apply new_row_other; auto. }
  assert (get db1 t g = Some match get db t g with
                             | Some r => r
                             | None => new_row t g (Finite 0)
                             end) as S1.
  { unfold db1. destruct (get db t g) as [r|] eqn:G; auto.
    unfold get in *. rewrite find_app_none, new_row_key; auto. }
  split.
  - intros u' g' N1 N2.
    rewrite get_upsert_other, get_update_other; auto using new_row_key.
    apply (keeps_with_dollars (fun r => JSNumber.add (dollars r) tr)).
  - intros N.
    assert ((u, g) <> (t, g)) as N1 by congruence.
    assert ((t, g) <> (u, g)) as N2 by congruence.
    split.
    + rewrite get_upsert_other, get_update_same, O1; auto using new_row_key.
      * unfold balance. destruct (get db u g); reflexivity.
      * apply (keeps_with_dollars (fun r => JSNumber.add (dollars r) tr)).
    + rewrite (get_upsert_same _ t g _ (fun r => with_dollars r (JSNumber.add (dollars r) tr)));
        auto using new_row_key.
      * rewrite get_update_other, S1 by auto.
        destruct (get db t g); reflexivity.
      * apply (keeps_with_dollars (fun r => JSNumber.add (dollars r) tr)).
Qed.

(** X19. [/adm set] and [/adm give] for a member of the staff: [adm_set]
    leaves the target with the amount cut to cents, [adm_give] adds that to the
    balance of a target with a row and opens a row with it for a target
    without; the card of the target and the rows of the others are as
    they were. *)
Theorem set_and_give_write_the_target (c : guild_config) (db : users) (g : string)
    (m : member) (t : string) (amount : number) :
  isStaff c g m = true -> isNaN amount = false ->
  (lt amount (Finite 0) = false ->
   exists db',
     adm_set c db g m t amount = Accepted db' /\
     balance db' t g = truncateDollar amount /\
     option_map card_id (get db' t g) = Some (match get db t g with
                                              | Some r => card_id r
                                              | None => None
                                              end) /\
     (forall u' g', (u', g') <> (t, g) -> get db' u' g' = get db u' g')) /\
  (le amount (Finite 0) = false ->
   exists db',
     adm_give c db g m t amount = Accepted db' /\
     balance db' t g = match get db t g with
                       | Some r => JSNumber.add (dollars r) (truncateDollar amount)
                       | None => truncateDollar amount
                       end /\
     option_map card_id (get db' t g) = Some (match get db t g with
                                              | Some r => card_id r
                                              | None => None
                                              end) /\
     (forall u' g', (u', g') <> (t, g) -> get db' u' g' = get db u' g')).
Proof.
  intros S N. split; intros L.
  - unfold adm_set. rewrite S, N, L. simpl. eexists. split; [reflexivity|].
    unfold balance.
    rewrite (get_upsert_same _ t g _ (fun r => with_dollars r (truncateDollar amount)))
      by (auto using new_row_key; apply (keeps_with_dollars (fun _ => truncateDollar amount))).
    repeat split; try (destruct (get db t g); reflexivity).
    intros u' g' X. apply get_upsert_other; auto using new_row_key.
    apply (keeps_with_dollars (fun _ => truncateDollar amount)).
  - unfold adm_give, invalid. rewrite S, N, L. simpl. eexists. split; [reflexivity|].
    unfold balance.
    rewrite (get_upsert_same _ t g _
               (fun r => with_dollars r (JSNumber.add (dollars r) (truncateDollar amount))))
      by (auto using new_row_key;
          apply (keeps_with_dollars (fun r => JSNumber.add (dollars r) (truncateDollar amount)))).
    repeat split; try (destruct (get db t g); reflexivity).
    intros u' g' X. apply get_upsert_other; auto using new_row_key.
    apply (keeps_with_dollars (fun r => JSNumber.add (dollars r) (truncateDollar amount))).
Qed.

(** X20. Two deposits over one ledger.  The [onSuccess] of a deposit writes
    the balance read when the command ran less the amount, whatever the
    ledger holds when it runs: on every ledger that has the row of the
    user it leaves that balance, it writes no other row, and it writes
    nothing when the row is gone.  So of two deposits accepted over the
    same ledger and both settled, the balance shows the second only. *)
Theorem two_deposits_debit_once (c : guild_config) (db : users) (st1 st2 : card_status)
    (g u : string) (d1 d2 : number) (j1 j2 : job users) :
  money_deposit c db st1 g u d1 = Accepted j1 ->
  money_deposit c db st2 g u d2 = Accepted j2 ->
  exists f1 f2,
    onSuccess j1 = Some f1 /\ onSuccess j2 = Some f2 /\
    amount (payload j1) = mul d1 (literal 1 8) /\
    amount (payload j2) = mul d2 (literal 1 8) /\
    (forall r1 r2,
      balance (fst (f1 r1 db)) u g
      = truncateDollar (sub (or_zero (balance db u g)) d1) /\
      balance (fst (f2 r2 (fst (f1 r1 db)))) u g
      = truncateDollar (sub (or_zero (balance db u g)) d2)) /\
    forall (r : result) (now : users),
      (get now u g <> None ->
       balance (fst (f1 r now)) u g
       = truncateDollar (sub (or_zero (balance db u g)) d1) /\
       balance (fst (f2 r now)) u g
       = truncateDollar (sub (or_zero (balance db u g)) d2)) /\
      (get now u g = None ->
       get (fst (f1 r now)) u g = None /\ get (fst (f2 r now)) u g = None) /\
      (forall u' g', (u', g') <> (u, g) ->
       get (fst (f1 r now)) u' g' = get now u' g' /\
       get (fst (f2 r now)) u' g' = get now u' g').
Proof.
  unfold money_deposit. intros E1 E2.
  destruct (invalid d1); [discriminate|]. destruct (invalid d2); [discriminate|].
  destruct (get db u g) as [userData|] eqn:G; [|discriminate].
  destruct (present (card_id userData)); [|discriminate].
  destruct (lt _ d1); [discriminate|]. destruct (lt _ d2); [discriminate|].
  destruct (configured_card c g); [|discriminate].
  destruct (lt (coins st1) _); [discriminate|].
  destruct (lt (coins st2) _); [discriminate|].
  inversion E1; subst; clear E1. inversion E2; subst; clear E2.
  eexists. eexists. split; [reflexivity|]. split; [reflexivity|].
  split; [reflexivity|]. split; [reflexivity|]. split.
  - intros r1 r2. cbn [fst]. unfold balance.
    rewrite !get_update_same, G. simpl. auto.
  - intros r now. cbn [fst]. unfold balance. rewrite !get_update_same, G.
    split; [|split].
    + intros N. destruct (get now u g); [|congruence]. simpl. auto.
    + intros N. rewrite N. simpl. auto.
    + intros u' g' N. rewrite !get_update_other by exact N. auto.
Qed.

(** X21. Who pays whom.  Every coin command queues a job for
    [/api/transfer/card], from a card to a user identifier, and without
    [onError]: a deposit and [/server pay] from the server card to the
    user and to the target; [/payserver] from the card of the user to the
    identifier of that same user; [/server fine] from the card of the
    target to the identifier of the administrator who fines.  The amount
    posted is the text of [formatCoinAmount]. *)
Theorem coin_commands_pay_user_ids (c : guild_config) (db : users)
    (st : card_status) (g u target : string) (m : member) (a : number)
    (it : item users) :
  (money_deposit c db st g u a = Accepted (it_job it) ->
   exists card, configured_card c g = Some card /\
     onError (it_job it) = None /\
     processItem it
     = Normal (TransferCard card (Some u)
                 (formatCoinAmount (mul a (literal 1 8))))) /\
  (server_pay c db st g m u target a = Accepted (it_job it) ->
   exists card, configured_card c g = Some card /\
     onError (it_job it) = None /\
     processItem it = Normal (TransferCard card (Some target) (formatCoinAmount a))) /\
  (payserver c db st g u a = Accepted (it_job it) ->
   exists card, linked_card db u g = Some card /\
     onError (it_job it) = None /\
     processItem it = Normal (TransferCard card (Some u) (formatCoinAmount a))) /\
  (server_fine c db st g m u target a = Accepted (it_job it) ->
   exists card, linked_card db target g = Some card /\
     onError (it_job it) = None /\
     processItem it = Normal (TransferCard card (Some u) (formatCoinAmount a))).
Proof.
  unfold processItem. repeat split.
  - unfold money_deposit. destruct (invalid a); [discriminate|].
    destruct (get db u g) as [userData|]; [|discriminate].
    destruct (present (card_id userData)); [|discriminate].
    destruct (lt _ a); [discriminate|].
    destruct (configured_card c g) as [card|]; [|discriminate].
    destruct (lt (coins st) _); [discriminate|].
    intros E; inversion E as [J]. exists card. repeat split; reflexivity.
  - unfold server_pay. destruct (negb _); [discriminate|].
    destruct (invalid a); [discriminate|].
    destruct (configured_card c g) as [card|]; [|discriminate].
    destruct (lt (coins st) a); [discriminate|].
    destruct (linked_card db target g); [|discriminate].
    intros E; inversion E as [J]. exists card. repeat split; reflexivity.
  - unfold payserver. destruct (invalid a); [discriminate|].
    destruct (configured_card c g); [|discriminate].
    destruct (linked_card db u g) as [card|]; [|discriminate].
    destruct (_ || _); [discriminate|].
    intros E; inversion E as [J]. exists card. repeat split; reflexivity.
  - unfold server_fine. destruct (negb _); [discriminate|].
    destruct (invalid a); [discriminate|].
    destruct (configured_card c g); [|discriminate].
    destruct (linked_card db target g) as [card|]; [|discriminate].
    destruct (_ || _); [discriminate|].
    intros E; inversion E as [J]. exists card. repeat split; reflexivity.
Qed.

(** ** Instances of the properties of the commands *)

(** A member of the staff takes 0.10 from the holder of 0.30. *)
Lemma balances_never_negative_witness :
  ledger_ok (accepted_ledger
               (adm_take staffed (holder (literal 30 2)) "guild" officer "user"
                  (literal 10 2))) = true.
Proof.
  destruct (balances_never_negative staffed (holder (literal 30 2)) "guild" "user"
              "user" officer (literal 10 2)) as [_ [T _]].
  - vm_compute. reflexivity.
  - apply T. vm_compute. reflexivity.
Defined.

(** The holder links another card. *)
Lemma setcard_links_card_only_witness :
  balance (setcard (holder (literal 30 2)) "guild" "user" "card-N") "user" "guild"
  = literal 30 2 /\
  get (setcard (holder (literal 30 2)) "guild" "user" "card-N") "friend" "guild"
  = None.
Proof.
  destruct (setcard_links_card_only (holder (literal 30 2)) "guild" "user" "card-N")
    as [_ [B O]].
  split.
  - rewrite B. vm_compute. reflexivity.
  - rewrite O; [reflexivity|discriminate].
Defined.

(** An administrator without the staff role cannot give. *)
Lemma staff_is_the_configured_role_witness :
  adm_give staffed (holder (Finite 0)) "guild" admin "user" (literal 1 0)
  = Refused NotStaff.
Proof.
  destruct (staff_is_the_configured_role staffed (holder (Finite 0)) "guild" admin
              "user" (literal 1 0)) as [_ H].
  apply H. reflexivity.
Defined.

(** The administrator stores another server card; the staff role stays. *)
Lemma guild_settings_are_independent_witness :
  exists c1, server_card staffed "guild" admin "card-T" = Accepted c1 /\
             columns c1 "guild" = (Some "card-T", None, Some "role-staff").
Proof.
  destruct (guild_settings_are_independent staffed "guild" admin "card-T") as [_ H].
  destruct (H eq_refl) as [c1 [_ [_ [E [_ [_ [C _]]]]]]].
  exists c1. split; [exact E|exact C].
Defined.

(** Of 1.00 the payer keeps 0.09 after paying 0.90: the difference is
    0.09999999999999998 in binary64 and is cut to cents. *)
Lemma pay_moves_between_two_rows_witness :
  balance paid "user" "guild" = literal 9 2 /\
  balance paid "friend" "guild" = literal 90 2.
Proof.
  destruct (pay_moves_between_two_rows (holder (literal 100 2)) paid "guild" "user"
              "friend" (literal 90 2)) as [_ [_ H]].
  - vm_compute. reflexivity.
  - destruct H as [P R]; [discriminate|].
    unfold balance. rewrite P, R. vm_compute. split; reflexivity.
Defined.

(** A member of the staff sets a balance of 12.345: it is 12.34. *)
Lemma set_and_give_write_the_target_witness :
  exists db', adm_set staffed [] "guild" officer "user" (literal 12345 3)
              = Accepted db' /\
              balance db' "user" "guild" = literal 1234 2.
Proof.
  destruct (set_and_give_write_the_target staffed [] "guild" officer "user"
              (literal 12345 3)) as [H _]; try reflexivity.
  destruct H as [db' [E [B _]]]; [reflexivity|].
  exists db'. split; [exact E|]. rewrite B. vm_compute. reflexivity.
Defined.

(** Deposits of 30.00 and of 20.00 from 100.00: two requests go out,
    and the balance is 80.00; run on a ledger that holds 5.00 by then,
    the first leaves 70.00. *)
Lemma two_deposits_debit_once_witness :
  rev (requested (trace (after (holder (literal 100 0)) two_deposits_run)))
  = [id1; id2] /\
  balance (world (after (holder (literal 100 0)) two_deposits_run)) "user" "guild"
  = literal 80 0 /\
  exists f1 f2,
    onSuccess (deposit_of (literal 30 0)) = Some f1 /\
    onSuccess (deposit_of (literal 20 0)) = Some f2 /\
    (forall r1 r2,
      balance (fst (f2 r2 (fst (f1 r1 (holder (literal 100 0)))))) "user" "guild"
      = literal 80 0) /\
    forall r,
      balance (fst (f1 r (holder (literal 5 0)))) "user" "guild" = literal 70 0.
Proof.
  split; [vm_compute; reflexivity|]. split; [vm_compute; reflexivity|].
  destruct (two_deposits_debit_once staffed (holder (literal 100 0)) rich rich
              "guild" "user" (literal 30 0) (literal 20 0)
              (deposit_of (literal 30 0)) (deposit_of (literal 20 0)))
    as [f1 [f2 [E1 [E2 [_ [_ [H G]]]]]]].
  - vm_compute. reflexivity.
  - vm_compute. reflexivity.
  - exists f1, f2. split; [exact E1|]. split; [exact E2|]. split.
    + intros r1 r2. rewrite (proj2 (H r1 r2)). vm_compute. reflexivity.
    + intros r. destruct (G r (holder (literal 5 0))) as [K _].
      rewrite (proj1 (K ltac:(vm_compute; discriminate))).
      vm_compute. reflexivity.
Defined.

(** The fine on the holder is posted from the card of the holder to the
    identifier of the administrator. *)
Lemma coin_commands_pay_user_ids_witness :
  processItem fined = Normal (TransferCard "card-U" (Some "admin-id") "0.1").
Proof.
  destruct (coin_commands_pay_user_ids staffed (holder (Finite 0)) rich "guild"
              "admin-id" "user" admin (literal 1 1) fined) as [_ [_ [_ H]]].
  destruct H as [card [L [_ P]]]; [vm_compute; reflexivity|].
  rewrite P. vm_compute in L. inversion L; subst. vm_compute. reflexivity.
Defined.
